(** * Segment tree for range variances: a shallow embedding of
      [segment_tree_variance.py] and the properties of its specification.

    The Python code is written once for whatever numbers the input list
    holds, so the embedding is parametrised by the number type and its
    operations ([Number]).  Two instances are given: exact arithmetic on
    the rationals ([rational]), in which the statistics are what their
    definitions say, and IEEE binary64 ([binary64]), which is Python's
    [float].  Counts and indices are unbounded integers ([Z]).

    Python lists are [list]s accessed through [py_getitem] / [py_setitem],
    which raise [IndexError] out of range exactly as Python does.  Methods
    are computations in a small state-and-exception monad over the object's
    fields; an exception carries the state in which it was raised, so that
    "nothing was mutated" is a statement about the model and not a convention.
    Every access to [self.tree] is recorded in a log, which is how the
    bound on the accessed slots is stated.

    The viewers of the tree, [print_tree] and the [draw_node] of
    [visualize_tree.py] and [arbol_segmentos.py], run in the same monad over
    a world that holds the tree and what has been written so far: lines of
    the console, or artists of a figure whose coordinates are exact
    rationals. *)

From Stdlib Require Import ZArith QArith Qpower Qcanon Lia Lqa.
From Stdlib Require Import PrimFloat FloatOps FloatAxioms SpecFloat.
From stdpp Require Import base numbers list gmap strings.

Local Open Scope Z_scope.

(** ** Python values and lists *)

Inductive exn : Type :=
  | IndexError
  | ValueError
  | RecursionError.

Inductive result (A : Type) : Type :=
  | Ok (a : A)
  | Raise (e : exn).
Arguments Ok {A} a.
Arguments Raise {A} e.

(** The slot designated by a Python index: [0 <= i < len] counts from the
    front, [-len <= i < 0] from the back, anything else is out of range. *)
Definition py_pos {A : Type} (l : list A) (i : Z) : option nat :=
  let len := Z.of_nat (length l) in
  if (0 <=? i) && (i <? len) then Some (Z.to_nat i)
  else if (- len <=? i) && (i <? 0) then Some (Z.to_nat (i + len))
  else None.

(** [l[i]] *)
Definition py_getitem {A : Type} (l : list A) (i : Z) : result A :=
  match py_pos l i with
  | Some k => match l !! k with Some x => Ok x | None => Raise IndexError end
  | None => Raise IndexError
  end.

(** [l[i] = x] *)
Definition py_setitem {A : Type} (l : list A) (i : Z) (x : A) : result (list A) :=
  match py_pos l i with
  | Some k => Ok (<[k := x]> l)
  | None => Raise IndexError
  end.

(** ** Python numbers *)

(** The operations the tree applies to the elements and to their sums:
    the [0] of [Node()] and of the early returns, [+], [-], [*], the
    division [x / c] of a number by an [int] count, and the test [0 < x]
    that [max(0, x)] makes. *)
Class Number (T : Type) : Type := {
  num_zero : T;
  num_add : T -> T -> T;
  num_sub : T -> T -> T;
  num_mul : T -> T -> T;
  num_div_int : T -> Z -> T;
  num_pos : T -> bool
}.

(** Exact arithmetic on the rationals. *)
#[global] Instance rational : Number Qc := {|
  num_zero := 0%Qc;
  num_add := Qcplus;
  num_sub := Qcminus;
  num_mul := Qcmult;
  num_div_int := fun x c => (x / Qc_of_Z c)%Qc;
  num_pos := fun x => bool_decide (0 < x)%Qc
|}.

(** [float(c)] for an [int] [c]: exact up to [2^53] in absolute value,
    which no count of list elements reaches. *)
Definition float_of_count (c : Z) : float :=
  match c with
  | Z0 => PrimFloat.zero
  | Zpos p => Pos.iter_op PrimFloat.add p PrimFloat.one
  | Zneg p => PrimFloat.opp (Pos.iter_op PrimFloat.add p PrimFloat.one)
  end.

(** IEEE binary64, Python's [float]. *)
#[global] Instance binary64 : Number float := {|
  num_zero := PrimFloat.zero;
  num_add := PrimFloat.add;
  num_sub := PrimFloat.sub;
  num_mul := PrimFloat.mul;
  num_div_int := fun x c => PrimFloat.div x (float_of_count c);
  num_pos := fun x => PrimFloat.ltb PrimFloat.zero x
|}.

(** ** Methods as computations *)

(** The outcome of running a method on an object in state [S]: its result
    or exception, the state of the object afterwards, and the indices of
    [self.tree] it accessed. *)
Record outcome (S A : Type) : Type := mkOutcome {
  res : result A;
  final : S;
  accessed : list Z
}.
Arguments mkOutcome {S A} res final accessed.
Arguments res {S A} o.
Arguments final {S A} o.
Arguments accessed {S A} o.

Definition M (S A : Type) : Type := S -> outcome S A.

Definition ret {S A : Type} (a : A) : M S A :=
  fun s => mkOutcome (Ok a) s [].

Definition raise {S A : Type} (e : exn) : M S A :=
  fun s => mkOutcome (Raise e) s [].

Definition bind {S A B : Type} (m : M S A) (k : A -> M S B) : M S B :=
  fun s =>
    let o := m s in
    match res o with
    | Ok a =>
        let o' := k a (final o) in
        mkOutcome (res o') (final o') (accessed o ++ accessed o')
    | Raise e => mkOutcome (Raise e) (final o) (accessed o)
    end.

Declare Scope py_scope.
Delimit Scope py_scope with py.
Notation "x <~ m ;;; k" := (bind m (fun x => k))
  (at level 20, m at level 99, k at level 200, only parsing) : py_scope.
Notation "m ;;; k" := (bind m (fun _ => k))
  (at level 100, k at level 200, only parsing, right associativity) : py_scope.
Local Open Scope py_scope.

(** [runs m s a s']: started in state [s], the method [m] returns [a] and
    leaves the object in state [s']. *)
Definition runs {S A : Type} (m : M S A) (s : S) (a : A) (s' : S) : Prop :=
  res (m s) = Ok a /\ final (m s) = s'.

(** A range of [right - left + 1] elements is halved at every recursive
    call, so a call stack of that many frames is never exhausted (see
    [build_fuel_spec], [update_fuel_spec], [query_fuel_spec]). *)
Definition stack_depth (left right : Z) : nat := S (Z.to_nat (right - left)).

Section Program.

Context {T : Type} {num : Number T}.

(** ** class Node *)

Record Node : Type := mkNode {
  suma : T;
  suma_cuadrados : T;
  count : Z
}.

(** [Node()] with its default arguments. *)
Definition Node_default : Node := mkNode num_zero num_zero 0.

(** [max(0, x)]: Python's [max] keeps its first argument unless a later one
    is strictly greater. *)
Definition py_max0 (x : T) : T :=
  if num_pos x then x else num_zero.

Definition get_variance (self : Node) : T :=
  if count self =? 0 then num_zero
  else
    let media := num_div_int (suma self) (count self) in
    let media_cuadrados := num_div_int (suma_cuadrados self) (count self) in
    let varianza := num_sub media_cuadrados (num_mul media media) in
    py_max0 varianza.

Definition get_mean (self : Node) : T :=
  if count self =? 0 then num_zero
  else num_div_int (suma self) (count self).

(** ** class SegmentTreeVariance *)

Record SegmentTreeVariance : Type := mkTree {
  arr : list T;
  n : Z;
  tree : list Node
}.

Definition with_arr (s : SegmentTreeVariance) (a : list T) : SegmentTreeVariance :=
  mkTree a (n s) (tree s).

Definition with_tree (s : SegmentTreeVariance) (t : list Node) : SegmentTreeVariance :=
  mkTree (arr s) (n s) t.

(** [self.n] *)
Definition get_n : M SegmentTreeVariance Z :=
  fun s => mkOutcome (Ok (n s)) s [].

(** [self.arr[i]] *)
Definition arr_get (i : Z) : M SegmentTreeVariance T :=
  fun s => mkOutcome (py_getitem (arr s) i) s [].

(** [self.arr[i] = v] *)
Definition arr_set (i : Z) (v : T) : M SegmentTreeVariance unit :=
  fun s =>
    match py_setitem (arr s) i v with
    | Ok a => mkOutcome (Ok tt) (with_arr s a) []
    | Raise e => mkOutcome (Raise e) s []
    end.

(** [self.tree[i]] *)
Definition tree_get (i : Z) : M SegmentTreeVariance Node :=
  fun s => mkOutcome (py_getitem (tree s) i) s [i].

(** [self.tree[i] = nd] *)
Definition tree_set (i : Z) (nd : Node) : M SegmentTreeVariance unit :=
  fun s =>
    match py_setitem (tree s) i nd with
    | Ok t => mkOutcome (Ok tt) (with_tree s t) [i]
    | Raise e => mkOutcome (Raise e) s [i]
    end.

Definition _merge (left_node right_node : Node) : Node :=
  mkNode (num_add (suma left_node) (suma right_node))
         (num_add (suma_cuadrados left_node) (suma_cuadrados right_node))
         (count left_node + count right_node).

(** The recursive methods take the depth still available on the call
    stack; running out of it is Python's [RecursionError]. *)
Fixpoint _build_fuel (fuel : nat) (node_idx left right : Z)
    : M SegmentTreeVariance unit :=
  match fuel with
  | O => raise RecursionError
  | S fuel' =>
      if left =? right then
        value <~ arr_get left ;;;
        tree_set node_idx (mkNode value (num_mul value value) 1)
      else
        let mid := (left + right) / 2 in
        let left_child := 2 * node_idx + 1 in
        let right_child := 2 * node_idx + 2 in
        _build_fuel fuel' left_child left mid ;;;
        _build_fuel fuel' right_child (mid + 1) right ;;;
        l <~ tree_get left_child ;;;
        r <~ tree_get right_child ;;;
        tree_set node_idx (_merge l r)
  end.

Fixpoint _update_fuel (fuel : nat) (node_idx left right target_idx : Z)
    (new_value : T) : M SegmentTreeVariance unit :=
  match fuel with
  | O => raise RecursionError
  | S fuel' =>
      if left =? right then
        tree_set node_idx (mkNode new_value (num_mul new_value new_value) 1)
      else
        let mid := (left + right) / 2 in
        let left_child := 2 * node_idx + 1 in
        let right_child := 2 * node_idx + 2 in
        (if target_idx <=? mid
         then _update_fuel fuel' left_child left mid target_idx new_value
         else _update_fuel fuel' right_child (mid + 1) right target_idx new_value) ;;;
        l <~ tree_get left_child ;;;
        r <~ tree_get right_child ;;;
        tree_set node_idx (_merge l r)
  end.

Fixpoint _query_fuel (fuel : nat) (node_idx left right query_left query_right : Z)
    : M SegmentTreeVariance Node :=
  match fuel with
  | O => raise RecursionError
  | S fuel' =>
      if (query_right <? left) || (right <? query_left) then ret Node_default
      else if (query_left <=? left) && (right <=? query_right) then tree_get node_idx
      else
        let mid := (left + right) / 2 in
        let left_child := 2 * node_idx + 1 in
        let right_child := 2 * node_idx + 2 in
        left_result <~ _query_fuel fuel' left_child left mid query_left query_right ;;;
        right_result <~ _query_fuel fuel' right_child (mid + 1) right query_left query_right ;;;
        ret (_merge left_result right_result)
  end.

Definition _build (node_idx left right : Z) : M SegmentTreeVariance unit :=
  _build_fuel (stack_depth left right) node_idx left right.

Definition _update_recursive (node_idx left right target_idx : Z) (new_value : T)
    : M SegmentTreeVariance unit :=
  _update_fuel (stack_depth left right) node_idx left right target_idx new_value.

Definition _query_recursive (node_idx left right query_left query_right : Z)
    : M SegmentTreeVariance Node :=
  _query_fuel (stack_depth left right) node_idx left right query_left query_right.

(** [SegmentTreeVariance(arr)].  The argument is the content of the caller's
    list; [self.arr = arr[:]] makes the object's own list of it (the sharing
    between Python lists is modelled in [Module Store]).  First the fields
    are initialised, with [4 * n] slots holding [Node()] ... *)
Definition fresh_object (a : list T) : SegmentTreeVariance :=
  let len := Z.of_nat (length a) in
  mkTree a len (replicate (Z.to_nat (4 * len)) Node_default).

(** ... then the tree is built when the sequence is not empty. *)
Definition __init__ (a : list T) : outcome SegmentTreeVariance unit :=
  let self := fresh_object a in
  if 0 <? n self then _build 0 0 (n self - 1) self
  else ret tt self.

Definition update (index : Z) (new_value : T) : M SegmentTreeVariance unit :=
  sz <~ get_n ;;;
  if (index <? 0) || (sz <=? index) then raise IndexError
  else
    arr_set index new_value ;;;
    _update_recursive 0 0 (sz - 1) index new_value.

Definition query_variance (query_left query_right : Z) : M SegmentTreeVariance T :=
  sz <~ get_n ;;;
  if (query_left <? 0) || (sz <=? query_right) || (query_right <? query_left)
  then raise ValueError
  else
    result_node <~ _query_recursive 0 0 (sz - 1) query_left query_right ;;;
    ret (get_variance result_node).

Definition query_mean (query_left query_right : Z) : M SegmentTreeVariance T :=
  sz <~ get_n ;;;
  if (query_left <? 0) || (sz <=? query_right) || (query_right <? query_left)
  then raise ValueError
  else
    result_node <~ _query_recursive 0 0 (sz - 1) query_left query_right ;;;
    ret (get_mean result_node).

Definition query_sum (query_left query_right : Z) : M SegmentTreeVariance T :=
  sz <~ get_n ;;;
  if (query_left <? 0) || (sz <=? query_right) || (query_right <? query_left)
  then raise ValueError
  else
    result_node <~ _query_recursive 0 0 (sz - 1) query_left query_right ;;;
    ret (suma result_node).

(** [self.arr[:]]: the content of a fresh list. *)
Definition get_array : M SegmentTreeVariance (list T) :=
  fun s => mkOutcome (Ok (arr s)) s [].

(** ** Reachable states of a tree object *)

(** The states a tree object can be in: the one its constructor leaves, and
    the one any method call leaves when started from such a state (whether
    the call returns or raises). *)
Inductive reachable : SegmentTreeVariance -> Prop :=
  | reachable_init (a : list T) :
      res (__init__ a) = Ok tt -> reachable (final (__init__ a))
  | reachable_update (s : SegmentTreeVariance) (index : Z) (new_value : T) :
      reachable s -> reachable (final (update index new_value s))
  | reachable_query_variance (s : SegmentTreeVariance) (lo hi : Z) :
      reachable s -> reachable (final (query_variance lo hi s))
  | reachable_query_mean (s : SegmentTreeVariance) (lo hi : Z) :
      reachable s -> reachable (final (query_mean lo hi s))
  | reachable_query_sum (s : SegmentTreeVariance) (lo hi : Z) :
      reachable s -> reachable (final (query_sum lo hi s))
  | reachable_get_array (s : SegmentTreeVariance) :
      reachable s -> reachable (final (get_array s)).

(** ** What the tree holds *)

(** The node for the range [[l, r]] of the sequence [a]: a leaf of the
    element for a single index, and otherwise the merge of the nodes for
    the two halves of the range. *)
Fixpoint node_of_fuel (fuel : nat) (a : list T) (l r : Z) : Node :=
  match fuel with
  | O => Node_default
  | S fuel' =>
      if l =? r then
        match a !! Z.to_nat l with
        | Some x => mkNode x (num_mul x x) 1
        | None => Node_default
        end
      else
        _merge (node_of_fuel fuel' a l ((l + r) / 2))
               (node_of_fuel fuel' a ((l + r) / 2 + 1) r)
  end.

Definition node_of (a : list T) (l r : Z) : Node :=
  node_of_fuel (stack_depth l r) a l r.

(** What a query for [[ql, qr]] collects below the node for [[l, r]]:
    nothing outside the query, the node itself inside it, and otherwise
    the merge of what the two halves give. *)
Fixpoint answer_fuel (fuel : nat) (a : list T) (l r ql qr : Z) : Node :=
  match fuel with
  | O => Node_default
  | S fuel' =>
      if (qr <? l) || (r <? ql) then Node_default
      else if (ql <=? l) && (r <=? qr) then node_of a l r
      else
        _merge (answer_fuel fuel' a l ((l + r) / 2) ql qr)
               (answer_fuel fuel' a ((l + r) / 2 + 1) r ql qr)
  end.

Definition answer (a : list T) (l r ql qr : Z) : Node :=
  answer_fuel (stack_depth l r) a l r ql qr.

(** What a query for the range of one index collects: the leaf of the
    element [x], merged with [Node()] on the right or on the left at every
    node above it that the query splits. *)
Inductive single (x : T) : Node -> Prop :=
  | single_leaf : single x (mkNode x (num_mul x x) 1)
  | single_left (nd : Node) : single x nd -> single x (_merge nd Node_default)
  | single_right (nd : Node) : single x nd -> single x (_merge Node_default nd).

(** A point update applied directly to a sequence; an index out of range
    changes nothing. *)
Definition apply_update (a : list T) (u : Z * T) : list T :=
  if (0 <=? fst u) && (fst u <? Z.of_nat (length a))
  then <[Z.to_nat (fst u) := snd u]> a
  else a.

Definition apply_updates (a : list T) (us : list (Z * T)) : list T :=
  foldl apply_update a us.

(** The same updates, applied through [update] to a tree. *)
Definition run_updates (s : SegmentTreeVariance) (us : list (Z * T))
    : SegmentTreeVariance :=
  foldl (fun st u => final (update (fst u) (snd u) st)) s us.

End Program.

Arguments Node T : clear implicits.
Arguments SegmentTreeVariance T : clear implicits.

(** ** Positions of the tree *)

(** [covers idx l r j a b]: in the recursion that starts at slot [idx] on the
    range [[l, r]], splitting at [(l + r) / 2] and descending to the slots
    [2 * idx + 1] and [2 * idx + 2], slot [j] is visited with the range
    [[a, b]]. *)
Inductive covers : Z -> Z -> Z -> Z -> Z -> Z -> Prop :=
  | covers_here (idx l r : Z) :
      l <= r -> covers idx l r idx l r
  | covers_left (idx l r j a b : Z) :
      l < r -> covers (2 * idx + 1) l ((l + r) / 2) j a b ->
      covers idx l r j a b
  | covers_right (idx l r j a b : Z) :
      l < r -> covers (2 * idx + 2) ((l + r) / 2 + 1) r j a b ->
      covers idx l r j a b.

(** Slot [j] lies in the heap-shaped subtree below slot [idx]: walking up
    from [j] through the parents reaches [idx]. *)
Definition below (idx j : Z) : Prop :=
  exists d : Z, 0 <= d /\ Z.shiftr (j + 1) d = idx + 1.

(** Slot [j] of a tree over [sz] elements stands for the range [[a, b]]. *)
Definition position (sz j a b : Z) : Prop := covers 0 0 (sz - 1) j a b.

(** The slots visited from [idx] on [[l, r]] all exist in a list of
    [len] slots. *)
Definition fits (len : nat) (idx l r : Z) : Prop :=
  forall j lo hi, covers idx l r j lo hi -> 0 <= j < Z.of_nat len.

Section Invariant.

Context {T : Type} {num : Number T}.

(** Every slot of the subtree at [idx] holds the node of its range of [a]. *)
Definition subtree_ok (a : list T) (t : list (Node T)) (idx l r : Z) : Prop :=
  forall j lo hi, covers idx l r j lo hi ->
    t !! Z.to_nat j = Some (node_of a lo hi).

(** The representation invariant: the fields agree on the length, the tree
    has [4 * n] slots, every position holds the node of its range of the
    backing sequence, and every other slot still holds [Node()]. *)
Definition consistent (s : SegmentTreeVariance T) : Prop :=
  n s = Z.of_nat (length (arr s)) /\
  Z.of_nat (length (tree s)) = 4 * n s /\
  subtree_ok (arr s) (tree s) 0 0 (n s - 1) /\
  (forall k : nat, (forall lo hi, ~ position (n s) (Z.of_nat k) lo hi) ->
     (k < length (tree s))%nat -> tree s !! k = Some Node_default).

End Invariant.

(** ** Direct computation of the statistics of a sequence *)

(** [a[lo : hi + 1]] for [0 <= lo]. *)
Definition slice {A : Type} (a : list A) (lo hi : Z) : list A :=
  take (Z.to_nat (hi + 1 - lo)) (drop (Z.to_nat lo) a).

Definition sum_list (xs : list Qc) : Qc :=
  foldr Qcplus 0%Qc xs.

Definition sum_squares (xs : list Qc) : Qc :=
  sum_list (map (fun x => x * x)%Qc xs).

Definition direct_mean (xs : list Qc) : Qc :=
  (sum_list xs / Qc_of_Z (Z.of_nat (length xs)))%Qc.

(** The population variance by its definition: the mean of the squared
    deviations from the mean. *)
Definition direct_variance (xs : list Qc) : Qc :=
  let mu := direct_mean xs in
  (sum_list (map (fun x => (x - mu) * (x - mu))%Qc xs)
     / Qc_of_Z (Z.of_nat (length xs)))%Qc.

(** The aggregate of a sequence, computed directly. *)
Definition aggregate (xs : list Qc) : Node Qc :=
  mkNode (sum_list xs) (sum_squares xs) (Z.of_nat (length xs)).

(** ** Python lists as shared objects *)

Module Store.

Section Objects.

Context {T : Type} {num : Number T}.

(** Lists live in a store, a finite map from references ([positive]) to
    list contents; a tree object holds a reference to its backing list. *)
Record object : Type := mkObject {
  arr_ref : positive;
  obj_n : Z;
  obj_tree : list (Node T)
}.

(** The fields of an object, with its backing list read from the store. *)
Definition view (h : gmap positive (list T)) (o : object)
    : option (SegmentTreeVariance T) :=
  match h !! arr_ref o with
  | Some a => Some (mkTree a (obj_n o) (obj_tree o))
  | None => None
  end.

(** [l[:]]: a new list with the elements of [l]. *)
Definition copy (h : gmap positive (list T)) (l : positive)
    : option (gmap positive (list T) * positive) :=
  match h !! l with
  | Some xs => let l' := fresh (dom h) in Some (<[l' := xs]> h, l')
  | None => None
  end.

(** [SegmentTreeVariance(a)] for a list [a] of the store: [self.arr = arr[:]],
    then the rest of the constructor on the object's own list. *)
Definition construct (h : gmap positive (list T)) (a : positive)
    : option (result unit * gmap positive (list T) * object) :=
  match copy h a with
  | Some (h', r) =>
      match h' !! r with
      | Some xs =>
          let o := __init__ xs in
          Some (res o, <[r := arr (final o)]> h',
                mkObject r (n (final o)) (tree (final o)))
      | None => None
      end
  | None => None
  end.

(** A method called on an object of the store. *)
Definition call {A : Type} (m : M (SegmentTreeVariance T) A)
    (h : gmap positive (list T)) (o : object)
    : option (result A * gmap positive (list T) * object) :=
  match view h o with
  | Some s =>
      let out := m s in
      Some (res out, <[arr_ref o := arr (final out)]> h,
            mkObject (arr_ref o) (n (final out)) (tree (final out)))
  | None => None
  end.

(** What a method call on an object of the store returns or raises. *)
Definition call_result {A : Type} (m : M (SegmentTreeVariance T) A)
    (h : gmap positive (list T)) (o : object) : option (result A) :=
  match call m h o with
  | Some (r, _, _) => Some r
  | None => None
  end.

(** [self.get_array()]: the reference to a new list, [self.arr[:]]. *)
Definition get_array_ref (h : gmap positive (list T)) (o : object)
    : option (gmap positive (list T) * positive) :=
  copy h (arr_ref o).

(** Any in-place mutation of the list at [l] (item assignment, [append],
    [sort], [clear], ...) leaves some other content at [l]. *)
Definition mutate (h : gmap positive (list T)) (l : positive) (xs : list T)
    : gmap positive (list T) :=
  <[l := xs]> h.

End Objects.

Arguments object T : clear implicits.

End Store.

(** ** Viewers of the tree: [print_tree] and [draw_node] *)

Section Viewers.

Context {T : Type} {num : Number T}.

(** A viewer holds a tree object and produces output: the lines written to
    the console, or the artists added to the axes of a figure.  An
    exception leaves the output produced so far in place. *)
Record world (O : Type) : Type := mkWorld {
  w_st : SegmentTreeVariance T;
  w_out : list O
}.
Arguments mkWorld {O} w_st w_out.
Arguments w_st {O} w.
Arguments w_out {O} w.

(** A method of the tree object, called by the viewer. *)
Definition on_tree {O A : Type} (m : M (SegmentTreeVariance T) A) : M (world O) A :=
  fun w =>
    let o := m (w_st w) in
    mkOutcome (res o) (mkWorld (final o) (w_out w)) (accessed o).

(** [print(...)], [ax.add_patch(...)], [ax.text(...)], [ax.plot(...)] *)
Definition emit {O : Type} (x : O) : M (world O) unit :=
  fun w => mkOutcome (Ok tt) (mkWorld (w_st w) (w_out w ++ [x])) [].

(** [len(st.tree)] *)
Definition tree_len : M (SegmentTreeVariance T) Z :=
  fun s => mkOutcome (Ok (Z.of_nat (length (tree s)))) s [].

(** What [print(f"{indent}[{left},{right}]: {node}")] writes: the number
    of copies of the two-space indent (["  " * level], none for a negative
    level), the range, and the node whose [repr] is shown. *)
Record line : Type := mkLine {
  line_indent : nat;
  line_left : Z;
  line_right : Z;
  line_node : Node T
}.

(** [print_tree(self, node_idx=0, level=0, left=None, right=None)] *)
Fixpoint print_tree_fuel (fuel : nat) (node_idx level : Z) (left right : option Z)
    : M (world line) unit :=
  match fuel with
  | O => raise RecursionError
  | S fuel' =>
      let left := match left with None => 0 | Some l => l end in
      right <~ match right with
               | None => sz <~ on_tree get_n ;;; ret (sz - 1)
               | Some r => ret r
               end ;;;
      if right <? left then ret tt
      else
        node <~ on_tree (tree_get node_idx) ;;;
        emit (mkLine (Z.to_nat level) left right node) ;;;
        if left <? right then
          let mid := (left + right) / 2 in
          print_tree_fuel fuel' (2 * node_idx + 1) (level + 1) (Some left) (Some mid) ;;;
          print_tree_fuel fuel' (2 * node_idx + 2) (level + 1) (Some (mid + 1)) (Some right)
        else ret tt
  end.

Definition print_tree (node_idx level : Z) (left right : option Z)
    : M (world line) unit :=
  fun w =>
    let l := match left with None => 0 | Some l => l end in
    let r := match right with None => n (w_st w) - 1 | Some r => r end in
    print_tree_fuel (stack_depth l r) node_idx level left right w.

(** The artists that [draw_node] adds to the axes.  Coordinates are exact
    rationals: [2.5] is [5/2], [1.2] is [6/5], and [2 ** k] is [2 ^ k].
    The text of a node carries the values that its label formats. *)
Inductive artist : Type :=
  | FancyBboxPatch (x y width height : Q) (facecolor : string)
  | Text (x y : Q) (left right : Z) (suma suma_cuadrados variance : T)
  | Plot (x1 x2 y1 y2 : Q).

(** [draw_node(node_idx, left, right, x, y, level, max_level)], nested in
    [draw_segment_tree]; [fig_width] is the variable of the enclosing
    function that it reads. *)
Fixpoint draw_node_fuel (fuel : nat) (fig_width : Q) (node_idx left right : Z)
    (x y : Q) (level max_level : Z) : M (world artist) unit :=
  match fuel with
  | O => raise RecursionError
  | S fuel' =>
      len <~ on_tree tree_len ;;;
      if (right <? left) || (len <=? node_idx) then ret tt
      else
        node <~ on_tree (tree_get node_idx) ;;;
        let box_width := (5 # 2)%Q in
        let box_height := (6 # 5)%Q in
        let color := if left =? right then "#FFE8E8"%string else "#E8F4F8"%string in
        emit (FancyBboxPatch (x - box_width / 2) (y - box_height / 2)
                box_width box_height color) ;;;
        let variance := get_variance node in
        emit (Text x y left right (suma node) (suma_cuadrados node) variance) ;;;
        if left <? right then
          let mid := (left + right) / 2 in
          let left_child_idx := 2 * node_idx + 1 in
          let right_child_idx := 2 * node_idx + 2 in
          let horizontal_spacing := (fig_width / 2 ^ (level + 2))%Q in
          let vertical_spacing := (5 # 2)%Q in
          let left_x := (x - horizontal_spacing)%Q in
          let right_x := (x + horizontal_spacing)%Q in
          let child_y := (y - vertical_spacing)%Q in
          emit (Plot x left_x (y - box_height / 2) (child_y + box_height / 2)) ;;;
          emit (Plot x right_x (y - box_height / 2) (child_y + box_height / 2)) ;;;
          draw_node_fuel fuel' fig_width left_child_idx left mid
            left_x child_y (level + 1) max_level ;;;
          draw_node_fuel fuel' fig_width right_child_idx (mid + 1) right
            right_x child_y (level + 1) max_level
        else ret tt
  end.

Definition draw_node (fig_width : Q) (node_idx left right : Z) (x y : Q)
    (level max_level : Z) : M (world artist) unit :=
  draw_node_fuel (stack_depth left right) fig_width node_idx left right
    x y level max_level.

(** What a printed line and the label of a drawn node show of a node: the
    range, the sum, the sum of squares and the variance. *)
Definition shown_by_line (ln : line) : Z * Z * T * T * T :=
  (line_left ln, line_right ln, suma (line_node ln),
   suma_cuadrados (line_node ln), get_variance (line_node ln)).

Definition shown_by_artist (a : artist) : option (Z * Z * T * T * T) :=
  match a with
  | Text _ _ l r s q v => Some (l, r, s, q, v)
  | _ => None
  end.

Definition line_range (ln : line) : Z * Z := (line_left ln, line_right ln).

(** The output that a viewer adds to what was there before. *)
Definition added {O A : Type} (m : M (world O) A) (w : world O) : list O :=
  drop (length (w_out w)) (w_out (final (m w))).

(** The lines for the subtree at slot [idx], in the order of the
    traversal. *)
Fixpoint lines_fuel (fuel : nat) (t : list (Node T)) (idx level l r : Z) : list line :=
  match fuel with
  | O => []
  | S fuel' =>
      if r <? l then []
      else
        match t !! Z.to_nat idx with
        | None => []
        | Some nd =>
            mkLine (Z.to_nat level) l r nd ::
            (if l <? r then
               lines_fuel fuel' t (2 * idx + 1) (level + 1) l ((l + r) / 2) ++
               lines_fuel fuel' t (2 * idx + 2) (level + 1) ((l + r) / 2 + 1) r
             else [])
        end
  end.

(** The artists for the subtree at slot [idx], in the order of the
    traversal. *)
Fixpoint artists_fuel (fuel : nat) (t : list (Node T)) (fig_width : Q)
    (idx l r : Z) (x y : Q) (level : Z) : list artist :=
  match fuel with
  | O => []
  | S fuel' =>
      if r <? l then []
      else
        match t !! Z.to_nat idx with
        | None => []
        | Some nd =>
            FancyBboxPatch (x - (5 # 2) / 2) (y - (6 # 5) / 2) (5 # 2) (6 # 5)
              (if l =? r then "#FFE8E8"%string else "#E8F4F8"%string) ::
            Text x y l r (suma nd) (suma_cuadrados nd) (get_variance nd) ::
            (if l <? r then
               let hs := (fig_width / 2 ^ (level + 2))%Q in
               Plot x (x - hs) (y - (6 # 5) / 2) (y - (5 # 2) + (6 # 5) / 2) ::
               Plot x (x + hs) (y - (6 # 5) / 2) (y - (5 # 2) + (6 # 5) / 2) ::
               artists_fuel fuel' t fig_width (2 * idx + 1) l ((l + r) / 2)
                 (x - hs) (y - (5 # 2)) (level + 1) ++
               artists_fuel fuel' t fig_width (2 * idx + 2) ((l + r) / 2 + 1) r
                 (x + hs) (y - (5 # 2)) (level + 1)
             else [])
        end
  end.

End Viewers.

Arguments world T O : clear implicits.
Arguments mkWorld {T O} w_st w_out.
Arguments w_st {T O} w.
Arguments w_out {T O} w.
Arguments line T : clear implicits.
Arguments artist T : clear implicits.

(** ** Arithmetic with midpoints *)

(** Linear arithmetic with the midpoints [(l + r) / 2]. *)
Ltac zlia := Z.div_mod_to_equations; lia.

(** * Properties *)

(** ** Python list access *)

Lemma py_pos_nonneg {A : Type} (l : list A) (i : Z) :
  0 <= i < Z.of_nat (length l) -> py_pos l i = Some (Z.to_nat i).
Proof.
  intros [H0 H1]. unfold py_pos.
  apply Z.leb_le in H0. apply Z.ltb_lt in H1. now rewrite H0, H1.
Qed.

Lemma py_getitem_lookup {A : Type} (l : list A) (i : Z) (x : A) :
  0 <= i -> l !! Z.to_nat i = Some x -> py_getitem l i = Ok x.
Proof.
  intros H0 Hx. unfold py_getitem.
  rewrite py_pos_nonneg.
  - now rewrite Hx.
  - apply lookup_lt_Some in Hx. lia.
Qed.

Lemma py_setitem_insert {A : Type} (l : list A) (i : Z) (x : A) :
  0 <= i < Z.of_nat (length l) ->
  py_setitem l i x = Ok (<[Z.to_nat i := x]> l).
Proof. intros H. unfold py_setitem. now rewrite py_pos_nonneg. Qed.

(** ** The monad *)

Lemma runs_ret {S A : Type} (a : A) (s : S) : runs (ret a) s a s.
Proof. now split. Qed.

Lemma runs_bind {S A B : Type} (m : M S A) (k : A -> M S B) s a s1 b s2 :
  runs m s a s1 -> runs (k a) s1 b s2 -> runs (bind m k) s b s2.
Proof.
  intros [Hr Hf] [Hr' Hf']. unfold runs, bind. rewrite Hr, Hf. simpl. now split.
Qed.

Lemma res_bind_inv {S A B : Type} (m : M S A) (k : A -> M S B) s (b : B) :
  res (bind m k s) = Ok b ->
  exists a, res (m s) = Ok a /\ res (k a (final (m s))) = Ok b.
Proof.
  unfold bind. destruct (res (m s)) as [a|e]; simpl; [|discriminate].
  intros H. now exists a.
Qed.

Lemma final_bind_same {S A B : Type} (m : M S A) (k : A -> M S B) s :
  final (m s) = s -> (forall a, final (k a s) = s) -> final (bind m k s) = s.
Proof.
  intros Hm Hk. unfold bind. destruct (res (m s)); simpl; [|assumption].
  rewrite Hm. apply Hk.
Qed.

Lemma accessed_bind {S A B : Type} (P : Z -> Prop) (m : M S A) (k : A -> M S B) s :
  Forall P (accessed (m s)) ->
  (forall a s', Forall P (accessed (k a s'))) ->
  Forall P (accessed (bind m k s)).
Proof.
  intros Hm Hk. unfold bind. destruct (res (m s)); simpl; [|assumption].
  apply Forall_app. split; [assumption | apply Hk].
Qed.

(** ** The shape of the recursion *)

Lemma covers_range idx l r j a b :
  covers idx l r j a b -> l <= a /\ a <= b /\ b <= r.
Proof. induction 1; zlia. Qed.

Lemma covers_nonempty idx l r j a b : covers idx l r j a b -> l <= r.
Proof. induction 1; lia. Qed.

Lemma covers_single idx l j a b : covers idx l l j a b -> j = idx /\ a = l /\ b = l.
Proof. inversion 1; subst; [auto | lia | lia]. Qed.

Lemma shiftr_half (x d : Z) : 0 <= d -> Z.shiftr x (d + 1) = Z.shiftr x d / 2.
Proof.
  intros Hd. rewrite <- Z.shiftr_shiftr by lia.
  now rewrite (Z.shiftr_div_pow2 _ 1) by lia.
Qed.

Lemma shiftr_le_half (x k : Z) : 0 <= x -> 1 <= k -> Z.shiftr x k <= x / 2.
Proof.
  intros Hx Hk. rewrite Z.shiftr_div_pow2 by lia.
  apply Z.div_le_compat_l; [assumption|].
  split; [lia|]. replace k with (1 + (k - 1)) by lia.
  rewrite Z.pow_add_r by lia.
  assert (0 < 2 ^ (k - 1)) by (apply Z.pow_pos_nonneg; lia). lia.
Qed.

Lemma shiftr_le_self (x k : Z) : 0 <= x -> 0 <= k -> Z.shiftr x k <= x.
Proof.
  intros Hx Hk. destruct (Z.eq_dec k 0) as [->|Hne].
  - now rewrite Z.shiftr_0_r.
  - pose proof (shiftr_le_half x k Hx ltac:(lia)). zlia.
Qed.

Lemma below_refl idx : below idx idx.
Proof. exists 0. split; [lia | apply Z.shiftr_0_r]. Qed.

Lemma below_left idx j : below (2 * idx + 1) j -> below idx j.
Proof.
  intros (d & Hd & E). exists (d + 1). split; [lia|].
  rewrite shiftr_half, E by assumption. zlia.
Qed.

Lemma below_right idx j : below (2 * idx + 2) j -> below idx j.
Proof.
  intros (d & Hd & E). exists (d + 1). split; [lia|].
  rewrite shiftr_half, E by assumption. zlia.
Qed.

Lemma below_ge idx j : 0 <= idx -> below idx j -> idx <= j.
Proof.
  intros H0 (d & Hd & E).
  destruct (Z_lt_le_dec (j + 1) 0) as [Hneg|Hpos].
  - exfalso. rewrite Z.shiftr_div_pow2 in E by lia.
    assert (0 < 2 ^ d) by (apply Z.pow_pos_nonneg; lia).
    assert ((j + 1) / 2 ^ d < 0) by (apply Z.div_lt_upper_bound; lia). lia.
  - pose proof (shiftr_le_self (j + 1) d Hpos Hd). lia.
Qed.

(** The subtrees below the two children of a slot share no slot. *)
Lemma below_children_disjoint idx j :
  0 <= idx -> below (2 * idx + 1) j -> below (2 * idx + 2) j -> False.
Proof.
  intros H0 (d1 & Hd1 & E1) (d2 & Hd2 & E2).
  destruct (Z.lt_trichotomy d1 d2) as [Hlt | [-> | Hgt]].
  - replace d2 with (d1 + (d2 - d1)) in E2 by lia.
    rewrite <- Z.shiftr_shiftr, E1 in E2 by lia.
    pose proof (shiftr_le_half (2 * idx + 1 + 1) (d2 - d1) ltac:(lia) ltac:(lia)).
    zlia.
  - lia.
  - replace d1 with (d2 + (d1 - d2)) in E1 by lia.
    rewrite <- Z.shiftr_shiftr, E2 in E1 by lia.
    pose proof (shiftr_le_half (2 * idx + 2 + 1) (d1 - d2) ltac:(lia) ltac:(lia)).
    zlia.
Qed.

Lemma covers_below idx l r j a b : covers idx l r j a b -> below idx j.
Proof.
  induction 1; [apply below_refl | now apply below_left | now apply below_right].
Qed.

Lemma covers_ge idx l r j a b : 0 <= idx -> covers idx l r j a b -> idx <= j.
Proof. intros H0 H. apply below_ge; [assumption|]. eapply covers_below, H. Qed.

Lemma covers_children_disjoint idx l1 r1 l2 r2 j a1 b1 a2 b2 :
  0 <= idx ->
  covers (2 * idx + 1) l1 r1 j a1 b1 -> covers (2 * idx + 2) l2 r2 j a2 b2 -> False.
Proof.
  intros H0 H1 H2.
  eapply below_children_disjoint; [exact H0 | |]; eapply covers_below; eassumption.
Qed.

(** A slot is visited at most once, so it stands for one range only. *)
Lemma covers_functional idx l r j a b a' b' :
  0 <= idx -> covers idx l r j a b -> covers idx l r j a' b' -> a = a' /\ b = b'.
Proof.
  intros H0 H. revert H0 a' b'.
  induction H as [idx l r Hle | idx l r j a b Hlt H IH | idx l r j a b Hlt H IH];
    intros H0 a' b' H'.
  - inversion H'; subst; [auto | |]; exfalso;
      match goal with Hc : covers _ _ _ idx _ _ |- _ =>
        apply covers_ge in Hc; lia end.
  - inversion H'; subst.
    + apply covers_ge in H; lia.
    + apply IH; [lia | assumption].
    + exfalso. eapply covers_children_disjoint; [exact H0 | exact H | eassumption].
  - inversion H'; subst.
    + apply covers_ge in H; lia.
    + exfalso. eapply covers_children_disjoint; [exact H0 | eassumption | exact H].
    + apply IH; [lia | assumption].
Qed.

Lemma covers_dec_fuel (k : nat) : forall idx l r j,
  r - l < Z.of_nat k ->
  (exists a b, covers idx l r j a b) \/ (forall a b, ~ covers idx l r j a b).
Proof.
  induction k as [|k IH]; intros idx l r j Hk.
  - right. intros a b H. apply covers_nonempty in H. lia.
  - destruct (Z_lt_le_dec r l) as [Hrl|Hlr].
    { right. intros a b H. apply covers_nonempty in H. lia. }
    destruct (Z.eq_dec j idx) as [->|Hne].
    { left. exists l, r. now apply covers_here. }
    destruct (Z.eq_dec l r) as [->|Hlr'].
    { right. intros a b H. apply covers_single in H. tauto. }
    destruct (IH (2 * idx + 1) l ((l + r) / 2) j ltac:(zlia)) as [(a & b & H)|HL].
    { left. exists a, b. apply covers_left; [lia | assumption]. }
    destruct (IH (2 * idx + 2) ((l + r) / 2 + 1) r j ltac:(zlia)) as [(a & b & H)|HR].
    { left. exists a, b. apply covers_right; [lia | assumption]. }
    right. intros a b H. inversion H; subst; [congruence | |].
    + eapply HL; eassumption.
    + eapply HR; eassumption.
Qed.

Lemma covers_dec idx l r j :
  (exists a b, covers idx l r j a b) \/ (forall a b, ~ covers idx l r j a b).
Proof. apply (covers_dec_fuel (Z.to_nat (r - l + 1))). lia. Qed.

(** The classic bound: with a power of two [p] above the slot and the
    range shrinking as [p] grows, no slot reaches [4 * sz]. *)
Lemma covers_bound_aux (sz : Z) idx l r j a b :
  covers idx l r j a b ->
  forall p, 1 <= p -> 0 <= idx -> idx + 2 <= 2 * p -> p * (r - l) + 1 <= sz ->
  idx + 2 <= 4 * sz -> 0 <= j /\ j + 2 <= 4 * sz.
Proof.
  induction 1 as [idx l r Hle | idx l r j a b Hlt H IH | idx l r j a b Hlt H IH];
    intros p Hp H0 Hidx Hsz Hroot.
  - lia.
  - assert (p <= p * (r - l)) by nia.
    assert (2 * ((l + r) / 2 - l) <= r - l) by zlia.
    apply (IH (2 * p)); try lia; nia.
  - assert (p <= p * (r - l)) by nia.
    assert (2 * (r - ((l + r) / 2 + 1)) <= r - l) by zlia.
    apply (IH (2 * p)); try lia; nia.
Qed.

Lemma position_bound (sz j a b : Z) : position sz j a b -> 0 <= j < 4 * sz.
Proof.
  intros H. unfold position in H.
  pose proof (covers_nonempty _ _ _ _ _ _ H).
  pose proof (covers_bound_aux sz _ _ _ _ _ _ H 1). lia.
Qed.

Lemma fits_root (sz : Z) : fits (Z.to_nat (4 * sz)) 0 0 (sz - 1).
Proof.
  intros j a b H. apply position_bound in H. lia.
Qed.

Lemma fits_left len idx l r :
  l < r -> fits len idx l r -> fits len (2 * idx + 1) l ((l + r) / 2).
Proof. intros Hlt Hf j a b H. eapply Hf, covers_left; eassumption. Qed.

Lemma fits_right len idx l r :
  l < r -> fits len idx l r -> fits len (2 * idx + 2) ((l + r) / 2 + 1) r.
Proof. intros Hlt Hf j a b H. eapply Hf, covers_right; eassumption. Qed.

Lemma covered_in_bounds (sz : Z) (l : list Z) :
  Forall (fun j => exists lo hi, covers 0 0 (sz - 1) j lo hi) l ->
  Forall (fun j => 0 <= j < 4 * sz) l.
Proof.
  intros H. eapply Forall_impl; [exact H|].
  intros j (lo & hi & Hc). now apply (position_bound sz j lo hi).
Qed.

Lemma not_covered_self idx l r (k : nat) :
  l < r -> 0 <= idx -> (forall lo hi, ~ covers idx l r (Z.of_nat k) lo hi) ->
  Z.to_nat idx <> k.
Proof.
  intros Hlt H0 Hk <-. apply (Hk l r).
  rewrite Z2Nat.id by assumption. apply covers_here. lia.
Qed.

Lemma stack_depth_enough (l r : Z) : r - l < Z.of_nat (stack_depth l r).
Proof. unfold stack_depth. lia. Qed.

Lemma range_check_valid (sz lo hi : Z) :
  0 <= lo <= hi -> hi < sz -> (lo <? 0) || (sz <=? hi) || (hi <? lo) = false.
Proof.
  intros H1 H2.
  replace (lo <? 0) with false by (symmetry; apply Z.ltb_ge; lia).
  replace (sz <=? hi) with false by (symmetry; apply Z.leb_gt; lia).
  replace (hi <? lo) with false by (symmetry; apply Z.ltb_ge; lia).
  reflexivity.
Qed.

Lemma range_check_invalid (sz lo hi : Z) :
  lo > hi \/ lo < 0 \/ hi >= sz -> (lo <? 0) || (sz <=? hi) || (hi <? lo) = true.
Proof.
  intros H. rewrite !orb_true_iff, !Z.ltb_lt, Z.leb_le. lia.
Qed.

Lemma index_check_valid (sz i : Z) : 0 <= i < sz -> (i <? 0) || (sz <=? i) = false.
Proof.
  intros H.
  replace (i <? 0) with false by (symmetry; apply Z.ltb_ge; lia).
  replace (sz <=? i) with false by (symmetry; apply Z.leb_gt; lia).
  reflexivity.
Qed.

Lemma index_check_invalid (sz i : Z) : i < 0 \/ i >= sz -> (i <? 0) || (sz <=? i) = true.
Proof. intros H. rewrite orb_true_iff, Z.ltb_lt, Z.leb_le. lia. Qed.

(** ** The tree, for any kind of number *)

Section Structure.

Context {T : Type} {num : Number T}.

Implicit Types (s : SegmentTreeVariance T) (nd : Node T).
Implicit Types (a : list T) (t : list (Node T)).

Lemma runs_get_n s : runs get_n s (n s) s.
Proof. now split. Qed.

Lemma runs_tree_get (j : Z) nd s :
  0 <= j -> tree s !! Z.to_nat j = Some nd -> runs (tree_get j) s nd s.
Proof.
  intros H0 Hj. split; [|reflexivity]. simpl. now apply py_getitem_lookup.
Qed.

Lemma runs_tree_set (j : Z) nd s :
  0 <= j < Z.of_nat (length (tree s)) ->
  runs (tree_set j nd) s tt (with_tree s (<[Z.to_nat j := nd]> (tree s))).
Proof.
  intros H. unfold runs, tree_set. rewrite py_setitem_insert by assumption. now split.
Qed.

Lemma runs_arr_get (i : Z) (x : T) s :
  0 <= i -> arr s !! Z.to_nat i = Some x -> runs (arr_get i) s x s.
Proof.
  intros H0 Hi. split; [|reflexivity]. simpl. now apply py_getitem_lookup.
Qed.

Lemma runs_arr_set (i : Z) (v : T) s :
  0 <= i < Z.of_nat (length (arr s)) ->
  runs (arr_set i v) s tt (with_arr s (<[Z.to_nat i := v]> (arr s))).
Proof.
  intros H. unfold runs, arr_set. rewrite py_setitem_insert by assumption. now split.
Qed.

Lemma accessed_tree_get (P : Z -> Prop) (j : Z) s :
  P j -> Forall P (accessed (tree_get j s)).
Proof. intros H. simpl. now constructor. Qed.

Lemma accessed_tree_set (P : Z -> Prop) (j : Z) nd s :
  P j -> Forall P (accessed (tree_set j nd s)).
Proof.
  intros H. unfold tree_set. destruct (py_setitem (tree s) j nd); simpl; now constructor.
Qed.

Lemma accessed_bind_get_n {A : Type} (k : Z -> M (SegmentTreeVariance T) A) s :
  accessed (bind get_n k s) = accessed (k (n s) s).
Proof. reflexivity. Qed.

Lemma accessed_arr_set (i : Z) (v : T) s : accessed (arr_set i v s) = [].
Proof. unfold arr_set. now destruct (py_setitem (arr s) i v). Qed.

Lemma record_eta s : mkTree (arr s) (n s) (tree s) = s.
Proof. now destruct s. Qed.

(** *** The node of a range *)

Lemma node_of_fuel_irrelevant (f1 : nat) : forall (f2 : nat) a l r,
  l <= r -> r - l < Z.of_nat f1 -> r - l < Z.of_nat f2 ->
  node_of_fuel f1 a l r = node_of_fuel f2 a l r.
Proof.
  induction f1 as [|f1 IH]; intros f2 a l r Hlr H1 H2; [lia|].
  destruct f2 as [|f2]; [lia|]. simpl.
  destruct (Z.eqb_spec l r) as [->|Hne]; [reflexivity|].
  f_equal; apply IH; zlia.
Qed.

Lemma node_of_fuel_enough (fuel : nat) a l r :
  l <= r -> r - l < Z.of_nat fuel -> node_of_fuel fuel a l r = node_of a l r.
Proof.
  intros Hlr Hf. unfold node_of.
  apply node_of_fuel_irrelevant; [assumption | assumption | apply stack_depth_enough].
Qed.

Lemma node_of_leaf a (l : Z) (x : T) :
  a !! Z.to_nat l = Some x -> node_of a l l = mkNode x (num_mul x x) 1.
Proof.
  intros Hx. unfold node_of, stack_depth. simpl. now rewrite Z.eqb_refl, Hx.
Qed.

Lemma node_of_split a (l r : Z) :
  l < r ->
  node_of a l r = _merge (node_of a l ((l + r) / 2)) (node_of a ((l + r) / 2 + 1) r).
Proof.
  intros Hlt. unfold node_of at 1. unfold stack_depth. simpl.
  replace (l =? r) with false by (symmetry; apply Z.eqb_neq; lia).
  f_equal; apply node_of_fuel_enough; zlia.
Qed.

(** The node of a range depends on the elements of the range only. *)
Lemma node_of_fuel_ext (fuel : nat) : forall a a' l r,
  (forall k, l <= k <= r -> a' !! Z.to_nat k = a !! Z.to_nat k) ->
  node_of_fuel fuel a' l r = node_of_fuel fuel a l r.
Proof.
  induction fuel as [|fuel IH]; intros a a' l r Hext; [reflexivity|].
  simpl. destruct (Z.eqb_spec l r) as [->|Hne].
  - now rewrite Hext by lia.
  - f_equal; apply IH; intros k Hk; apply Hext; zlia.
Qed.

Lemma node_of_insert_outside a (i lo hi : Z) (v : T) :
  0 <= i -> 0 <= lo -> i < lo \/ hi < i ->
  node_of (<[Z.to_nat i := v]> a) lo hi = node_of a lo hi.
Proof.
  intros Hi Hlo Hout. unfold node_of. apply node_of_fuel_ext.
  intros k Hk. apply list_lookup_insert_ne. lia.
Qed.

Lemma count_node_of_fuel (fuel : nat) : forall a l r,
  r - l < Z.of_nat fuel -> 0 <= l <= r -> r < Z.of_nat (length a) ->
  count (node_of_fuel fuel a l r) = r - l + 1.
Proof.
  induction fuel as [|fuel IH]; intros a l r Hf Hlr Hr; [lia|].
  simpl. destruct (Z.eqb_spec l r) as [->|Hne].
  - destruct (lookup_lt_is_Some_2 a (Z.to_nat r)) as [x ->]; [lia|]. simpl. lia.
  - cbn [_merge count]. rewrite !IH by zlia. lia.
Qed.

Lemma count_node_of a (l r : Z) :
  0 <= l <= r -> r < Z.of_nat (length a) -> count (node_of a l r) = r - l + 1.
Proof. intros. apply count_node_of_fuel; [apply stack_depth_enough | lia | lia]. Qed.

Lemma subtree_ok_ext a a' t t' idx l r :
  subtree_ok a t idx l r ->
  (forall j lo hi, covers idx l r j lo hi ->
     t' !! Z.to_nat j = t !! Z.to_nat j /\ node_of a' lo hi = node_of a lo hi) ->
  subtree_ok a' t' idx l r.
Proof.
  intros Hok Hext j lo hi Hc. destruct (Hext j lo hi Hc) as [-> ->]. now apply Hok.
Qed.

Lemma subtree_ok_left a t idx l r :
  l < r -> subtree_ok a t idx l r -> subtree_ok a t (2 * idx + 1) l ((l + r) / 2).
Proof. intros Hlt Hok j lo hi Hc. apply Hok. now apply covers_left. Qed.

Lemma subtree_ok_right a t idx l r :
  l < r -> subtree_ok a t idx l r -> subtree_ok a t (2 * idx + 2) ((l + r) / 2 + 1) r.
Proof. intros Hlt Hok j lo hi Hc. apply Hok. now apply covers_right. Qed.

(** *** The recursive methods *)

(** The last statement of [_build] and [_update_recursive]: the node is
    recomputed from its two children. *)
Lemma runs_recombine s (idx : Z) (nl nr : Node T) :
  0 <= idx < Z.of_nat (length (tree s)) ->
  tree s !! Z.to_nat (2 * idx + 1) = Some nl ->
  tree s !! Z.to_nat (2 * idx + 2) = Some nr ->
  runs (l <~ tree_get (2 * idx + 1) ;;;
        r <~ tree_get (2 * idx + 2) ;;;
        tree_set idx (_merge l r))
       s tt (with_tree s (<[Z.to_nat idx := _merge nl nr]> (tree s))).
Proof.
  intros Hidx Hl Hr.
  eapply runs_bind; [apply runs_tree_get; [lia | exact Hl] |].
  eapply runs_bind; [apply runs_tree_get; [lia | exact Hr] |].
  now apply runs_tree_set.
Qed.

(** Recomputing a node whose children are in order puts the subtree in
    order. *)
Lemma recombine_ok a t (idx l r : Z) :
  0 <= idx -> l < r -> fits (length t) idx l r ->
  subtree_ok a t (2 * idx + 1) l ((l + r) / 2) ->
  subtree_ok a t (2 * idx + 2) ((l + r) / 2 + 1) r ->
  exists nl nr,
    t !! Z.to_nat (2 * idx + 1) = Some nl /\
    t !! Z.to_nat (2 * idx + 2) = Some nr /\
    subtree_ok a (<[Z.to_nat idx := _merge nl nr]> t) idx l r.
Proof.
  intros H0 Hlt Hfit HL HR.
  assert (Hm : l <= (l + r) / 2 < r) by zlia.
  exists (node_of a l ((l + r) / 2)), (node_of a ((l + r) / 2 + 1) r).
  split; [apply HL, covers_here; lia |].
  split; [apply HR, covers_here; lia |].
  intros j lo hi Hc. inversion Hc; subst.
  - rewrite list_lookup_insert_eq.
    + now rewrite <- node_of_split.
    + specialize (Hfit j lo hi Hc). lia.
  - rewrite list_lookup_insert_ne.
    + now apply HL.
    + match goal with Hc' : covers (2 * idx + 1) _ _ _ _ _ |- _ =>
        apply covers_ge in Hc'; lia end.
  - rewrite list_lookup_insert_ne.
    + now apply HR.
    + match goal with Hc' : covers (2 * idx + 2) _ _ _ _ _ |- _ =>
        apply covers_ge in Hc'; lia end.
Qed.

(** [_build] returns, leaves the subtree in order and every slot outside
    of it as it was. *)
Lemma build_fuel_spec (fuel : nat) : forall idx l r s,
  r - l < Z.of_nat fuel -> 0 <= l <= r -> r < Z.of_nat (length (arr s)) ->
  0 <= idx -> fits (length (tree s)) idx l r ->
  exists t',
    runs (_build_fuel fuel idx l r) s tt (with_tree s t') /\
    length t' = length (tree s) /\
    subtree_ok (arr s) t' idx l r /\
    (forall k : nat, (forall lo hi, ~ covers idx l r (Z.of_nat k) lo hi) ->
       t' !! k = tree s !! k).
Proof.
  induction fuel as [|fuel IH]; intros idx l r s Hfuel Hlr Hr H0 Hfit; [lia|].
  simpl. destruct (Z.eqb_spec l r) as [->|Hne].
  - destruct (lookup_lt_is_Some_2 (arr s) (Z.to_nat r)) as [x Hx]; [lia|].
    pose proof (Hfit idx r r (covers_here idx r r ltac:(lia))) as Hidx.
    exists (<[Z.to_nat idx := mkNode x (num_mul x x) 1]> (tree s)).
    split; [|split; [|split]].
    + eapply runs_bind; [apply runs_arr_get; [lia | exact Hx] |].
      now apply runs_tree_set.
    + apply length_insert.
    + intros j lo hi Hc. apply covers_single in Hc as (-> & -> & ->).
      rewrite list_lookup_insert_eq by lia.
      now rewrite (node_of_leaf (arr s) r x Hx).
    + intros k Hk. apply list_lookup_insert_ne. intros <-.
      apply (Hk r r). rewrite Z2Nat.id by lia. apply covers_here. lia.
  - assert (Hlt : l < r) by lia.
    assert (Hm : l <= (l + r) / 2 < r) by zlia.
    destruct (IH (2 * idx + 1) l ((l + r) / 2) s) as (t1 & Hrun1 & Hlen1 & Hok1 & Hfr1);
      [lia | lia | lia | lia | now apply fits_left |].
    destruct (IH (2 * idx + 2) ((l + r) / 2 + 1) r (with_tree s t1))
      as (t2 & Hrun2 & Hlen2 & Hok2 & Hfr2);
      [lia | lia | simpl; lia | lia | simpl; rewrite Hlen1; now apply fits_right |].
    simpl in Hlen2, Hok2, Hfr2.
    assert (HokL : subtree_ok (arr s) t2 (2 * idx + 1) l ((l + r) / 2)).
    { eapply subtree_ok_ext; [exact Hok1|]. intros j lo hi Hc. split; [|reflexivity].
      pose proof (fun H => covers_ge _ _ _ _ _ _ H Hc).
      rewrite <- (Z2Nat.id j) in Hc by lia.
      apply Hfr2. intros lo' hi' Hc'.
      eapply covers_children_disjoint; [exact H0 | exact Hc | exact Hc']. }
    destruct (recombine_ok (arr s) t2 idx l r) as (nl & nr & Hnl & Hnr & Hok);
      [lia | lia | rewrite Hlen2, Hlen1; exact Hfit | exact HokL | exact Hok2 |].
    pose proof (Hfit idx l r (covers_here idx l r ltac:(lia))) as Hidx.
    exists (<[Z.to_nat idx := _merge nl nr]> t2).
    split; [|split; [|split]].
    + eapply runs_bind; [exact Hrun1|].
      eapply runs_bind; [exact Hrun2|].
      apply (runs_recombine (with_tree s t2)); simpl; [lia | assumption | assumption].
    + rewrite length_insert. congruence.
    + exact Hok.
    + intros k Hk.
      rewrite list_lookup_insert_ne by (now apply (not_covered_self idx l r)).
      rewrite Hfr2, Hfr1; [reflexivity | |];
        intros lo hi Hc; apply (Hk lo hi);
        [now apply covers_left | now apply covers_right].
Qed.

(** [_update_recursive] returns; having started from a subtree in order
    for a sequence, it leaves the subtree in order for the sequence with
    the new value at the target, and every slot outside as it was. *)
Lemma update_fuel_spec (fuel : nat) : forall idx l r s a i v,
  r - l < Z.of_nat fuel -> 0 <= l -> l <= i <= r -> r < Z.of_nat (length a) ->
  0 <= idx -> fits (length (tree s)) idx l r ->
  subtree_ok a (tree s) idx l r ->
  exists t',
    runs (_update_fuel fuel idx l r i v) s tt (with_tree s t') /\
    length t' = length (tree s) /\
    subtree_ok (<[Z.to_nat i := v]> a) t' idx l r /\
    (forall k : nat, (forall lo hi, ~ covers idx l r (Z.of_nat k) lo hi) ->
       t' !! k = tree s !! k).
Proof.
  induction fuel as [|fuel IH]; intros idx l r s a i v Hfuel Hl Hi Hr H0 Hfit Hok; [lia|].
  simpl. destruct (Z.eqb_spec l r) as [->|Hne].
  - assert (i = r) as -> by lia.
    pose proof (Hfit idx r r (covers_here idx r r ltac:(lia))) as Hidx.
    exists (<[Z.to_nat idx := mkNode v (num_mul v v) 1]> (tree s)).
    split; [|split; [|split]].
    + now apply runs_tree_set.
    + apply length_insert.
    + intros j lo hi Hc. apply covers_single in Hc as (-> & -> & ->).
      rewrite list_lookup_insert_eq by lia.
      rewrite (node_of_leaf _ r v); [reflexivity|].
      apply list_lookup_insert_eq. lia.
    + intros k Hk. apply list_lookup_insert_ne. intros <-.
      apply (Hk r r). rewrite Z2Nat.id by lia. apply covers_here. lia.
  - assert (Hlt : l < r) by lia.
    assert (Hm : l <= (l + r) / 2 < r) by zlia.
    set (a' := <[Z.to_nat i := v]> a).
    assert (Hchild : exists t1,
      runs (if i <=? (l + r) / 2
            then _update_fuel fuel (2 * idx + 1) l ((l + r) / 2) i v
            else _update_fuel fuel (2 * idx + 2) ((l + r) / 2 + 1) r i v)
           s tt (with_tree s t1) /\
      length t1 = length (tree s) /\
      subtree_ok a' t1 (2 * idx + 1) l ((l + r) / 2) /\
      subtree_ok a' t1 (2 * idx + 2) ((l + r) / 2 + 1) r /\
      (forall k : nat, (forall lo hi, ~ covers idx l r (Z.of_nat k) lo hi) ->
         t1 !! k = tree s !! k)).
    { destruct (Z.leb_spec i ((l + r) / 2)) as [Hle|Hgt].
      - destruct (IH (2 * idx + 1) l ((l + r) / 2) s a i v)
          as (t1 & Hrun1 & Hlen1 & Hok1 & Hfr1);
          [lia | lia | lia | lia | lia | now apply fits_left
          | now apply subtree_ok_left |].
        exists t1. split; [exact Hrun1|]. split; [exact Hlen1|].
        split; [exact Hok1|]. split.
        + eapply subtree_ok_ext; [apply subtree_ok_right; [exact Hlt | exact Hok] |].
          intros j lo hi Hc. split.
          * pose proof (fun H => covers_ge _ _ _ _ _ _ H Hc).
            rewrite <- (Z2Nat.id j) in Hc by lia.
            apply Hfr1. intros lo' hi' Hc'.
            eapply covers_children_disjoint; [exact H0 | exact Hc' | exact Hc].
          * apply covers_range in Hc. apply node_of_insert_outside; lia.
        + intros k Hk. apply Hfr1. intros lo hi Hc. apply (Hk lo hi).
          now apply covers_left.
      - destruct (IH (2 * idx + 2) ((l + r) / 2 + 1) r s a i v)
          as (t1 & Hrun1 & Hlen1 & Hok1 & Hfr1);
          [lia | lia | lia | lia | lia | now apply fits_right
          | now apply subtree_ok_right |].
        exists t1. split; [exact Hrun1|]. split; [exact Hlen1|].
        split; [|split; [exact Hok1|]].
        + eapply subtree_ok_ext; [apply subtree_ok_left; [exact Hlt | exact Hok] |].
          intros j lo hi Hc. split.
          * pose proof (fun H => covers_ge _ _ _ _ _ _ H Hc).
            rewrite <- (Z2Nat.id j) in Hc by lia.
            apply Hfr1. intros lo' hi' Hc'.
            eapply covers_children_disjoint; [exact H0 | exact Hc | exact Hc'].
          * apply covers_range in Hc. apply node_of_insert_outside; lia.
        + intros k Hk. apply Hfr1. intros lo hi Hc. apply (Hk lo hi).
          now apply covers_right. }
    destruct Hchild as (t1 & Hrun1 & Hlen1 & HokL & HokR & Hfr1).
    destruct (recombine_ok a' t1 idx l r) as (nl & nr & Hnl & Hnr & Hok');
      [lia | lia | rewrite Hlen1; exact Hfit | exact HokL | exact HokR |].
    pose proof (Hfit idx l r (covers_here idx l r ltac:(lia))) as Hidx.
    exists (<[Z.to_nat idx := _merge nl nr]> t1).
    split; [|split; [|split]].
    + eapply runs_bind; [exact Hrun1|].
      apply (runs_recombine (with_tree s t1)); simpl; [lia | assumption | assumption].
    + rewrite length_insert. congruence.
    + exact Hok'.
    + intros k Hk.
      rewrite list_lookup_insert_ne by (now apply (not_covered_self idx l r)).
      now apply Hfr1.
Qed.

(** [_query_recursive] returns what the query collects below the node,
    and changes nothing. *)
Lemma query_fuel_spec (fuel : nat) : forall idx l r s a ql qr,
  r - l < Z.of_nat fuel -> 0 <= l <= r -> 0 <= idx ->
  subtree_ok a (tree s) idx l r ->
  runs (_query_fuel fuel idx l r ql qr) s (answer_fuel fuel a l r ql qr) s.
Proof.
  induction fuel as [|fuel IH]; intros idx l r s a ql qr Hfuel Hlr H0 Hok; [lia|].
  simpl.
  destruct ((qr <? l) || (r <? ql)) eqn:Hno; [apply runs_ret|].
  apply orb_false_iff in Hno as [Hn1 Hn2].
  apply Z.ltb_ge in Hn1, Hn2.
  destruct ((ql <=? l) && (r <=? qr)) eqn:Htot.
  { apply runs_tree_get; [lia|]. apply Hok, covers_here. lia. }
  assert (Hlt : l < r).
  { apply andb_false_iff in Htot as [Hf|Hf]; apply Z.leb_gt in Hf; lia. }
  assert (Hm : l <= (l + r) / 2 < r) by zlia.
  eapply runs_bind.
  { apply (IH _ _ _ s a); [lia | lia | lia | now apply subtree_ok_left]. }
  eapply runs_bind.
  { apply (IH _ _ _ s a); [lia | lia | lia | now apply subtree_ok_right]. }
  apply runs_ret.
Qed.

(** What a query collects depends on the elements of the queried range
    only. *)
Lemma answer_fuel_ext (fuel : nat) : forall a a' l r ql qr,
  (forall k, ql <= k <= qr -> a' !! Z.to_nat k = a !! Z.to_nat k) ->
  answer_fuel fuel a' l r ql qr = answer_fuel fuel a l r ql qr.
Proof.
  induction fuel as [|fuel IH]; intros a a' l r ql qr Hext; [reflexivity|].
  simpl. destruct ((qr <? l) || (r <? ql)); [reflexivity|].
  destruct ((ql <=? l) && (r <=? qr)) eqn:Htot.
  - apply andb_true_iff in Htot as [H1 H2]. apply Z.leb_le in H1, H2.
    unfold node_of. apply node_of_fuel_ext. intros k Hk. apply Hext. lia.
  - f_equal; now apply IH.
Qed.

Lemma answer_insert_outside a (i sz lo hi : Z) (v : T) :
  0 <= i -> 0 <= lo -> i < lo \/ hi < i ->
  answer (<[Z.to_nat i := v]> a) 0 (sz - 1) lo hi = answer a 0 (sz - 1) lo hi.
Proof.
  intros Hi Hlo Hout. unfold answer. apply answer_fuel_ext.
  intros k Hk. apply list_lookup_insert_ne. lia.
Qed.

(** *** The slots accessed *)

Lemma build_fuel_accessed (fuel : nat) : forall idx l r s,
  l <= r ->
  Forall (fun j => exists lo hi, covers idx l r j lo hi)
         (accessed (_build_fuel fuel idx l r s)).
Proof.
  induction fuel as [|fuel IH]; intros idx l r s Hlr; [constructor|].
  simpl. destruct (Z.eqb_spec l r) as [->|Hne].
  - apply accessed_bind; [constructor|]. intros x s'.
    apply accessed_tree_set. exists r, r. now apply covers_here.
  - assert (Hlt : l < r) by lia.
    assert (Hm : l <= (l + r) / 2 < r) by zlia.
    assert (HL : forall j, (exists lo hi, covers (2 * idx + 1) l ((l + r) / 2) j lo hi) ->
                           exists lo hi, covers idx l r j lo hi).
    { intros j (lo & hi & Hc). exists lo, hi. now apply covers_left. }
    assert (HR : forall j, (exists lo hi, covers (2 * idx + 2) ((l + r) / 2 + 1) r j lo hi) ->
                           exists lo hi, covers idx l r j lo hi).
    { intros j (lo & hi & Hc). exists lo, hi. now apply covers_right. }
    apply accessed_bind; [eapply Forall_impl; [apply IH; lia | exact HL] |].
    intros _ s1.
    apply accessed_bind; [eapply Forall_impl; [apply IH; lia | exact HR] |].
    intros _ s2.
    apply accessed_bind;
      [apply accessed_tree_get, HL; eexists _, _; apply covers_here; lia |].
    intros nl s3.
    apply accessed_bind;
      [apply accessed_tree_get, HR; eexists _, _; apply covers_here; lia |].
    intros nr s4.
    apply accessed_tree_set. exists l, r. apply covers_here. lia.
Qed.

Lemma update_fuel_accessed (fuel : nat) : forall idx l r i v s,
  l <= r ->
  Forall (fun j => exists lo hi, covers idx l r j lo hi)
         (accessed (_update_fuel fuel idx l r i v s)).
Proof.
  induction fuel as [|fuel IH]; intros idx l r i v s Hlr; [constructor|].
  simpl. destruct (Z.eqb_spec l r) as [->|Hne].
  - apply accessed_tree_set. exists r, r. now apply covers_here.
  - assert (Hlt : l < r) by lia.
    assert (Hm : l <= (l + r) / 2 < r) by zlia.
    assert (HL : forall j, (exists lo hi, covers (2 * idx + 1) l ((l + r) / 2) j lo hi) ->
                           exists lo hi, covers idx l r j lo hi).
    { intros j (lo & hi & Hc). exists lo, hi. now apply covers_left. }
    assert (HR : forall j, (exists lo hi, covers (2 * idx + 2) ((l + r) / 2 + 1) r j lo hi) ->
                           exists lo hi, covers idx l r j lo hi).
    { intros j (lo & hi & Hc). exists lo, hi. now apply covers_right. }
    apply accessed_bind.
    { destruct (i <=? (l + r) / 2);
        (eapply Forall_impl; [apply IH; lia | assumption]). }
    intros _ s1.
    apply accessed_bind;
      [apply accessed_tree_get, HL; eexists _, _; apply covers_here; lia |].
    intros nl s3.
    apply accessed_bind;
      [apply accessed_tree_get, HR; eexists _, _; apply covers_here; lia |].
    intros nr s4.
    apply accessed_tree_set. exists l, r. apply covers_here. lia.
Qed.

Lemma query_fuel_accessed (fuel : nat) : forall idx l r ql qr s,
  l <= r ->
  Forall (fun j => exists lo hi, covers idx l r j lo hi)
         (accessed (_query_fuel fuel idx l r ql qr s)).
Proof.
  induction fuel as [|fuel IH]; intros idx l r ql qr s Hlr; [constructor|].
  simpl. destruct ((qr <? l) || (r <? ql)) eqn:Hno; [constructor|].
  apply orb_false_iff in Hno as [Hn1 Hn2]. apply Z.ltb_ge in Hn1, Hn2.
  destruct ((ql <=? l) && (r <=? qr)) eqn:Htot.
  { apply accessed_tree_get. exists l, r. now apply covers_here. }
  assert (Hlt : l < r).
  { apply andb_false_iff in Htot as [Hf|Hf]; apply Z.leb_gt in Hf; lia. }
  assert (Hm : l <= (l + r) / 2 < r) by zlia.
  apply accessed_bind.
  { eapply Forall_impl; [apply IH; lia|].
    intros j (lo & hi & Hc). exists lo, hi. now apply covers_left. }
  intros nl s1. apply accessed_bind; [|intros; constructor].
  eapply Forall_impl; [apply IH; lia|].
  intros j (lo & hi & Hc). exists lo, hi. now apply covers_right.
Qed.

Lemma init_accessed a :
  Forall (fun j => 0 <= j < 4 * Z.of_nat (length a)) (accessed (__init__ a)).
Proof.
  unfold __init__, fresh_object. cbn [n].
  destruct (Z.ltb_spec 0 (Z.of_nat (length a))); [|constructor].
  apply covered_in_bounds, build_fuel_accessed. lia.
Qed.

Lemma update_accessed s (i : Z) (v : T) :
  Forall (fun j => 0 <= j < 4 * n s) (accessed (update i v s)).
Proof.
  unfold update. rewrite accessed_bind_get_n.
  destruct ((i <? 0) || (n s <=? i)) eqn:Hchk; [constructor|].
  apply orb_false_iff in Hchk as [H1 H2]. apply Z.ltb_ge in H1. apply Z.leb_gt in H2.
  apply accessed_bind; [rewrite accessed_arr_set; constructor|]. intros _ s'.
  apply covered_in_bounds, update_fuel_accessed. lia.
Qed.

Lemma query_accessed {A : Type} (f : Node T -> A) s (lo hi : Z) :
  Forall (fun j => 0 <= j < 4 * n s)
    (accessed ((sz <~ get_n ;;;
                if (lo <? 0) || (sz <=? hi) || (hi <? lo) then raise ValueError
                else (result_node <~ _query_recursive 0 0 (sz - 1) lo hi ;;;
                      ret (f result_node))) s)).
Proof.
  rewrite accessed_bind_get_n.
  destruct ((lo <? 0) || (n s <=? hi) || (hi <? lo)) eqn:Hchk; [constructor|].
  apply orb_false_iff in Hchk as [Hchk H3].
  apply orb_false_iff in Hchk as [H1 H2].
  apply Z.ltb_ge in H1, H3. apply Z.leb_gt in H2.
  apply accessed_bind; [|intros; constructor].
  apply covered_in_bounds, query_fuel_accessed. lia.
Qed.

(** *** The public methods *)

(** Queries never change the object, whatever its state. *)
Lemma query_fuel_final (fuel : nat) : forall idx l r ql qr s,
  final (_query_fuel fuel idx l r ql qr s) = s.
Proof.
  induction fuel as [|fuel IH]; intros idx l r ql qr s; [reflexivity|].
  simpl. destruct ((qr <? l) || (r <? ql)); [reflexivity|].
  destruct ((ql <=? l) && (r <=? qr)); [reflexivity|].
  apply final_bind_same; [apply IH|]. intros nl.
  apply final_bind_same; [apply IH|]. reflexivity.
Qed.

Lemma query_final {A : Type} (f : Node T -> A) s (lo hi : Z) :
  final ((sz <~ get_n ;;;
          if (lo <? 0) || (sz <=? hi) || (hi <? lo) then raise ValueError
          else (result_node <~ _query_recursive 0 0 (sz - 1) lo hi ;;;
                ret (f result_node))) s) = s.
Proof.
  apply final_bind_same; [reflexivity|]. intros sz.
  destruct ((lo <? 0) || (sz <=? hi) || (hi <? lo)); [reflexivity|].
  apply final_bind_same; [apply query_fuel_final | reflexivity].
Qed.

Lemma query_variance_final lo hi s : final (query_variance lo hi s) = s.
Proof. apply (query_final get_variance). Qed.

Lemma query_mean_final lo hi s : final (query_mean lo hi s) = s.
Proof. apply (query_final get_mean). Qed.

Lemma query_sum_final lo hi s : final (query_sum lo hi s) = s.
Proof. apply (query_final suma). Qed.

(** The constructor returns and establishes the invariant. *)
Lemma init_consistent a :
  res (__init__ a) = Ok tt /\
  consistent (final (__init__ a)) /\
  arr (final (__init__ a)) = a.
Proof.
  unfold __init__, fresh_object. cbn [n].
  set (len := Z.of_nat (length a)).
  set (self := mkTree a len (replicate (Z.to_nat (4 * len)) Node_default)).
  destruct (Z.ltb_spec 0 len) as [Hpos|Hzero].
  - destruct (build_fuel_spec (stack_depth 0 (len - 1)) 0 0 (len - 1) self)
      as (t' & [Hres Hfin] & Hlen & Hok & Hfr).
    + apply stack_depth_enough.
    + lia.
    + simpl. lia.
    + lia.
    + simpl. rewrite length_replicate. apply fits_root.
    + unfold _build. rewrite Hres, Hfin. simpl in *.
      rewrite length_replicate in Hlen.
      split; [reflexivity|]. split; [|reflexivity].
      split; [reflexivity|]. split; [simpl; lia|]. split; [exact Hok|].
      simpl. intros k Hk Hlt. rewrite Hfr by exact Hk.
      apply lookup_replicate_2. lia.
  - assert (length a = 0%nat) as E by lia.
    apply length_zero_iff_nil in E. subst a. simpl.
    split; [reflexivity|]. split; [|reflexivity].
    split; [reflexivity|]. split; [reflexivity|]. split.
    + intros j lo hi Hc. apply covers_nonempty in Hc. simpl in Hc. lia.
    + simpl. intros k _ Hk. lia.
Qed.

(** A call of [update] with a valid index returns, stores the value in the
    backing sequence and re-establishes the invariant. *)
Lemma update_valid s (i : Z) (v : T) :
  consistent s -> 0 <= i < n s ->
  exists s',
    runs (update i v) s tt s' /\ consistent s' /\
    arr s' = <[Z.to_nat i := v]> (arr s) /\ n s' = n s.
Proof.
  intros (Hn & Hlen & Hok & Hrest) Hi.
  destruct (update_fuel_spec (stack_depth 0 (n s - 1)) 0 0 (n s - 1)
              (with_arr s (<[Z.to_nat i := v]> (arr s))) (arr s) i v)
    as (t' & Hrun & Hlen' & Hok' & Hfr).
  - apply stack_depth_enough.
  - lia.
  - lia.
  - lia.
  - lia.
  - simpl. intros j lo hi Hc. apply position_bound in Hc. lia.
  - exact Hok.
  - exists (with_tree (with_arr s (<[Z.to_nat i := v]> (arr s))) t').
    split; [|split; [|split; reflexivity]].
    + unfold update. eapply runs_bind; [apply runs_get_n|].
      rewrite index_check_valid by assumption.
      eapply runs_bind; [apply runs_arr_set; lia|]. exact Hrun.
    + simpl in *. split; [|split; [|split]]; simpl.
      * rewrite length_insert. exact Hn.
      * lia.
      * exact Hok'.
      * intros k Hk Hlt. rewrite Hfr by exact Hk. apply Hrest; [exact Hk | lia].
Qed.

(** A call of [update] with an index out of range raises before anything
    is touched. *)
Lemma update_invalid s (i : Z) (v : T) :
  i < 0 \/ i >= n s ->
  res (update i v s) = Raise IndexError /\ final (update i v s) = s /\
  accessed (update i v s) = [].
Proof.
  intros H. unfold update, bind. simpl.
  rewrite index_check_invalid by assumption. now simpl.
Qed.

Lemma query_node_valid s (lo hi : Z) :
  consistent s -> 0 <= lo <= hi -> hi < n s ->
  runs (_query_recursive 0 0 (n s - 1) lo hi) s (answer (arr s) 0 (n s - 1) lo hi) s.
Proof.
  intros (Hn & Hlen & Hok & Hrest) H1 H2.
  apply query_fuel_spec; [apply stack_depth_enough | lia | lia | exact Hok].
Qed.

(** A query with a valid range returns the statistic of what it collects. *)
Lemma query_valid {A : Type} (f : Node T -> A) s (lo hi : Z) :
  consistent s -> 0 <= lo <= hi -> hi < n s ->
  runs (sz <~ get_n ;;;
        if (lo <? 0) || (sz <=? hi) || (hi <? lo) then raise ValueError
        else (result_node <~ _query_recursive 0 0 (sz - 1) lo hi ;;;
              ret (f result_node)))
       s (f (answer (arr s) 0 (n s - 1) lo hi)) s.
Proof.
  intros Hc H1 H2.
  eapply runs_bind; [apply runs_get_n|].
  rewrite range_check_valid by assumption.
  eapply runs_bind; [now apply query_node_valid|]. apply runs_ret.
Qed.

(** A query with an invalid range raises before anything is touched. *)
Lemma query_invalid {A : Type} (f : Node T -> A) s (lo hi : Z) :
  lo > hi \/ lo < 0 \/ hi >= n s ->
  let q := (sz <~ get_n ;;;
            if (lo <? 0) || (sz <=? hi) || (hi <? lo) then raise ValueError
            else (result_node <~ _query_recursive 0 0 (sz - 1) lo hi ;;;
                  ret (f result_node))) in
  res (q s) = Raise ValueError /\ final (q s) = s /\ accessed (q s) = [].
Proof.
  intros H q. unfold q, bind. simpl.
  rewrite range_check_invalid by assumption. now simpl.
Qed.

(** Every reachable state satisfies the invariant. *)
Lemma reachable_consistent s : reachable s -> consistent s.
Proof.
  induction 1 as [a Hres | s i v Hs IH | s lo hi Hs IH | s lo hi Hs IH
                 | s lo hi Hs IH | s Hs IH].
  - apply init_consistent.
  - destruct (Z_lt_le_dec i 0) as [Hneg|Hpos];
      [|destruct (Z_lt_le_dec i (n s)) as [Hlt|Hge]].
    + destruct (update_invalid s i v) as (_ & -> & _); [lia | exact IH].
    + destruct (update_valid s i v IH ltac:(lia)) as (s' & [_ Hfin] & Hc & _).
      now rewrite Hfin.
    + destruct (update_invalid s i v) as (_ & -> & _); [lia | exact IH].
  - now rewrite query_variance_final.
  - now rewrite query_mean_final.
  - now rewrite query_sum_final.
  - exact IH.
Qed.

(** The invariant determines the tree from the backing sequence. *)
Lemma consistent_unique (s1 s2 : SegmentTreeVariance T) :
  consistent s1 -> consistent s2 -> arr s1 = arr s2 -> s1 = s2.
Proof.
  intros (Hn1 & Hlen1 & Hok1 & Hrest1) (Hn2 & Hlen2 & Hok2 & Hrest2) Harr.
  destruct s1 as [a1 n1 t1], s2 as [a2 n2 t2]. simpl in *. subst a2.
  assert (n1 = n2) as -> by lia. f_equal.
  apply list_eq. intros k.
  destruct (decide (k < length t1)%nat) as [Hk|Hk].
  - destruct (covers_dec 0 0 (n2 - 1) (Z.of_nat k)) as [(lo & hi & Hc)|Hnc].
    + pose proof (Hok1 _ _ _ Hc) as E1. pose proof (Hok2 _ _ _ Hc) as E2.
      rewrite Nat2Z.id in E1, E2. congruence.
    + rewrite Hrest1, Hrest2; [reflexivity | exact Hnc | lia | exact Hnc | exact Hk].
  - rewrite !lookup_ge_None_2 by lia. reflexivity.
Qed.

(** *** Sequences of updates *)

Lemma update_arr s (i : Z) (v : T) :
  consistent s ->
  consistent (final (update i v s)) /\
  n (final (update i v s)) = n s /\
  arr (final (update i v s)) = apply_update (arr s) (i, v).
Proof.
  intros Hc. unfold apply_update. cbn [fst snd].
  destruct (Hc) as (Hn & _).
  destruct (Z.leb_spec 0 i) as [H0|H0];
    [destruct (Z.ltb_spec i (Z.of_nat (length (arr s)))) as [H1|H1]|].
  - destruct (update_valid s i v Hc ltac:(lia)) as (s' & [_ Hfin] & Hc' & Harr & Hn').
    rewrite Hfin. cbn [andb]. auto.
  - destruct (update_invalid s i v) as (_ & -> & _); [lia|]. cbn [andb]. auto.
  - destruct (update_invalid s i v) as (_ & -> & _); [lia|]. cbn [andb]. auto.
Qed.

Lemma run_updates_spec (us : list (Z * T)) : forall s,
  consistent s ->
  consistent (run_updates s us) /\
  n (run_updates s us) = n s /\
  arr (run_updates s us) = apply_updates (arr s) us.
Proof.
  induction us as [|[i v] us IH]; intros s Hc; [now auto|].
  unfold run_updates, apply_updates. cbn [foldl fst snd].
  destruct (update_arr s i v Hc) as (Hc' & Hn' & Harr').
  destruct (IH _ Hc') as (Hc2 & Hn2 & Harr2).
  unfold run_updates, apply_updates in *.
  split; [exact Hc2|]. split; [congruence|]. now rewrite Harr2, Harr'.
Qed.

Lemma apply_updates_length (us : list (Z * T)) : forall a,
  length (apply_updates a us) = length a.
Proof.
  induction us as [|u us IH]; intros a; [reflexivity|].
  unfold apply_updates in *. cbn [foldl]. rewrite IH.
  unfold apply_update. destruct (_ && _); [apply length_insert | reflexivity].
Qed.

(** *** Lists shared with the caller *)

Lemma copy_spec (h : gmap positive (list T)) (l : positive) (xs : list T) :
  h !! l = Some xs ->
  exists l', Store.copy h l = Some (<[l' := xs]> h, l') /\ h !! l' = None.
Proof.
  intros Hl. exists (fresh (dom h)). unfold Store.copy. rewrite Hl.
  split; [reflexivity|]. apply not_elem_of_dom, is_fresh.
Qed.

Lemma view_mutate_other (h : gmap positive (list T)) (o : Store.object T)
    (l : positive) (xs : list T) :
  l <> Store.arr_ref o -> Store.view (Store.mutate h l xs) o = Store.view h o.
Proof.
  intros Hne. unfold Store.view, Store.mutate. now rewrite lookup_insert_ne.
Qed.

Lemma call_result_view {A : Type} (m : M (SegmentTreeVariance T) A)
    (h : gmap positive (list T)) (o : Store.object T) s :
  Store.view h o = Some s -> Store.call_result m h o = Some (res (m s)).
Proof. intros Hv. unfold Store.call_result, Store.call. now rewrite Hv. Qed.

End Structure.

(** ** Exact arithmetic: slices and aggregates *)

Lemma sum_list_app (xs ys : list Qc) :
  sum_list (xs ++ ys) = (sum_list xs + sum_list ys)%Qc.
Proof.
  induction xs as [|x xs IH]; simpl.
  - now rewrite Qcplus_0_l.
  - rewrite IH. apply Qcplus_assoc.
Qed.

Lemma sum_squares_app (xs ys : list Qc) :
  sum_squares (xs ++ ys) = (sum_squares xs + sum_squares ys)%Qc.
Proof. unfold sum_squares. rewrite map_app. apply sum_list_app. Qed.

Lemma aggregate_app (xs ys : list Qc) :
  aggregate (xs ++ ys) = _merge (aggregate xs) (aggregate ys).
Proof.
  unfold aggregate, _merge. cbn [suma suma_cuadrados count num_add rational].
  rewrite sum_list_app, sum_squares_app, length_app. f_equal. lia.
Qed.

Lemma aggregate_single (x : Qc) : aggregate [x] = mkNode x (x * x)%Qc 1.
Proof.
  unfold aggregate, sum_squares. simpl. now rewrite !Qcplus_0_r.
Qed.

Lemma slice_empty {A : Type} (a : list A) (lo hi : Z) : hi < lo -> slice a lo hi = [].
Proof.
  intros H. unfold slice. replace (Z.to_nat (hi + 1 - lo)) with 0%nat by lia.
  apply take_0.
Qed.

Lemma slice_split {A : Type} (a : list A) (lo mid hi : Z) :
  0 <= lo -> lo <= mid + 1 -> mid <= hi ->
  slice a lo hi = slice a lo mid ++ slice a (mid + 1) hi.
Proof.
  intros H0 H1 H2. unfold slice.
  replace (Z.to_nat (hi + 1 - lo))
    with (Z.to_nat (mid + 1 - lo) + Z.to_nat (hi + 1 - (mid + 1)))%nat by lia.
  rewrite <- take_take_drop, drop_drop. do 3 f_equal. lia.
Qed.

Lemma slice_single {A : Type} (a : list A) (i : Z) (x : A) :
  0 <= i -> a !! Z.to_nat i = Some x -> slice a i i = [x].
Proof.
  intros H0 Hx. unfold slice. replace (Z.to_nat (i + 1 - i)) with 1%nat by lia.
  rewrite (drop_S _ _ _ Hx). simpl. now rewrite take_0.
Qed.

Lemma slice_length {A : Type} (a : list A) (lo hi : Z) :
  0 <= lo -> lo <= hi + 1 -> hi < Z.of_nat (length a) ->
  Z.of_nat (length (slice a lo hi)) = hi - lo + 1.
Proof.
  intros H0 H1 H2. unfold slice. rewrite length_take, length_drop. lia.
Qed.

Lemma slice_nonempty {A : Type} (a : list A) (lo hi : Z) :
  0 <= lo <= hi -> hi < Z.of_nat (length a) -> slice a lo hi <> [].
Proof.
  intros H1 H2 E. pose proof (slice_length a lo hi ltac:(lia) ltac:(lia) H2) as HL.
  rewrite E in HL. simpl in HL. lia.
Qed.

Lemma slice_lookup {A : Type} (a : list A) (lo hi : Z) (k : nat) :
  (k < Z.to_nat (hi + 1 - lo))%nat ->
  slice a lo hi !! k = a !! (Z.to_nat lo + k)%nat.
Proof.
  intros H. unfold slice. rewrite lookup_take_lt by assumption. apply lookup_drop.
Qed.

Lemma slice_insert_outside {A : Type} (a : list A) (i lo hi : Z) (v : A) :
  0 <= i -> 0 <= lo -> i < lo \/ hi < i ->
  slice (<[Z.to_nat i := v]> a) lo hi = slice a lo hi.
Proof.
  intros Hi Hlo Hout. apply list_eq. intros k.
  destruct (decide (k < Z.to_nat (hi + 1 - lo))%nat) as [Hk|Hk].
  - rewrite !slice_lookup by assumption. apply list_lookup_insert_ne. lia.
  - unfold slice. rewrite !lookup_take_ge by lia. reflexivity.
Qed.

(** The part of a query that falls into a node's range is the part that
    falls into its left half followed by the part in its right half. *)
Lemma slice_clip_split {A : Type} (a : list A) (l r ql qr : Z) :
  0 <= l -> l < r ->
  slice a (Z.max l ql) (Z.min r qr)
  = slice a (Z.max l ql) (Z.min ((l + r) / 2) qr)
    ++ slice a (Z.max ((l + r) / 2 + 1) ql) (Z.min r qr).
Proof.
  intros H0 Hlt.
  assert (Hm : l <= (l + r) / 2 < r) by zlia.
  set (mid := (l + r) / 2) in *.
  destruct (Z_lt_le_dec (Z.min r qr) (Z.max l ql)) as [He|Hne].
  { rewrite !slice_empty by lia. reflexivity. }
  destruct (Z_le_gt_dec (Z.min r qr) mid) as [Hleft|Hright].
  { rewrite (slice_empty a (Z.max (mid + 1) ql)) by lia.
    rewrite app_nil_r. f_equal. lia. }
  destruct (Z_lt_le_dec mid (Z.max l ql)) as [Hr|Hl].
  { rewrite (slice_empty a (Z.max l ql) (Z.min mid qr)) by lia.
    simpl. f_equal. lia. }
  rewrite (slice_split a (Z.max l ql) mid (Z.min r qr)) by lia.
  f_equal; f_equal; lia.
Qed.

(** In exact arithmetic the node of a range is its aggregate ... *)
Lemma node_of_fuel_exact (fuel : nat) : forall (a : list Qc) l r,
  r - l < Z.of_nat fuel -> 0 <= l <= r -> r < Z.of_nat (length a) ->
  node_of_fuel fuel a l r = aggregate (slice a l r).
Proof.
  induction fuel as [|fuel IH]; intros a l r Hf Hlr Hr; [lia|].
  simpl. destruct (Z.eqb_spec l r) as [->|Hne].
  - destruct (lookup_lt_is_Some_2 a (Z.to_nat r)) as [x Hx]; [lia|].
    rewrite Hx, (slice_single a r x) by (lia || exact Hx).
    now rewrite aggregate_single.
  - assert (Hm : l <= (l + r) / 2 < r) by zlia.
    rewrite !IH by lia.
    rewrite <- aggregate_app. now rewrite <- slice_split by lia.
Qed.

Lemma node_of_exact (a : list Qc) (l r : Z) :
  0 <= l <= r -> r < Z.of_nat (length a) -> node_of a l r = aggregate (slice a l r).
Proof. intros. apply node_of_fuel_exact; [apply stack_depth_enough | lia | lia]. Qed.

(** ... and a query collects the aggregate of the part of the range that
    it asks for. *)
Lemma answer_fuel_exact (fuel : nat) : forall (a : list Qc) l r ql qr,
  r - l < Z.of_nat fuel -> 0 <= l <= r -> r < Z.of_nat (length a) ->
  answer_fuel fuel a l r ql qr = aggregate (slice a (Z.max l ql) (Z.min r qr)).
Proof.
  induction fuel as [|fuel IH]; intros a l r ql qr Hf Hlr Hr; [lia|].
  simpl.
  destruct ((qr <? l) || (r <? ql)) eqn:Hno.
  { apply orb_true_iff in Hno. rewrite !Z.ltb_lt in Hno.
    now rewrite slice_empty by lia. }
  apply orb_false_iff in Hno as [Hn1 Hn2].
  apply Z.ltb_ge in Hn1, Hn2.
  destruct ((ql <=? l) && (r <=? qr)) eqn:Htot.
  { apply andb_true_iff in Htot as [Ht1 Ht2]. apply Z.leb_le in Ht1, Ht2.
    replace (Z.max l ql) with l by lia. replace (Z.min r qr) with r by lia.
    now apply node_of_exact. }
  assert (Hlt : l < r).
  { apply andb_false_iff in Htot as [Hf'|Hf']; apply Z.leb_gt in Hf'; lia. }
  assert (Hm : l <= (l + r) / 2 < r) by zlia.
  rewrite (slice_clip_split a l r ql qr) by lia.
  rewrite aggregate_app. f_equal; apply IH; lia.
Qed.

Lemma answer_exact (a : list Qc) (lo hi : Z) :
  0 <= lo <= hi -> hi < Z.of_nat (length a) ->
  answer a 0 (Z.of_nat (length a) - 1) lo hi = aggregate (slice a lo hi).
Proof.
  intros H1 H2. unfold answer.
  rewrite answer_fuel_exact by (apply stack_depth_enough || lia).
  do 2 f_equal; lia.
Qed.

(** ** Exact arithmetic: statistics of a node *)

Lemma Qc_square_nonneg (x : Qc) : (0 <= x * x)%Qc.
Proof.
  destruct (Qclt_le_dec x 0) as [Hneg|Hpos].
  - replace (x * x)%Qc with ((- x) * (- x))%Qc by ring.
    assert (H : (0 <= - x)%Qc).
    { replace 0%Qc with (- 0)%Qc by ring.
      apply Qcopp_le_compat. now apply Qclt_le_weak. }
    rewrite <- (Qcmult_0_l (- x)). now apply Qcmult_le_compat_r.
  - rewrite <- (Qcmult_0_l x). now apply Qcmult_le_compat_r.
Qed.

Lemma Qc_div_nonneg (x y : Qc) : (0 <= x)%Qc -> (0 < y)%Qc -> (0 <= x / y)%Qc.
Proof.
  intros Hx Hy. apply (Qcmult_lt_0_le_reg_r _ _ y Hy).
  rewrite Qcmult_0_l.
  replace (x / y * y)%Qc with x; [assumption|].
  field. now apply not_eq_sym, Qclt_not_eq.
Qed.

Lemma sum_list_deviations_nonneg (mu : Qc) (xs : list Qc) :
  (0 <= sum_list (map (fun x : Qc => (x - mu) * (x - mu))%Qc xs))%Qc.
Proof.
  induction xs as [|x xs IH]; simpl.
  - apply Qcle_refl.
  - replace 0%Qc with (0 + 0)%Qc by ring.
    apply Qcplus_le_compat; [apply Qc_square_nonneg | exact IH].
Qed.

Lemma sum_list_deviations (mu : Qc) (xs : list Qc) :
  sum_list (map (fun x : Qc => (x - mu) * (x - mu))%Qc xs)
  = (sum_squares xs - (1 + 1) * mu * sum_list xs
     + Qc_of_Z (Z.of_nat (length xs)) * mu * mu)%Qc.
Proof.
  induction xs as [|x xs IH].
  - unfold sum_squares, sum_list. cbn [map foldr length].
    change (Z.of_nat 0) with 0. rewrite Z2Qc_inj_0. ring.
  - cbn [map sum_list foldr length].
    fold (sum_list (map (fun x : Qc => (x - mu) * (x - mu))%Qc xs)).
    rewrite IH. rewrite Nat2Z.inj_succ, <- Z.add_1_l, Z2Qc_inj_add, Z2Qc_inj_1.
    unfold sum_squares. cbn [map sum_list foldr].
    fold (sum_list (map (fun x : Qc => x * x)%Qc xs)). fold (sum_list xs). ring.
Qed.

Lemma Qc_of_length_pos (xs : list Qc) :
  xs <> [] -> (0 < Qc_of_Z (Z.of_nat (length xs)))%Qc.
Proof.
  intros Hne. rewrite <- Z2Qc_inj_0. apply (proj1 (Z2Qc_inj_lt _ _)).
  destruct xs; [congruence | cbn [length]; lia].
Qed.

Lemma direct_variance_nonneg (xs : list Qc) : xs <> [] -> (0 <= direct_variance xs)%Qc.
Proof.
  intros Hne. unfold direct_variance.
  apply Qc_div_nonneg; [apply sum_list_deviations_nonneg | now apply Qc_of_length_pos].
Qed.

(** The compact formula [E[X^2] - E[X]^2] is the population variance. *)
Lemma compact_variance (xs : list Qc) :
  xs <> [] ->
  let cnt := Qc_of_Z (Z.of_nat (length xs)) in
  (sum_squares xs / cnt - (sum_list xs / cnt) * (sum_list xs / cnt))%Qc
  = direct_variance xs.
Proof.
  intros Hne cnt. unfold direct_variance, direct_mean. fold cnt.
  rewrite sum_list_deviations. fold cnt.
  assert (cnt <> 0%Qc) by (apply not_eq_sym, Qclt_not_eq, Qc_of_length_pos, Hne).
  field. assumption.
Qed.

Lemma py_max0_nonneg (x : Qc) : (0 <= py_max0 x)%Qc.
Proof.
  unfold py_max0. cbn [num_pos num_zero rational]. case_bool_decide as H.
  - now apply Qclt_le_weak.
  - apply Qcle_refl.
Qed.

Lemma py_max0_id (x : Qc) : (0 <= x)%Qc -> py_max0 x = x.
Proof.
  intros Hx. unfold py_max0. cbn [num_pos num_zero rational].
  case_bool_decide as H; [reflexivity|].
  apply Qcle_antisym; [assumption | now apply Qcnot_lt_le].
Qed.

Lemma py_max0_ge (x : Qc) : (x <= py_max0 x)%Qc.
Proof.
  unfold py_max0. cbn [num_pos num_zero rational].
  case_bool_decide as H; [apply Qcle_refl | now apply Qcnot_lt_le].
Qed.

Lemma count_aggregate_nonzero (xs : list Qc) :
  xs <> [] -> (count (aggregate xs) =? 0) = false.
Proof.
  intros Hne. apply Z.eqb_neq.
  destruct xs; [congruence | cbn [aggregate count length]; lia].
Qed.

Lemma get_mean_aggregate (xs : list Qc) :
  xs <> [] -> get_mean (aggregate xs) = direct_mean xs.
Proof.
  intros Hne. unfold get_mean. now rewrite count_aggregate_nonzero.
Qed.

Lemma get_variance_aggregate (xs : list Qc) :
  xs <> [] -> get_variance (aggregate xs) = direct_variance xs.
Proof.
  intros Hne. unfold get_variance. rewrite count_aggregate_nonzero by assumption.
  cbn [suma suma_cuadrados count aggregate num_div_int num_sub num_mul rational].
  rewrite (compact_variance xs Hne).
  apply py_max0_id. now apply direct_variance_nonneg.
Qed.

Lemma sum_list_constant (c : Qc) (xs : list Qc) :
  Forall (fun x => x = c) xs ->
  sum_list xs = (Qc_of_Z (Z.of_nat (length xs)) * c)%Qc.
Proof.
  induction 1 as [|x xs -> _ IH].
  - cbn [length sum_list foldr]. change (Z.of_nat 0) with 0.
    rewrite Z2Qc_inj_0. ring.
  - cbn [length sum_list foldr]. fold (sum_list xs). rewrite IH.
    rewrite Nat2Z.inj_succ, <- Z.add_1_l, Z2Qc_inj_add, Z2Qc_inj_1. ring.
Qed.

Lemma sum_list_zero (xs : list Qc) :
  Forall (fun x => x = 0%Qc) xs -> sum_list xs = 0%Qc.
Proof.
  induction 1 as [|x xs -> _ IH]; [reflexivity|].
  cbn [sum_list foldr]. fold (sum_list xs). rewrite IH. ring.
Qed.

Lemma direct_variance_constant (c : Qc) (xs : list Qc) :
  xs <> [] -> Forall (fun x => x = c) xs -> direct_variance xs = 0%Qc.
Proof.
  intros Hne Hall. unfold direct_variance.
  assert (Hcnt : Qc_of_Z (Z.of_nat (length xs)) <> 0%Qc)
    by (apply not_eq_sym, Qclt_not_eq, Qc_of_length_pos, Hne).
  assert (Hmu : direct_mean xs = c).
  { unfold direct_mean. rewrite (sum_list_constant c xs Hall). now field. }
  rewrite Hmu, sum_list_zero.
  - now field.
  - apply Forall_map. eapply Forall_impl; [exact Hall|].
    intros x ->. simpl. ring.
Qed.

(** In exact arithmetic the three queries return the statistics of the
    queried slice of the backing sequence. *)
Lemma query_exact (s : SegmentTreeVariance Qc) (lo hi : Z) :
  consistent s -> 0 <= lo <= hi -> hi < n s ->
  runs (query_sum lo hi) s (sum_list (slice (arr s) lo hi)) s /\
  runs (query_mean lo hi) s (direct_mean (slice (arr s) lo hi)) s /\
  runs (query_variance lo hi) s (direct_variance (slice (arr s) lo hi)) s.
Proof.
  intros Hc H1 H2. pose proof Hc as (Hn & _).
  assert (Hne : slice (arr s) lo hi <> []) by (apply slice_nonempty; lia).
  assert (Ha : answer (arr s) 0 (n s - 1) lo hi = aggregate (slice (arr s) lo hi)).
  { rewrite Hn. apply answer_exact; lia. }
  split; [|split].
  - pose proof (query_valid suma s lo hi Hc H1 H2) as H. now rewrite Ha in H.
  - pose proof (query_valid get_mean s lo hi Hc H1 H2) as H.
    now rewrite Ha, get_mean_aggregate in H.
  - pose proof (query_valid get_variance s lo hi Hc H1 H2) as H.
    now rewrite Ha, get_variance_aggregate in H.
Qed.

(** ** The scenarios of the specification *)

(** Scenario A: on [4, 8, 6, 2, 10, 12, 14, 16] the mean and the variance
    of the range [0..3] are both 5. *)
Example scenario_A :
  let s := final (__init__ (map Qc_of_Z [4; 8; 6; 2; 10; 12; 14; 16])) in
  res (query_mean 0 3 s) = Ok (Qc_of_Z 5) /\
  res (query_variance 0 3 s) = Ok (Qc_of_Z 5).
Proof.
  intros s. split; vm_compute; f_equal; apply Qc_is_canon; reflexivity.
Qed.

(** Scenario B: on the single-element tree [42] the variance is 0 and the
    mean 42. *)
Example scenario_B :
  let s := final (__init__ (map Qc_of_Z [42])) in
  res (query_variance 0 0 s) = Ok (Qc_of_Z 0) /\
  res (query_mean 0 0 s) = Ok (Qc_of_Z 42).
Proof.
  intros s. split; vm_compute; f_equal; apply Qc_is_canon; reflexivity.
Qed.

(** Scenario C: on [10, 20, 30, 40, 50], [update(0, 30)] and
    [update(4, 30)] give [30, 20, 30, 40, 30] and bring the variance of the
    whole range from 200 down to 40. *)
Example scenario_C :
  let s := final (__init__ (map Qc_of_Z [10; 20; 30; 40; 50])) in
  let s' := run_updates s [(0, Qc_of_Z 30); (4, Qc_of_Z 30)] in
  res (get_array s') = Ok (map Qc_of_Z [30; 20; 30; 40; 30]) /\
  res (query_variance 0 4 s) = Ok (Qc_of_Z 200) /\
  res (query_variance 0 4 s') = Ok (Qc_of_Z 40).
Proof.
  intros s s'. split; [|split].
  - vm_compute. reflexivity.
  - vm_compute. f_equal. apply Qc_is_canon. reflexivity.
  - vm_compute. f_equal. apply Qc_is_canon. reflexivity.
Qed.

(** The example of the non-negativity property, in binary64: the variance
    of [5.0, 5.0, 5.0, 5.0] is [0.0]. *)
Example scenario_equal_fives :
  let s := final (__init__ [0x1.4p+2; 0x1.4p+2; 0x1.4p+2; 0x1.4p+2]%float) in
  res (query_variance 0 3 s) = Ok PrimFloat.zero.
Proof. vm_compute. reflexivity. Qed.

(** * The claims of the specification *)

(** C1. For every sequence and every valid range [0 <= lo <= hi < n], on the
    tree built from the sequence (and after any point updates, for the
    sequence so updated), [query_sum lo hi] returns the direct sum of
    [sequence[lo..hi]], [query_mean lo hi] returns that sum divided by
    [hi - lo + 1], and [query_variance lo hi] returns the population
    variance of [sequence[lo..hi]] computed from its definition, on which
    the clamp at zero has no effect.  Arithmetic is exact. *)
Theorem queries_match_direct_computation
    (a : list Qc) (us : list (Z * Qc)) (lo hi : Z) :
  let s := run_updates (final (__init__ a)) us in
  let xs := slice (apply_updates a us) lo hi in
  0 <= lo <= hi -> hi < Z.of_nat (length a) ->
  runs (query_sum lo hi) s (sum_list xs) s /\
  runs (query_mean lo hi) s (sum_list xs / Qc_of_Z (hi - lo + 1))%Qc s /\
  runs (query_variance lo hi) s (direct_variance xs) s /\
  direct_variance xs = py_max0 (direct_variance xs).
Proof.
  intros s xs H1 H2.
  destruct (init_consistent a) as (_ & Hc0 & Harr0).
  destruct (run_updates_spec us _ Hc0) as (Hc & Hn & Harr).
  fold s in Hc, Hn, Harr. rewrite Harr0 in Harr.
  assert (Hns : n s = Z.of_nat (length a)).
  { rewrite Hn. destruct Hc0 as (-> & _). now rewrite Harr0. }
  assert (Hxs : xs = slice (arr s) lo hi) by (unfold xs; now rewrite Harr).
  assert (Hlen : Z.of_nat (length xs) = hi - lo + 1).
  { unfold xs. apply slice_length; [lia | lia |]. rewrite apply_updates_length. lia. }
  assert (Hne : xs <> []) by (intros E; rewrite E in Hlen; simpl in Hlen; lia).
  destruct (query_exact s lo hi Hc H1 ltac:(lia)) as (Hsum & Hmean & Hvar).
  rewrite <- Hxs in Hsum, Hmean, Hvar.
  split; [exact Hsum|]. split.
  { rewrite <- Hlen. exact Hmean. }
  split; [exact Hvar|].
  symmetry. apply py_max0_id. now apply direct_variance_nonneg.
Qed.

Lemma queries_match_direct_computation_witness :
  let a := map Qc_of_Z [4; 8; 6; 2; 10; 12; 14; 16] in
  runs (query_sum 0 3) (final (__init__ a)) (sum_list (slice a 0 3)) (final (__init__ a)).
Proof.
  intros a.
  apply (queries_match_direct_computation a [] 0 3); simpl; lia.
Defined.

(** C2. Whatever the numbers, after a successful [update i v] on a tree
    over [n] elements with [0 <= i < n]: the backing sequence is the old one
    with [v] at [i], so [get_array()[i] == v]; the tree is the one that
    construction from the updated sequence gives, so that every query over
    a valid range (in particular one that contains [i]) returns, and returns
    the statistic of what the tree collects of the updated sequence for the
    range; and every query over a valid range that excludes [i] returns what
    it returned before the update.  In exact arithmetic the statistics of
    the updated sequence are the sum, the mean and the population variance
    of its slice. *)
Theorem update_consistency {T : Type} {num : Number T}
    (s : SegmentTreeVariance T) (i : Z) (v : T) :
  reachable s -> 0 <= i < n s ->
  (exists s',
     runs (update i v) s tt s' /\
     arr s' = <[Z.to_nat i := v]> (arr s) /\
     (exists l, res (get_array s') = Ok l /\ py_getitem l i = Ok v) /\
     s' = final (__init__ (arr s')) /\
     (forall lo hi, 0 <= lo <= hi -> hi < n s ->
        let collected := answer (arr s') 0 (n s - 1) lo hi in
        runs (query_sum lo hi) s' (suma collected) s' /\
        runs (query_mean lo hi) s' (get_mean collected) s' /\
        runs (query_variance lo hi) s' (get_variance collected) s') /\
     (forall lo hi, 0 <= lo <= hi -> hi < n s -> i < lo \/ hi < i ->
        res (query_sum lo hi s') = res (query_sum lo hi s) /\
        res (query_mean lo hi s') = res (query_mean lo hi s) /\
        res (query_variance lo hi s') = res (query_variance lo hi s))) /\
  (forall (q : SegmentTreeVariance Qc) (j : Z) (w : Qc),
     reachable q -> 0 <= j < n q ->
     exists q',
       runs (update j w) q tt q' /\
       arr q' = <[Z.to_nat j := w]> (arr q) /\
       forall lo hi, 0 <= lo <= hi -> hi < n q ->
         runs (query_sum lo hi) q' (sum_list (slice (arr q') lo hi)) q' /\
         runs (query_mean lo hi) q' (direct_mean (slice (arr q') lo hi)) q' /\
         runs (query_variance lo hi) q' (direct_variance (slice (arr q') lo hi)) q').
Proof.
  intros Hs Hi. split.
  - apply reachable_consistent in Hs.
    destruct (update_valid s i v Hs Hi) as (s' & Hrun & Hc' & Harr & Hn).
    pose proof Hs as (Hlen & _).
    exists s'. split; [exact Hrun|]. split; [exact Harr|].
    split; [|split; [|split]].
    + exists (arr s'). split; [reflexivity|].
      apply py_getitem_lookup; [lia|]. rewrite Harr. apply list_lookup_insert_eq. lia.
    + destruct (init_consistent (arr s')) as (_ & Hc0 & Harr0).
      apply consistent_unique; [exact Hc' | exact Hc0 | now rewrite Harr0].
    + intros lo hi H1 H2 collected. unfold collected. rewrite <- Hn.
      rewrite <- Hn in H2. split; [|split].
      * now apply (query_valid suma).
      * now apply (query_valid get_mean).
      * now apply (query_valid get_variance).
    + intros lo hi H1 H2 Hout.
      assert (E : answer (arr s') 0 (n s' - 1) lo hi = answer (arr s) 0 (n s - 1) lo hi).
      { rewrite Harr, Hn. apply answer_insert_outside; lia. }
      pose proof H2 as H2'. rewrite <- Hn in H2'.
      unfold query_sum, query_mean, query_variance.
      destruct (query_valid suma s' lo hi Hc' H1 H2') as [-> _].
      destruct (query_valid get_mean s' lo hi Hc' H1 H2') as [-> _].
      destruct (query_valid get_variance s' lo hi Hc' H1 H2') as [-> _].
      destruct (query_valid suma s lo hi Hs H1 H2) as [-> _].
      destruct (query_valid get_mean s lo hi Hs H1 H2) as [-> _].
      destruct (query_valid get_variance s lo hi Hs H1 H2) as [-> _].
      now rewrite E.
  - intros q j w Hq Hj. apply reachable_consistent in Hq.
    destruct (update_valid q j w Hq Hj) as (q' & Hrun & Hc' & Harr & Hn).
    exists q'. split; [exact Hrun|]. split; [exact Harr|].
    intros lo hi H1 H2. rewrite <- Hn in H2. now apply query_exact.
Qed.

Lemma update_consistency_witness :
  let s := final (__init__ [0x1.4p+3; 0x1.4p+4; 0x1.ep+4; 0x1.4p+5; 0x1.9p+5]%float) in
  exists s',
    runs (update 0 0x1.ep+4%float) s tt s' /\
    arr s' = <[0%nat := 0x1.ep+4%float]> (arr s) /\
    s' = final (__init__ (arr s')).
Proof.
  intros s.
  assert (Hs : reachable s) by (apply reachable_init; vm_compute; reflexivity).
  assert (Hi : 0 <= 0 < n s) by (vm_compute; split; [discriminate | reflexivity]).
  destruct (update_consistency s 0 0x1.ep+4%float Hs Hi)
    as [(s' & Hrun & Harr & _ & Hinit & _) _].
  exists s'. split; [exact Hrun|]. split; [exact Harr | exact Hinit].
Defined.

(** C3. In every reachable state, whatever the numbers, the node at each
    position of the tree that stands for the range [[lo, hi]] has
    [count == hi - lo + 1]; in particular the root's count is [n] when
    [n >= 1]. *)
Theorem node_count_invariant {T : Type} {num : Number T} (s : SegmentTreeVariance T) :
  reachable s ->
  (forall j lo hi, position (n s) j lo hi ->
     exists nd, py_getitem (tree s) j = Ok nd /\ count nd = hi - lo + 1) /\
  (1 <= n s -> exists root, py_getitem (tree s) 0 = Ok root /\ count root = n s).
Proof.
  intros Hs. apply reachable_consistent in Hs.
  destruct Hs as (Hn & Hlen & Hok & _).
  assert (Hpos : forall j lo hi, position (n s) j lo hi ->
     exists nd, py_getitem (tree s) j = Ok nd /\ count nd = hi - lo + 1).
  { intros j lo hi Hc.
    pose proof (covers_range _ _ _ _ _ _ Hc) as Hr.
    pose proof (position_bound _ _ _ _ Hc) as Hj.
    exists (node_of (arr s) lo hi). split.
    - apply py_getitem_lookup; [lia | now apply Hok].
    - apply count_node_of; lia. }
  split; [exact Hpos|].
  intros Hn1. destruct (Hpos 0 0 (n s - 1)) as (root & Hroot & Hcount).
  - apply covers_here. lia.
  - exists root. split; [exact Hroot | lia].
Qed.

Lemma node_count_invariant_witness :
  let s := final (__init__ (map Qc_of_Z [4; 8; 6])) in
  exists root, py_getitem (tree s) 0 = Ok root /\ count root = n s.
Proof.
  intros s.
  assert (Hs : reachable s) by (apply reachable_init; vm_compute; reflexivity).
  apply (node_count_invariant s Hs). vm_compute. discriminate.
Defined.

(** C4. In every reachable state of a tree over [n] elements, whatever the
    numbers, each of [query_sum], [query_mean] and [query_variance] raises
    the invalid-range error ([ValueError]) if and only if [lo > hi] or
    [lo < 0] or [hi >= n] (so every query is rejected when [n == 0]); it
    raises nothing else, and whether it returns or raises, the state of the
    tree (backing sequence and all node slots) is unchanged. *)
Theorem query_range_errors {T : Type} {num : Number T}
    (s : SegmentTreeVariance T) (lo hi : Z) :
  reachable s ->
  ((res (query_sum lo hi s) = Raise ValueError <-> lo > hi \/ lo < 0 \/ hi >= n s) /\
   (res (query_mean lo hi s) = Raise ValueError <-> lo > hi \/ lo < 0 \/ hi >= n s) /\
   (res (query_variance lo hi s) = Raise ValueError
      <-> lo > hi \/ lo < 0 \/ hi >= n s)) /\
  (forall e, res (query_sum lo hi s) = Raise e \/ res (query_mean lo hi s) = Raise e \/
             res (query_variance lo hi s) = Raise e -> e = ValueError) /\
  (final (query_sum lo hi s) = s /\ final (query_mean lo hi s) = s /\
   final (query_variance lo hi s) = s) /\
  (n s = 0 -> res (query_sum lo hi s) = Raise ValueError /\
              res (query_mean lo hi s) = Raise ValueError /\
              res (query_variance lo hi s) = Raise ValueError).
Proof.
  intros Hs. apply reachable_consistent in Hs.
  assert (Hbad : lo > hi \/ lo < 0 \/ hi >= n s ->
                 res (query_sum lo hi s) = Raise ValueError /\
                 res (query_mean lo hi s) = Raise ValueError /\
                 res (query_variance lo hi s) = Raise ValueError).
  { intros H. split; [|split].
    - apply (query_invalid suma s lo hi H).
    - apply (query_invalid get_mean s lo hi H).
    - apply (query_invalid get_variance s lo hi H). }
  assert (Hgood : ~ (lo > hi \/ lo < 0 \/ hi >= n s) ->
                  (exists x, res (query_sum lo hi s) = Ok x) /\
                  (exists x, res (query_mean lo hi s) = Ok x) /\
                  (exists x, res (query_variance lo hi s) = Ok x)).
  { intros H. split; [|split]; eexists.
    - apply (query_valid suma s lo hi Hs); lia.
    - apply (query_valid get_mean s lo hi Hs); lia.
    - apply (query_valid get_variance s lo hi Hs); lia. }
  destruct (decide (lo > hi \/ lo < 0 \/ hi >= n s)) as [H|H].
  - destruct (Hbad H) as (E1 & E2 & E3).
    split; [|split; [|split]].
    + rewrite E1, E2, E3. tauto.
    + rewrite E1, E2, E3. intros e [E|[E|E]]; congruence.
    + split; [apply query_sum_final | split;
        [apply query_mean_final | apply query_variance_final]].
    + intros _. auto.
  - destruct (Hgood H) as ((x1 & E1) & (x2 & E2) & (x3 & E3)).
    split; [|split; [|split]].
    + rewrite E1, E2, E3. repeat split; intros; (congruence || tauto).
    + rewrite E1, E2, E3. intros e [E|[E|E]]; congruence.
    + split; [apply query_sum_final | split;
        [apply query_mean_final | apply query_variance_final]].
    + intros Hz. exfalso. apply H. lia.
Qed.

Lemma query_range_errors_witness :
  let s := final (__init__ (map Qc_of_Z [4; 8; 6])) in
  res (query_sum 3 2 s) = Raise ValueError <-> 3 > 2 \/ 3 < 0 \/ 2 >= n s.
Proof.
  intros s.
  assert (Hs : reachable s) by (apply reachable_init; vm_compute; reflexivity).
  apply (query_range_errors s 3 2 Hs).
Defined.

(** C5. In every reachable state of a tree over [n] elements, whatever the
    numbers, [update index new_value] raises the out-of-range error
    ([IndexError]) if and only if [index < 0] or [index >= n]; it raises
    nothing else, and when it raises nothing has been mutated: the backing
    sequence and every node slot are as before the call. *)
Theorem update_index_errors {T : Type} {num : Number T}
    (s : SegmentTreeVariance T) (index : Z) (new_value : T) :
  reachable s ->
  (res (update index new_value s) = Raise IndexError <-> index < 0 \/ index >= n s) /\
  (forall e, res (update index new_value s) = Raise e ->
     e = IndexError /\ final (update index new_value s) = s).
Proof.
  intros Hs. apply reachable_consistent in Hs.
  destruct (decide (index < 0 \/ index >= n s)) as [H|H].
  - destruct (update_invalid s index new_value H) as (E & Hfin & _).
    rewrite E. split; [tauto|]. intros e He. split; [congruence | exact Hfin].
  - destruct (update_valid s index new_value Hs ltac:(lia)) as (s' & [E _] & _).
    rewrite E. split; [|intros e He; discriminate].
    split; [discriminate | tauto].
Qed.

Lemma update_index_errors_witness :
  let s := final (__init__ (map Qc_of_Z [4; 8; 6])) in
  res (update 3 (Qc_of_Z 7) s) = Raise IndexError <-> 3 < 0 \/ 3 >= n s.
Proof.
  intros s.
  assert (Hs : reachable s) by (apply reachable_init; vm_compute; reflexivity).
  apply (update_index_errors s 3 (Qc_of_Z 7) Hs).
Defined.

(** C6. [_merge] is associative and commutative, and the empty aggregate
    [Node()] (sum 0, sum of squares 0, count 0) is its identity on both
    sides, all three fields being equal; arithmetic is exact. *)
Theorem merge_monoid (x y z : Node Qc) :
  _merge (_merge x y) z = _merge x (_merge y z) /\
  _merge x y = _merge y x /\
  _merge Node_default x = x /\
  _merge x Node_default = x.
Proof.
  destruct x as [s1 q1 c1], y as [s2 q2 c2], z as [s3 q3 c3].
  unfold _merge, Node_default.
  cbn [suma suma_cuadrados count num_add num_zero rational].
  repeat split; f_equal; (ring || lia).
Qed.

(** ** The variance of a single element *)

(** A query for the range of one index collects the leaf of the element,
    merged with empty nodes. *)
Lemma answer_fuel_disjoint {T : Type} {num : Number T} (fuel : nat)
    (a : list T) (l r ql qr : Z) :
  qr < l \/ r < ql -> answer_fuel fuel a l r ql qr = Node_default.
Proof.
  intros H. destruct fuel as [|fuel]; [reflexivity|]. simpl.
  replace ((qr <? l) || (r <? ql)) with true; [reflexivity|].
  symmetry. rewrite orb_true_iff, !Z.ltb_lt. lia.
Qed.

Lemma answer_fuel_single {T : Type} {num : Number T} (fuel : nat) :
  forall (a : list T) (l r i : Z) (x : T),
  r - l < Z.of_nat fuel -> l <= i <= r -> 0 <= l ->
  a !! Z.to_nat i = Some x ->
  single x (answer_fuel fuel a l r i i).
Proof.
  induction fuel as [|fuel IH]; intros a l r i x Hfuel Hi Hl Hx; [lia|].
  simpl.
  replace ((i <? l) || (r <? i)) with false
    by (symmetry; rewrite orb_false_iff, !Z.ltb_ge; lia).
  destruct ((i <=? l) && (r <=? i)) eqn:Htot.
  - apply andb_true_iff in Htot as [H1 H2]. apply Z.leb_le in H1, H2.
    assert (l = i) as -> by lia. assert (r = i) as -> by lia.
    rewrite (node_of_leaf a i x Hx). constructor.
  - assert (Hlt : l < r).
    { apply andb_false_iff in Htot as [Hf|Hf]; apply Z.leb_gt in Hf; lia. }
    assert (Hm : l <= (l + r) / 2 < r) by zlia.
    destruct (Z_le_gt_dec i ((l + r) / 2)) as [Hle|Hgt].
    + rewrite (answer_fuel_disjoint fuel a ((l + r) / 2 + 1) r i i) by lia.
      apply single_left, IH; [lia | lia | lia | exact Hx].
    + rewrite (answer_fuel_disjoint fuel a l ((l + r) / 2) i i) by lia.
      apply single_right, IH; [lia | lia | lia | exact Hx].
Qed.

(** Binary64: the facts about [+ 0.0], [/ 1.0] and [y - y] that decide the
    variance of a single element, from the specification of the primitive
    operations. *)
Lemma Prim2SF_zero : Prim2SF PrimFloat.zero = S754_zero false.
Proof. reflexivity. Qed.

Lemma Prim2SF_one : Prim2SF PrimFloat.one = S754_finite false 4503599627370496 (-52).
Proof. reflexivity. Qed.

Lemma fexp_eq (z : Z) : fexp prec emax z = Z.max (z - 53) (-1074).
Proof. reflexivity. Qed.

Lemma bounded_canonical m e :
  bounded prec emax m e = true ->
  fexp prec emax (Z.pos (digits2_pos m) + e) = e /\ e <= 971.
Proof.
  unfold bounded, canonical_mantissa. intros H.
  apply andb_prop in H as [H1 H2]. apply Z.eqb_eq in H1. apply Z.leb_le in H2.
  now split.
Qed.

Lemma div_eucl_exact (a b : Z) : 0 < b -> Z.div_eucl (a * b) b = (a, 0).
Proof.
  intros Hb. assert (Hnz : b <> 0) by lia.
  pose proof (Z.div_eucl_eq (a * b) b Hnz) as E.
  pose proof (Z.mod_pos_bound (a * b) b Hb) as Hr.
  unfold Z.modulo in Hr.
  destruct (Z.div_eucl (a * b) b) as [q r].
  assert (Hq : q = a).
  { destruct (Z_lt_le_dec q a) as [Hlt|Hge]; [nia|].
    destruct (Z_lt_le_dec a q) as [Hlt'|Hge']; [nia | lia]. }
  subst q. f_equal. lia.
Qed.

(** Shifting by the exponent of a canonical mantissa is no shift. *)
Lemma shr_fexp_canonical m e :
  fexp prec emax (Z.pos (digits2_pos m) + e) = e ->
  shr_fexp prec emax (Z.pos m) e loc_Exact
  = (Build_shr_record (Z.pos m) false false, e).
Proof.
  intros H. unfold shr_fexp. cbn [Zdigits2]. rewrite H, Z.sub_diag. reflexivity.
Qed.

Lemma round_canonical s m e :
  fexp prec emax (Z.pos (digits2_pos m) + e) = e -> e <= 971 ->
  binary_round_aux prec emax s (Z.pos m) e loc_Exact = S754_finite s m e.
Proof.
  intros H He. unfold binary_round_aux.
  rewrite (shr_fexp_canonical m e H). cbn [shr_m loc_of_shr_record round_nearest_even].
  rewrite (shr_fexp_canonical m e H). cbn [shr_m].
  replace (e <=? emax - prec) with true; [reflexivity|].
  symmetry. apply Z.leb_le. exact He.
Qed.

Lemma round_doubled s m e :
  fexp prec emax (Z.pos (digits2_pos m) + e) = e -> e <= 971 ->
  fexp prec emax (Z.pos (digits2_pos m) + e - 1) = e - 1 ->
  binary_round_aux prec emax s (Z.pos m~0) (e - 1) loc_Exact = S754_finite s m e.
Proof.
  intros H He H1. unfold binary_round_aux.
  assert (E : shr_fexp prec emax (Z.pos m~0) (e - 1) loc_Exact
              = (Build_shr_record (Z.pos m) false false, e - 1 + 1)).
  { unfold shr_fexp. cbn [Zdigits2 digits2_pos].
    replace (Z.pos (Pos.succ (digits2_pos m)) + (e - 1))
      with (Z.pos (digits2_pos m) + e) by lia.
    rewrite H. replace (e - (e - 1)) with 1 by lia. reflexivity. }
  rewrite E. cbn [shr_m loc_of_shr_record round_nearest_even].
  replace (e - 1 + 1) with e by lia.
  rewrite (shr_fexp_canonical m e H). cbn [shr_m].
  replace (e <=? emax - prec) with true; [reflexivity|].
  symmetry. apply Z.leb_le. exact He.
Qed.

Lemma SFdiv_core_one m e :
  fexp prec emax (Z.pos (digits2_pos m) + e) = e ->
  (SFdiv_core_binary prec emax (Z.pos m) e 4503599627370496 (-52)
     = (Z.pos m, e, loc_Exact)) \/
  (SFdiv_core_binary prec emax (Z.pos m) e 4503599627370496 (-52)
     = (Z.pos m~0, e - 1, loc_Exact) /\
   fexp prec emax (Z.pos (digits2_pos m) + e - 1) = e - 1).
Proof.
  intros H. unfold SFdiv_core_binary. cbn [Zdigits2].
  change (digits2_pos 4503599627370496) with 53%positive.
  set (D := Z.pos (digits2_pos m)) in *.
  rewrite fexp_eq in H.
  replace (D + e - (53 + -52)) with (D + e - 1) by lia.
  rewrite fexp_eq.
  destruct (Z_lt_le_dec (D + e - 1 - 53) (-1074)) as [Hs|Hn].
  - left.
    replace (Z.min (Z.max (D + e - 1 - 53) (-1074)) (e - -52)) with e by lia.
    replace (e - -52 - e) with 52 by lia.
    change (Z.shiftl (Z.pos m) 52) with (4503599627370496 * Z.pos m).
    rewrite (Z.mul_comm _ (Z.pos m)), div_eucl_exact by lia. reflexivity.
  - right. split; [|lia].
    replace (Z.min (Z.max (D + e - 1 - 53) (-1074)) (e - -52)) with (e - 1) by lia.
    replace (e - -52 - (e - 1)) with 53 by lia.
    change (Z.shiftl (Z.pos m) 53) with (4503599627370496 * Z.pos m~0).
    rewrite (Z.mul_comm _ (Z.pos m~0)), div_eucl_exact by lia. reflexivity.
Qed.

Lemma SFdiv_one (x : spec_float) :
  SpecFloat.valid_binary prec emax x = true ->
  SFdiv prec emax x (S754_finite false 4503599627370496 (-52)) = x.
Proof.
  intros Hv. destruct x as [s|s| |s m e]; try (destruct s; reflexivity); [reflexivity|].
  apply bounded_canonical in Hv as [Hc He]. unfold SFdiv.
  rewrite xorb_false_r.
  destruct (SFdiv_core_one m e Hc) as [-> | [-> H1]].
  - now apply round_canonical.
  - now apply round_doubled.
Qed.

Lemma div_one (y : float) : PrimFloat.div y PrimFloat.one = y.
Proof.
  apply Prim2SF_inj. rewrite div_spec, Prim2SF_one.
  apply SFdiv_one, Prim2SF_valid.
Qed.

Lemma SFadd_zero_r (x : spec_float) :
  SFadd prec emax x (S754_zero false)
  = match x with S754_zero _ => S754_zero false | _ => x end.
Proof. destruct x as [[|]|[|]| |s m e]; reflexivity. Qed.

Lemma SFadd_zero_l (x : spec_float) :
  SFadd prec emax (S754_zero false) x
  = match x with S754_zero _ => S754_zero false | _ => x end.
Proof. destruct x as [[|]|[|]| |s m e]; reflexivity. Qed.

Lemma add_zero_comm (y : float) : PrimFloat.add PrimFloat.zero y = PrimFloat.add y PrimFloat.zero.
Proof.
  apply Prim2SF_inj. rewrite !add_spec, Prim2SF_zero.
  unfold SF64add. now rewrite SFadd_zero_l, SFadd_zero_r.
Qed.

Lemma add_zero_idem (y : float) :
  PrimFloat.add (PrimFloat.add y PrimFloat.zero) PrimFloat.zero = PrimFloat.add y PrimFloat.zero.
Proof.
  apply Prim2SF_inj. rewrite !add_spec, Prim2SF_zero.
  unfold SF64add. rewrite !SFadd_zero_r. now destruct (Prim2SF y).
Qed.

Lemma mul_add_zero (x : float) :
  PrimFloat.mul (PrimFloat.add x PrimFloat.zero) (PrimFloat.add x PrimFloat.zero)
  = PrimFloat.mul x x.
Proof.
  apply Prim2SF_inj. rewrite !mul_spec, !add_spec, Prim2SF_zero.
  unfold SF64add, SF64mul. rewrite SFadd_zero_r.
  destruct (Prim2SF x) as [[|]|[|]| |s m e]; reflexivity.
Qed.

Lemma SFsub_self (x : spec_float) :
  SFltb (S754_zero false) (SFsub prec emax x x) = false.
Proof.
  destruct x as [[|]|[|]| |s m e]; try reflexivity.
  unfold SFsub.
  match goal with
  | |- context [binary_normalize _ _ ?z _ _] =>
      replace z with 0 by (symmetry; apply Z.sub_diag)
  end.
  reflexivity.
Qed.

Lemma sub_self_not_pos (y : float) :
  PrimFloat.ltb PrimFloat.zero (PrimFloat.sub y y) = false.
Proof. rewrite ltb_spec, sub_spec, Prim2SF_zero. apply SFsub_self. Qed.

Lemma sub_add_zero_not_pos (y : float) :
  PrimFloat.ltb PrimFloat.zero (PrimFloat.sub (PrimFloat.add y PrimFloat.zero) y) = false.
Proof.
  rewrite ltb_spec, sub_spec, add_spec, Prim2SF_zero.
  unfold SF64sub, SF64add. rewrite SFadd_zero_r.
  destruct (Prim2SF y) as [[|]|s| |s m e] eqn:E; try reflexivity;
    try apply (SFsub_self (S754_infinity s)); apply (SFsub_self (S754_finite s m e)).
Qed.

(** In binary64 the variance of what a query for one index collects is
    [0.0], whatever the element: [y - y] is [+0.0], or not a number when
    the square overflows or the element is not finite, and [max(0, x)]
    keeps its [0] unless [x] is greater. *)
Lemma single_binary64 (x : float) (nd : Node float) :
  single x nd ->
  count nd = 1 /\
  ((suma nd = x /\ suma_cuadrados nd = PrimFloat.mul x x) \/
   (suma nd = PrimFloat.add x PrimFloat.zero /\
    suma_cuadrados nd = PrimFloat.add (PrimFloat.mul x x) PrimFloat.zero)).
Proof.
  induction 1 as [|nd Hnd (Hc & IH)|nd Hnd (Hc & IH)];
    cbn [_merge Node_default count suma suma_cuadrados num_add num_zero num_mul binary64].
  - split; [reflexivity|]. now left.
  - split; [lia|]. right.
    destruct IH as [[-> ->]|[-> ->]]; [easy|]. now rewrite !add_zero_idem.
  - split; [lia|]. right. rewrite !add_zero_comm.
    destruct IH as [[-> ->]|[-> ->]]; [easy|]. now rewrite !add_zero_idem.
Qed.

Lemma single_variance_binary64 (x : float) (nd : Node float) :
  single x nd -> get_variance nd = PrimFloat.zero.
Proof.
  intros H. apply single_binary64 in H as (Hc & Hs).
  unfold get_variance, py_max0. rewrite Hc.
  cbn [Z.eqb num_div_int num_sub num_mul num_pos num_zero binary64 float_of_count
       Pos.iter_op].
  rewrite !div_one.
  destruct Hs as [[-> ->]|[-> ->]].
  - now rewrite sub_self_not_pos.
  - now rewrite mul_add_zero, sub_add_zero_not_pos.
Qed.

Lemma query_variance_single_binary64 (s : SegmentTreeVariance float) (i : Z) :
  consistent s -> 0 <= i < n s ->
  runs (query_variance i i) s PrimFloat.zero s.
Proof.
  intros Hs Hi. pose proof Hs as (Hn & _).
  destruct (lookup_lt_is_Some_2 (arr s) (Z.to_nat i)) as [x Hx]; [lia|].
  pose proof (query_valid get_variance s i i Hs ltac:(lia) ltac:(lia)) as Hq.
  rewrite (single_variance_binary64 x) in Hq; [exact Hq|].
  apply answer_fuel_single; [apply stack_depth_enough | lia | lia | exact Hx].
Qed.

Lemma get_variance_sign {T : Type} {num : Number T} (nd : Node T) :
  get_variance nd = num_zero \/ num_pos (get_variance nd) = true.
Proof.
  unfold get_variance, py_max0. destruct (count nd =? 0); [now left|].
  destruct (num_pos _) eqn:E; [now right | now left].
Qed.

Lemma get_variance_nonneg (nd : Node Qc) : (0 <= get_variance nd)%Qc.
Proof.
  unfold get_variance. destruct (count nd =? 0); [apply Qcle_refl | apply py_max0_nonneg].
Qed.

Lemma query_variance_result {T : Type} {num : Number T}
    (s : SegmentTreeVariance T) (lo hi : Z) (v : T) :
  res (query_variance lo hi s) = Ok v -> exists nd, v = get_variance nd.
Proof.
  intros Hres. unfold query_variance in Hres.
  apply res_bind_inv in Hres as (sz & _ & Hres).
  destruct ((lo <? 0) || (sz <=? hi) || (hi <? lo)); [discriminate|].
  apply res_bind_inv in Hres as (nd & _ & Hres).
  injection Hres as <-. now exists nd.
Qed.

(** C7, as the code has it in binary64: on the tree built from three equal
    floats (Python's [0.7], [0x1.6666666666666p-1]) the variance of the
    whole range is [0x1.8p-53], about [1.67e-16], and not [0.0]. *)
Lemma variance_of_equal_floats_not_zero :
  let x := 0x1.6666666666666p-1%float in
  let s := final (__init__ [x; x; x]) in
  reachable s /\ 0 <= 0 <= 2 /\ 2 < n s /\
  Forall (fun y => y = x) (slice (arr s) 0 2) /\
  res (query_variance 0 2 s) = Ok 0x1.8p-53%float /\
  0x1.8p-53%float <> PrimFloat.zero.
Proof.
  intros x s.
  split; [apply reachable_init; vm_compute; reflexivity|].
  split; [lia|]. split; [vm_compute; reflexivity|].
  split; [vm_compute; repeat constructor|].
  split; [vm_compute; reflexivity|].
  intros H. apply (f_equal (fun y => PrimFloat.eqb y PrimFloat.zero)) in H.
  vm_compute in H. discriminate.
Qed.

(** C7, amended.  Whatever the numbers and in any state, [query_variance]
    never returns a negative value: what it returns is [0] or greater than
    [0].  For every single-element range of a tree in a reachable state it
    returns exactly [0], in exact arithmetic and in binary64 alike (whatever
    the element: finite, infinite or not a number).  In exact arithmetic, in
    a reachable state and on a valid range, it returns exactly [0] when all
    elements of the range are equal; in binary64 a rounding residue can
    remain for equal elements of a longer range
    ([variance_of_equal_floats_not_zero]).  [Node.get_variance] is [0] when
    [count == 0] and otherwise the larger of [0] and
    [sum_sq / count - mean^2], whatever the numbers. *)
Theorem variance_nonnegative (s : SegmentTreeVariance Qc) (lo hi : Z) (nd : Node Qc) :
  reachable s -> 0 <= lo <= hi -> hi < n s ->
  (forall (T : Type) (num : Number T) (s0 : SegmentTreeVariance T) lo0 hi0 v0,
     res (query_variance lo0 hi0 s0) = Ok v0 -> v0 = num_zero \/ num_pos v0 = true) /\
  (forall (s0 : SegmentTreeVariance Qc) lo0 hi0 v0,
     res (query_variance lo0 hi0 s0) = Ok v0 -> (0 <= v0)%Qc) /\
  (exists v, runs (query_variance lo hi) s v s /\ (0 <= v)%Qc /\
     ((exists c, Forall (fun x => x = c) (slice (arr s) lo hi)) -> v = 0%Qc) /\
     (lo = hi -> v = 0%Qc)) /\
  (count nd = 0 -> get_variance nd = 0%Qc) /\
  (count nd <> 0 ->
     let m := (suma_cuadrados nd / Qc_of_Z (count nd) - get_mean nd * get_mean nd)%Qc in
     (0 <= get_variance nd)%Qc /\ (m <= get_variance nd)%Qc /\
     (get_variance nd = 0%Qc \/ get_variance nd = m)) /\
  (forall (sf : SegmentTreeVariance float) (i : Z),
     reachable sf -> 0 <= i < n sf ->
     runs (query_variance i i) sf PrimFloat.zero sf) /\
  (forall (T : Type) (num : Number T) (nd0 : Node T),
     (count nd0 = 0 -> get_variance nd0 = num_zero) /\
     (count nd0 <> 0 ->
      get_variance nd0
      = py_max0 (num_sub (num_div_int (suma_cuadrados nd0) (count nd0))
                         (num_mul (get_mean nd0) (get_mean nd0))))).
Proof.
  intros Hs H1 H2. apply reachable_consistent in Hs.
  pose proof Hs as (Hn & _).
  assert (Hne : slice (arr s) lo hi <> []) by (apply slice_nonempty; lia).
  split; [|split; [|split; [|split; [|split; [|split]]]]].
  - intros T num s0 lo0 hi0 v0 Hres.
    apply query_variance_result in Hres as (nd0 & ->). apply get_variance_sign.
  - intros s0 lo0 hi0 v0 Hres.
    apply query_variance_result in Hres as (nd0 & ->). apply get_variance_nonneg.
  - exists (direct_variance (slice (arr s) lo hi)).
    split; [now apply query_exact|].
    split; [now apply direct_variance_nonneg|].
    assert (Hconst : (exists c, Forall (fun x => x = c) (slice (arr s) lo hi)) ->
                     direct_variance (slice (arr s) lo hi) = 0%Qc).
    { intros (c & Hall). now apply (direct_variance_constant c). }
    split; [exact Hconst|].
    intros <-. apply Hconst.
    destruct (lookup_lt_is_Some_2 (arr s) (Z.to_nat lo)) as [x Hx]; [lia|].
    exists x. rewrite (slice_single (arr s) lo x) by (lia || exact Hx).
    now repeat constructor.
  - intros Hz. unfold get_variance. now rewrite Hz.
  - intros Hnz m.
    assert (E : get_variance nd = py_max0 m).
    { unfold get_variance, m, get_mean.
      now replace (count nd =? 0) with false by (symmetry; now apply Z.eqb_neq). }
    rewrite E. split; [apply py_max0_nonneg|].
    split; [apply py_max0_ge|].
    unfold py_max0. cbn [num_pos num_zero rational]. case_bool_decide; auto.
  - intros sf i Hsf Hi. apply reachable_consistent in Hsf.
    now apply query_variance_single_binary64.
  - intros T num nd0. unfold get_variance, get_mean. split.
    + now intros ->.
    + intros Hnz.
      now replace (count nd0 =? 0) with false by (symmetry; now apply Z.eqb_neq).
Qed.

Lemma variance_nonnegative_witness :
  let s := final (__init__ (map Qc_of_Z [5; 5; 5; 5])) in
  let sf := final (__init__ [0x1.6666666666666p-1; 0x1.6666666666666p-1;
                             0x1.6666666666666p-1]%float) in
  (exists v, runs (query_variance 0 3) s v s /\ (0 <= v)%Qc) /\
  runs (query_variance 1 1) sf PrimFloat.zero sf.
Proof.
  intros s sf.
  assert (Hs : reachable s) by (apply reachable_init; vm_compute; reflexivity).
  assert (H1 : 0 <= 0 <= 3) by lia.
  assert (H2 : 3 < n s) by (vm_compute; reflexivity).
  destruct (variance_nonnegative s 0 3 Node_default Hs H1 H2)
    as (_ & _ & (v & Hrun & Hv & _) & _ & _ & Hsingle & _).
  split; [exists v; split; [exact Hrun | exact Hv]|].
  apply Hsingle.
  - apply reachable_init. vm_compute. reflexivity.
  - vm_compute. split; [discriminate | reflexivity].
Defined.

(** C8. Whatever the numbers, construction over a sequence of [n] elements
    allocates [4 * n] node slots and returns, for every [n >= 0]; the tree
    keeps that many slots in every reachable state; and every index of
    [self.tree] accessed by the construction, by an update or by a query
    lies in [[0, 4 * n)], so that no access is out of bounds: an update with
    a valid index and a query with a valid range return. *)
Theorem tree_accesses_in_bounds {T : Type} {num : Number T}
    (a : list T) (s : SegmentTreeVariance T) (i lo hi : Z) (v : T) :
  reachable s ->
  (Z.of_nat (length (tree (fresh_object a))) = 4 * Z.of_nat (length a) /\
   res (__init__ a) = Ok tt /\
   Z.of_nat (length (tree (final (__init__ a)))) = 4 * Z.of_nat (length a) /\
   Forall (fun j => 0 <= j < 4 * Z.of_nat (length a)) (accessed (__init__ a))) /\
  (Z.of_nat (length (tree s)) = 4 * n s /\
   Forall (fun j => 0 <= j < 4 * n s) (accessed (update i v s)) /\
   Forall (fun j => 0 <= j < 4 * n s) (accessed (query_sum lo hi s)) /\
   Forall (fun j => 0 <= j < 4 * n s) (accessed (query_mean lo hi s)) /\
   Forall (fun j => 0 <= j < 4 * n s) (accessed (query_variance lo hi s))) /\
  (0 <= i < n s -> res (update i v s) = Ok tt) /\
  (0 <= lo <= hi -> hi < n s ->
   (exists x, res (query_sum lo hi s) = Ok x) /\
   (exists x, res (query_mean lo hi s) = Ok x) /\
   (exists x, res (query_variance lo hi s) = Ok x)).
Proof.
  intros Hs. apply reachable_consistent in Hs.
  destruct (init_consistent a) as (Hres & (Hn0 & Hlen0 & _) & Harr0).
  split; [|split; [|split]].
  - split.
    { unfold fresh_object. cbn [tree]. rewrite length_replicate. lia. }
    split; [exact Hres|]. split; [|apply init_accessed].
    rewrite Hlen0, Hn0, Harr0. reflexivity.
  - destruct Hs as (_ & Hlen & _).
    split; [exact Hlen|]. split; [apply update_accessed|].
    split; [apply (query_accessed suma)|].
    split; [apply (query_accessed get_mean) | apply (query_accessed get_variance)].
  - intros Hi. destruct (update_valid s i v Hs Hi) as (s' & [E _] & _). exact E.
  - intros H1 H2. split; [|split]; eexists.
    + now apply (query_valid suma s lo hi Hs).
    + now apply (query_valid get_mean s lo hi Hs).
    + now apply (query_valid get_variance s lo hi Hs).
Qed.

Lemma tree_accesses_in_bounds_witness :
  let a := map Qc_of_Z [4; 8; 6] in
  let s := final (__init__ a) in
  Forall (fun j => 0 <= j < 4 * n s) (accessed (update 1 (Qc_of_Z 9) s)).
Proof.
  intros a s.
  assert (Hs : reachable s) by (apply reachable_init; vm_compute; reflexivity).
  apply (tree_accesses_in_bounds a s 1 0 2 (Qc_of_Z 9) Hs).
Defined.

(** C9. Whatever the numbers, [get_array] returns a copy of the backing
    sequence, which reflects all updates applied so far; the copy is a list
    of its own, so mutating it changes neither the state of the tree nor any
    result of its methods; and the tree holds a copy of the list it was
    constructed from, so mutating that list after the construction changes
    neither the backing sequence nor any result.  Conversely an update of
    the tree changes no other list. *)
Theorem get_array_defensive_copy {T : Type} {num : Number T}
    (h : gmap positive (list T)) (a : positive) (xs : list T)
    (us : list (Z * T)) (o : Store.object T) (s : SegmentTreeVariance T) :
  h !! a = Some xs -> Store.view h o = Some s ->
  res (get_array (run_updates (final (__init__ xs)) us)) = Ok (apply_updates xs us) /\
  (exists h1 o1,
     Store.construct h a = Some (Ok tt, h1, o1) /\
     Store.view h1 o1 = Some (final (__init__ xs)) /\
     arr (final (__init__ xs)) = xs /\
     h1 !! a = Some xs /\
     forall xs',
       Store.view (Store.mutate h1 a xs') o1 = Store.view h1 o1 /\
       forall (A : Type) (m : M (SegmentTreeVariance T) A),
         Store.call_result m (Store.mutate h1 a xs') o1 = Store.call_result m h1 o1) /\
  (exists h2 c,
     Store.get_array_ref h o = Some (h2, c) /\
     h2 !! c = Some (arr s) /\
     c <> Store.arr_ref o /\
     Store.view h2 o = Some s /\
     forall ys,
       Store.view (Store.mutate h2 c ys) o = Some s /\
       forall (A : Type) (m : M (SegmentTreeVariance T) A),
         Store.call_result m (Store.mutate h2 c ys) o = Some (res (m s))) /\
  (forall i v, exists h3 o3,
     Store.call (update i v) h o = Some (res (update i v s), h3, o3) /\
     Store.view h3 o3 = Some (final (update i v s)) /\
     forall l, l <> Store.arr_ref o -> h3 !! l = h !! l).
Proof.
  intros Ha Hview.
  destruct (init_consistent xs) as (Hres & Hc0 & Harr0).
  split; [|split; [|split]].
  - destruct (run_updates_spec us _ Hc0) as (_ & _ & Harr).
    cbn [get_array res]. now rewrite Harr, Harr0.
  - destruct (copy_spec h a xs Ha) as (r & Hcopy & Hfresh).
    assert (Hne : a <> r) by congruence.
    exists (<[r := arr (final (__init__ xs))]> (<[r := xs]> h)),
           (Store.mkObject r (n (final (__init__ xs))) (tree (final (__init__ xs)))).
    split.
    { unfold Store.construct. rewrite Hcopy, lookup_insert_eq. now rewrite Hres. }
    assert (Hv : Store.view
                   (<[r := arr (final (__init__ xs))]> (<[r := xs]> h))
                   (Store.mkObject r (n (final (__init__ xs))) (tree (final (__init__ xs))))
                 = Some (final (__init__ xs))).
    { unfold Store.view. cbn [Store.arr_ref Store.obj_n Store.obj_tree].
      rewrite lookup_insert_eq. now rewrite record_eta. }
    split; [exact Hv|]. split; [exact Harr0|].
    split; [now rewrite !lookup_insert_ne by congruence|].
    intros xs'.
    assert (Hv' : Store.view
                    (Store.mutate (<[r := arr (final (__init__ xs))]> (<[r := xs]> h)) a xs')
                    (Store.mkObject r (n (final (__init__ xs))) (tree (final (__init__ xs))))
                  = Some (final (__init__ xs))).
    { rewrite view_mutate_other; [exact Hv | exact Hne]. }
    split; [now rewrite Hv', Hv|].
    intros A m. now rewrite (call_result_view m _ _ _ Hv'), (call_result_view m _ _ _ Hv).
  - assert (Harr : h !! Store.arr_ref o = Some (arr s)).
    { unfold Store.view in Hview. destruct (h !! Store.arr_ref o); [|discriminate].
      now injection Hview as <-. }
    destruct (copy_spec h (Store.arr_ref o) (arr s) Harr) as (c & Hcopy & Hfresh).
    assert (Hne : c <> Store.arr_ref o) by congruence.
    assert (Hv : Store.view (<[c := arr s]> h) o = Some s).
    { rewrite <- Hview. now apply (view_mutate_other h o c (arr s)). }
    exists (<[c := arr s]> h), c.
    split; [exact Hcopy|]. split; [apply lookup_insert_eq|].
    split; [exact Hne|]. split; [exact Hv|].
    intros ys.
    assert (Hv' : Store.view (Store.mutate (<[c := arr s]> h) c ys) o = Some s).
    { rewrite view_mutate_other; [exact Hv | exact Hne]. }
    split; [exact Hv'|]. intros A m. now apply call_result_view.
  - intros i v.
    eexists _, _. split; [unfold Store.call; rewrite Hview; reflexivity|].
    split.
    + unfold Store.view. cbn [Store.arr_ref Store.obj_n Store.obj_tree].
      rewrite lookup_insert_eq. now rewrite record_eta.
    + intros l Hl. now rewrite lookup_insert_ne by congruence.
Qed.

Lemma get_array_defensive_copy_witness :
  let xs := map Qc_of_Z [10; 20; 30] in
  let h : gmap positive (list Qc) := {[ 1%positive := xs ]} in
  exists h1 o1,
    Store.construct h 1%positive = Some (Ok tt, h1, o1) /\
    forall ys, Store.view (Store.mutate h1 1%positive ys) o1 = Store.view h1 o1.
Proof.
  intros xs h.
  assert (Ha : h !! 1%positive = Some xs) by apply lookup_singleton_eq.
  set (s0 := final (__init__ xs)).
  set (o := Store.mkObject 1%positive (n s0) (tree s0)).
  assert (Hview : Store.view h o = Some (mkTree xs (n s0) (tree s0))).
  { unfold Store.view, o. cbn [Store.arr_ref Store.obj_n Store.obj_tree].
    fold h. now rewrite Ha. }
  destruct (get_array_defensive_copy h 1%positive xs [] o _ Ha Hview)
    as (_ & (h1 & o1 & Hcons & _ & _ & _ & Hmut) & _).
  exists h1, o1. split; [exact Hcons|]. intros ys. apply Hmut.
Defined.

(** C10. Whatever the numbers, in a reachable state of a tree over [n]
    elements, for two distinct valid indices [i] and [j], [update i v]
    followed by [update j w] and [update j w] followed by [update i v] both
    return and leave the tree in exactly the same state: the same backing
    sequence and the same node in every slot. *)
Theorem updates_commute {T : Type} {num : Number T}
    (s : SegmentTreeVariance T) (i j : Z) (v w : T) :
  reachable s -> 0 <= i < n s -> 0 <= j < n s -> i <> j ->
  exists s',
    runs (update i v ;;; update j w) s tt s' /\
    runs (update j w ;;; update i v) s tt s'.
Proof.
  intros Hs Hi Hj Hne. apply reachable_consistent in Hs.
  destruct (update_valid s i v Hs Hi) as (s1 & Hrun1 & Hc1 & Harr1 & Hn1).
  destruct (update_valid s1 j w Hc1 ltac:(lia)) as (s12 & Hrun12 & Hc12 & Harr12 & Hn12).
  destruct (update_valid s j w Hs Hj) as (s2 & Hrun2 & Hc2 & Harr2 & Hn2).
  destruct (update_valid s2 i v Hc2 ltac:(lia)) as (s21 & Hrun21 & Hc21 & Harr21 & Hn21).
  assert (E : s12 = s21).
  { apply consistent_unique; [assumption | assumption |].
    rewrite Harr12, Harr1, Harr21, Harr2. apply list_insert_insert_ne. lia. }
  exists s12. split.
  - eapply runs_bind; [exact Hrun1 | exact Hrun12].
  - rewrite E. eapply runs_bind; [exact Hrun2 | exact Hrun21].
Qed.

Lemma updates_commute_witness :
  let s := final (__init__ [0x1.4p+3; 0x1.4p+4; 0x1.ep+4; 0x1.4p+5; 0x1.9p+5]%float) in
  exists s',
    runs (update 0 0x1.ep+4%float ;;; update 4 0x1.ep+4%float) s tt s' /\
    runs (update 4 0x1.ep+4%float ;;; update 0 0x1.ep+4%float) s tt s'.
Proof.
  intros s.
  assert (Hs : reachable s) by (apply reachable_init; vm_compute; reflexivity).
  assert (H0 : 0 <= 0 < n s) by (vm_compute; split; [discriminate | reflexivity]).
  assert (H4 : 0 <= 4 < n s) by (vm_compute; split; [discriminate | reflexivity]).
  apply (updates_commute s 0 4 _ _ Hs H0 H4). lia.
Defined.

(** * Further properties of the code *)

(** ** The state of a tree and its history *)

Section History.

Context {T : Type} {num : Number T}.

Implicit Types (s : SegmentTreeVariance T) (a : list T).

Lemma init_of_consistent s : consistent s -> final (__init__ (arr s)) = s.
Proof.
  intros Hc. destruct (init_consistent (arr s)) as (_ & Hc0 & Harr).
  now apply consistent_unique.
Qed.

Lemma update_stored s (i : Z) (v : T) :
  consistent s -> 0 <= i -> arr s !! Z.to_nat i = Some v -> runs (update i v) s tt s.
Proof.
  intros Hc H0 Hv. pose proof Hc as (Hn & _).
  pose proof (lookup_lt_Some _ _ _ Hv) as Hlt.
  destruct (update_valid s i v Hc ltac:(lia)) as (s' & Hrun & Hc' & Harr & _).
  replace s with s' at 2; [exact Hrun|].
  apply consistent_unique; [assumption | assumption |].
  rewrite Harr. now apply list_insert_id.
Qed.

Lemma update_overwrite s (i : Z) (v w : T) :
  consistent s -> 0 <= i < n s ->
  exists s', runs (update i v ;;; update i w) s tt s' /\ runs (update i w) s tt s' /\
             consistent s' /\ arr s' = <[Z.to_nat i := w]> (arr s).
Proof.
  intros Hc Hi.
  destruct (update_valid s i v Hc Hi) as (s1 & Hrun1 & Hc1 & Harr1 & Hn1).
  destruct (update_valid s1 i w Hc1 ltac:(lia)) as (s2 & Hrun2 & Hc2 & Harr2 & Hn2).
  destruct (update_valid s i w Hc Hi) as (s3 & Hrun3 & Hc3 & Harr3 & Hn3).
  assert (E : s2 = s3).
  { apply consistent_unique; [assumption | assumption |].
    rewrite Harr2, Harr1, Harr3. apply list_insert_insert_eq. }
  exists s3. split; [|split; [exact Hrun3 | split; assumption]].
  rewrite <- E. eapply runs_bind; [exact Hrun1 | exact Hrun2].
Qed.

End History.

(** X1. Whatever the numbers, the state of a tree depends on its backing
    sequence only and not on the calls that led to it: in every reachable
    state the node slots are exactly those that the constructor builds from
    the current backing sequence. *)
Theorem state_determined_by_sequence {T : Type} {num : Number T}
    (s : SegmentTreeVariance T) :
  reachable s ->
  res (__init__ (arr s)) = Ok tt /\ final (__init__ (arr s)) = s.
Proof.
  intros Hs. apply reachable_consistent in Hs.
  split; [apply init_consistent | now apply init_of_consistent].
Qed.

Lemma state_determined_by_sequence_witness :
  let s := final (update 1 0x1.2p+3%float
                    (final (__init__ [0x1p+2; 0x1p+3; 0x1.8p+2]%float))) in
  res (__init__ (arr s)) = Ok tt /\ final (__init__ (arr s)) = s.
Proof.
  intros s. apply (state_determined_by_sequence s).
  apply reachable_update, reachable_init. vm_compute. reflexivity.
Defined.

(** X2. Whatever the numbers, in a reachable state [update i v] with the
    value [v] that the backing sequence already holds at [i] returns and
    changes nothing: backing sequence and node slots are as before. *)
Theorem update_with_stored_value {T : Type} {num : Number T}
    (s : SegmentTreeVariance T) (i : Z) (v : T) :
  reachable s -> 0 <= i -> arr s !! Z.to_nat i = Some v ->
  runs (update i v) s tt s.
Proof.
  intros Hs. apply reachable_consistent in Hs. now apply update_stored.
Qed.

Lemma update_with_stored_value_witness :
  let s := final (__init__ [0x1p+2; 0x1p+3; 0x1.8p+2]%float) in
  runs (update 1 0x1p+3%float) s tt s.
Proof.
  intros s. apply (update_with_stored_value s 1).
  - apply reachable_init. vm_compute. reflexivity.
  - lia.
  - reflexivity.
Defined.

(** X3. Whatever the numbers, of two updates of the same valid index the
    last one wins: [update i v] followed by [update i w] returns and leaves
    the tree in exactly the state that [update i w] alone leaves. *)
Theorem update_twice_last_wins {T : Type} {num : Number T}
    (s : SegmentTreeVariance T) (i : Z) (v w : T) :
  reachable s -> 0 <= i < n s ->
  exists s', runs (update i v ;;; update i w) s tt s' /\ runs (update i w) s tt s'.
Proof.
  intros Hs Hi. apply reachable_consistent in Hs.
  destruct (update_overwrite s i v w Hs Hi) as (s' & H1 & H2 & _).
  now exists s'.
Qed.

Lemma update_twice_last_wins_witness :
  let s := final (__init__ [0x1p+2; 0x1p+3; 0x1.8p+2]%float) in
  exists s', runs (update 2 0x1p+0%float ;;; update 2 0x1p+1%float) s tt s' /\
             runs (update 2 0x1p+1%float) s tt s'.
Proof.
  intros s. apply (update_twice_last_wins s 2).
  - apply reachable_init. vm_compute. reflexivity.
  - vm_compute. split; [discriminate | reflexivity].
Defined.

(** X4. Whatever the numbers, an update can be undone: in a reachable state
    [update i v] followed by [update i old], where [old] is the value the
    backing sequence held at [i], returns and restores the state exactly,
    backing sequence and every node slot. *)
Theorem update_then_restore {T : Type} {num : Number T}
    (s : SegmentTreeVariance T) (i : Z) (v old : T) :
  reachable s -> 0 <= i -> arr s !! Z.to_nat i = Some old ->
  runs (update i v ;;; update i old) s tt s.
Proof.
  intros Hs H0 Hold. apply reachable_consistent in Hs.
  pose proof Hs as (Hn & _). pose proof (lookup_lt_Some _ _ _ Hold) as Hlt.
  destruct (update_overwrite s i v old Hs ltac:(lia)) as (s' & H1 & _ & Hc' & Harr).
  replace s with s' at 2; [exact H1|].
  apply consistent_unique; [assumption | assumption |].
  rewrite Harr. now apply list_insert_id.
Qed.

Lemma update_then_restore_witness :
  let s := final (__init__ [0x1p+2; 0x1p+3; 0x1.8p+2]%float) in
  runs (update 0 0x1.cp+2%float ;;; update 0 0x1p+2%float) s tt s.
Proof.
  intros s. apply (update_then_restore s 0).
  - apply reachable_init. vm_compute. reflexivity.
  - lia.
  - reflexivity.
Defined.

(** ** The number of accesses to the tree *)

Lemma accessed_bind_runs {S A B : Type} (m : M S A) (k : A -> M S B) s a s1 :
  runs m s a s1 -> accessed (bind m k s) = accessed (m s) ++ accessed (k a s1).
Proof. intros [Hr Hf]. unfold bind. rewrite Hr. simpl. now rewrite Hf. Qed.

Lemma accessed_bind_le {S A B : Type} (m : M S A) (k : A -> M S B) s (x y z : Z) :
  Z.of_nat (length (accessed (m s))) <= x ->
  (forall a s', Z.of_nat (length (accessed (k a s'))) <= y) ->
  0 <= y -> x + y <= z ->
  Z.of_nat (length (accessed (bind m k s))) <= z.
Proof.
  intros Hm Hk Hy Hz. unfold bind. destruct (res (m s)) as [a|e]; simpl.
  - rewrite length_app. specialize (Hk a (final (m s))). lia.
  - lia.
Qed.

Lemma halves_pow2 (l r k : Z) :
  0 <= k -> l < r -> r - l + 1 <= 2 ^ k ->
  1 <= k /\ (l + r) / 2 - l + 1 <= 2 ^ (k - 1) /\ r - ((l + r) / 2 + 1) + 1 <= 2 ^ (k - 1).
Proof.
  intros Hk Hlt Hsz.
  assert (1 <= k).
  { destruct (Z.eq_dec k 0) as [->|]; [simpl in Hsz; lia | lia]. }
  split; [assumption|].
  replace k with (Z.succ (k - 1)) in Hsz by lia.
  rewrite Z.pow_succ_r in Hsz by lia. zlia.
Qed.

Lemma size_le_pow2_log2_up (m : Z) : 0 < m -> m <= 2 ^ Z.log2_up m.
Proof. intros H. now apply Z.log2_log2_up_spec. Qed.

Section Accesses.

Context {T : Type} {num : Number T}.

Implicit Types (s : SegmentTreeVariance T) (a : list T).

Lemma accessed_tree_set_eq (j : Z) (nd : Node T) s : accessed (tree_set j nd s) = [j].
Proof. unfold tree_set. now destruct (py_setitem (tree s) j nd). Qed.

Lemma recombine_le s (idx : Z) :
  Z.of_nat (length (accessed ((l <~ tree_get (2 * idx + 1) ;;;
                               r <~ tree_get (2 * idx + 2) ;;;
                               tree_set idx (_merge l r)) s))) <= 3.
Proof.
  apply (accessed_bind_le _ _ _ 1 2); [simpl; lia | | lia | lia].
  intros nl s1. apply (accessed_bind_le _ _ _ 1 1); [simpl; lia | | lia | lia].
  intros nr s2. rewrite accessed_tree_set_eq. simpl. lia.
Qed.

(** [_build] on a range of [m] indices accesses the tree [4 * m - 3]
    times: once for a leaf, and three times more than its two recursive
    calls for any other node. *)
Lemma build_fuel_count (fuel : nat) : forall idx l r s,
  r - l < Z.of_nat fuel -> 0 <= l <= r -> r < Z.of_nat (length (arr s)) ->
  0 <= idx -> fits (length (tree s)) idx l r ->
  Z.of_nat (length (accessed (_build_fuel fuel idx l r s))) = 4 * (r - l + 1) - 3.
Proof.
  induction fuel as [|fuel IH]; intros idx l r s Hfuel Hlr Hr H0 Hfit; [lia|].
  simpl. destruct (Z.eqb_spec l r) as [->|Hne].
  - destruct (lookup_lt_is_Some_2 (arr s) (Z.to_nat r)) as [x Hx]; [lia|].
    rewrite (accessed_bind_runs _ _ s x s) by (apply runs_arr_get; [lia | exact Hx]).
    rewrite accessed_tree_set_eq. simpl. lia.
  - assert (Hlt : l < r) by lia.
    assert (Hm : l <= (l + r) / 2 < r) by zlia.
    destruct (build_fuel_spec fuel (2 * idx + 1) l ((l + r) / 2) s)
      as (t1 & Hrun1 & Hlen1 & Hok1 & Hfr1);
      [lia | lia | lia | lia | now apply fits_left |].
    destruct (build_fuel_spec fuel (2 * idx + 2) ((l + r) / 2 + 1) r (with_tree s t1))
      as (t2 & Hrun2 & Hlen2 & Hok2 & Hfr2);
      [lia | lia | simpl; lia | lia | simpl; rewrite Hlen1; now apply fits_right |].
    simpl in Hlen2, Hok2, Hfr2, Hrun2.
    rewrite (accessed_bind_runs _ _ _ _ _ Hrun1).
    rewrite (accessed_bind_runs _ _ _ _ _ Hrun2).
    pose proof (Hfit _ _ _ (covers_left _ _ _ _ _ _ Hlt
                  (covers_here (2 * idx + 1) l ((l + r) / 2) ltac:(lia)))) as HjL.
    pose proof (Hfit _ _ _ (covers_right _ _ _ _ _ _ Hlt
                  (covers_here (2 * idx + 2) ((l + r) / 2 + 1) r ltac:(lia)))) as HjR.
    destruct (lookup_lt_is_Some_2 t2 (Z.to_nat (2 * idx + 1))) as [nl Hnl]; [lia|].
    destruct (lookup_lt_is_Some_2 t2 (Z.to_nat (2 * idx + 2))) as [nr Hnr]; [lia|].
    rewrite (accessed_bind_runs _ _ _ nl (with_tree s t2))
      by (apply runs_tree_get; [lia | exact Hnl]).
    rewrite (accessed_bind_runs _ _ _ nr (with_tree s t2))
      by (apply runs_tree_get; [lia | exact Hnr]).
    rewrite accessed_tree_set_eq, !length_app, !Nat2Z.inj_add.
    rewrite (IH _ _ _ s), (IH _ _ _ (with_tree s t1));
      [simpl; lia | lia | lia | simpl; lia | lia
      | simpl; rewrite Hlen1; now apply fits_right
      | lia | lia | lia | lia | now apply fits_left].
Qed.

(** [_update_recursive] accesses three slots per level above the leaf. *)
Lemma update_fuel_count (fuel : nat) : forall k idx l r i v s,
  0 <= k -> l <= r -> r - l + 1 <= 2 ^ k ->
  Z.of_nat (length (accessed (_update_fuel fuel idx l r i v s))) <= 3 * k + 1.
Proof.
  induction fuel as [|fuel IH]; intros k idx l r i v s Hk Hlr Hsz; [simpl; lia|].
  simpl. destruct (Z.eqb_spec l r) as [->|Hne].
  - rewrite accessed_tree_set_eq. simpl. lia.
  - assert (Hlt : l < r) by lia.
    assert (Hm : l <= (l + r) / 2 < r) by zlia.
    destruct (halves_pow2 l r k Hk Hlt Hsz) as (Hk1 & HL & HR).
    apply (accessed_bind_le _ _ _ (3 * (k - 1) + 1) 3);
      [| intros _ s1; apply recombine_le | lia | lia].
    destruct (i <=? (l + r) / 2); apply IH; lia.
Qed.

Lemma query_fuel_disjoint (fuel : nat) idx l r ql qr s :
  qr < l \/ r < ql -> accessed (_query_fuel fuel idx l r ql qr s) = [].
Proof.
  intros H. destruct fuel as [|fuel]; [reflexivity|]. simpl.
  replace ((qr <? l) || (r <? ql)) with true; [reflexivity|].
  symmetry. rewrite orb_true_iff, !Z.ltb_lt. lia.
Qed.

Lemma query_fuel_total (fuel : nat) idx l r ql qr s :
  ql <= l -> r <= qr ->
  Z.of_nat (length (accessed (_query_fuel fuel idx l r ql qr s))) <= 1.
Proof.
  intros H1 H2. destruct fuel as [|fuel]; [simpl; lia|]. simpl.
  destruct ((qr <? l) || (r <? ql)); [simpl; lia|].
  replace ((ql <=? l) && (r <=? qr)) with true; [simpl; lia|].
  symmetry. rewrite andb_true_iff, !Z.leb_le. lia.
Qed.

Ltac query_cases Hno Htot Hlt Hm :=
  simpl;
  destruct (_ || _) eqn:Hno; [simpl; lia|];
  apply orb_false_iff in Hno as [? ?];
  destruct (_ && _) eqn:Htot; [simpl; lia|];
  match goal with
  | H1 : (?qr <? ?l) = false, H2 : (?r <? ?ql) = false |- _ =>
      apply Z.ltb_ge in H1, H2;
      assert (Hlt : l < r)
        by (apply andb_false_iff in Htot as [Hf|Hf]; apply Z.leb_gt in Hf; lia);
      assert (Hm : l <= (l + r) / 2 < r) by zlia
  end.

(** What follows the recursive call on the left half: the call on the
    right half and the merge. *)
Lemma query_rest_le (fuel : nat) idx l r ql qr (nl : Node T) s (y : Z) :
  Z.of_nat (length (accessed (_query_fuel fuel idx l r ql qr s))) <= y ->
  Z.of_nat (length (accessed
    ((right_result <~ _query_fuel fuel idx l r ql qr ;;;
      ret (_merge nl right_result)) s))) <= y.
Proof.
  intros H. apply (accessed_bind_le _ _ _ y 0); [exact H | intros; simpl; lia | lia | lia].
Qed.

(** A query that starts at or before the left end of a node's range reads
    at most one stored node per level below the node, and one more. *)
Lemma query_fuel_count_prefix (fuel : nat) : forall k idx l r ql qr s,
  0 <= k -> l <= r -> r - l + 1 <= 2 ^ k -> ql <= l ->
  Z.of_nat (length (accessed (_query_fuel fuel idx l r ql qr s))) <= k + 1.
Proof.
  induction fuel as [|fuel IH]; intros k idx l r ql qr s Hk Hlr Hsz Hql; [simpl; lia|].
  query_cases Hno Htot Hlt Hm.
  destruct (halves_pow2 l r k Hk Hlt Hsz) as (Hk1 & HL & HR).
  destruct (Z_le_gt_dec qr ((l + r) / 2)) as [Hq|Hq].
  - apply (accessed_bind_le _ _ _ (k - 1 + 1) 0); [apply IH; lia | | lia | lia].
    intros nl s1. apply query_rest_le.
    rewrite query_fuel_disjoint by lia. simpl. lia.
  - apply (accessed_bind_le _ _ _ 1 k); [apply query_fuel_total; lia | | lia | lia].
    intros nl s1. apply query_rest_le.
    apply Z.le_trans with (k - 1 + 1); [apply IH; lia | lia].
Qed.

(** The same for a query that ends at or after the right end. *)
Lemma query_fuel_count_suffix (fuel : nat) : forall k idx l r ql qr s,
  0 <= k -> l <= r -> r - l + 1 <= 2 ^ k -> r <= qr ->
  Z.of_nat (length (accessed (_query_fuel fuel idx l r ql qr s))) <= k + 1.
Proof.
  induction fuel as [|fuel IH]; intros k idx l r ql qr s Hk Hlr Hsz Hqr; [simpl; lia|].
  query_cases Hno Htot Hlt Hm.
  destruct (halves_pow2 l r k Hk Hlt Hsz) as (Hk1 & HL & HR).
  destruct (Z_le_gt_dec ql ((l + r) / 2)) as [Hq|Hq].
  - apply (accessed_bind_le _ _ _ (k - 1 + 1) 1); [apply IH; lia | | lia | lia].
    intros nl s1. apply query_rest_le. apply query_fuel_total; lia.
  - apply (accessed_bind_le _ _ _ 0 k);
      [rewrite query_fuel_disjoint by lia; simpl; lia | | lia | lia].
    intros nl s1. apply query_rest_le.
    apply Z.le_trans with (k - 1 + 1); [apply IH; lia | lia].
Qed.

(** Any query reads at most two stored nodes per level. *)
Lemma query_fuel_count (fuel : nat) : forall k idx l r ql qr s,
  0 <= k -> l <= r -> r - l + 1 <= 2 ^ k ->
  Z.of_nat (length (accessed (_query_fuel fuel idx l r ql qr s))) <= Z.max 1 (2 * k).
Proof.
  induction fuel as [|fuel IH]; intros k idx l r ql qr s Hk Hlr Hsz; [simpl; lia|].
  query_cases Hno Htot Hlt Hm.
  destruct (halves_pow2 l r k Hk Hlt Hsz) as (Hk1 & HL & HR).
  destruct (Z_le_gt_dec qr ((l + r) / 2)) as [Hq|Hq];
    [|destruct (Z_le_gt_dec ql ((l + r) / 2)) as [Hq'|Hq']].
  - apply (accessed_bind_le _ _ _ (Z.max 1 (2 * (k - 1))) 0); [apply IH; lia | | lia | lia].
    intros nl s1. apply query_rest_le.
    rewrite query_fuel_disjoint by lia. simpl. lia.
  - apply (accessed_bind_le _ _ _ (k - 1 + 1) k);
      [apply query_fuel_count_suffix; lia | | lia | lia].
    intros nl s1. apply query_rest_le.
    apply Z.le_trans with (k - 1 + 1); [apply query_fuel_count_prefix; lia | lia].
  - apply (accessed_bind_le _ _ _ 0 (Z.max 1 (2 * (k - 1))));
      [rewrite query_fuel_disjoint by lia; simpl; lia | | lia | lia].
    intros nl s1. apply query_rest_le. apply IH; lia.
Qed.

Lemma query_count {A : Type} (f : Node T -> A) s (lo hi : Z) :
  Z.of_nat (length (accessed ((sz <~ get_n ;;;
                if (lo <? 0) || (sz <=? hi) || (hi <? lo) then raise ValueError
                else (result_node <~ _query_recursive 0 0 (sz - 1) lo hi ;;;
                      ret (f result_node))) s)))
  <= Z.max 1 (2 * Z.log2_up (n s)).
Proof.
  rewrite accessed_bind_get_n.
  destruct ((lo <? 0) || (n s <=? hi) || (hi <? lo)) eqn:Hchk; [simpl; lia|].
  apply orb_false_iff in Hchk as [Hchk H3].
  apply orb_false_iff in Hchk as [H1 H2].
  apply Z.ltb_ge in H1, H3. apply Z.leb_gt in H2.
  apply (accessed_bind_le _ _ _ (Z.max 1 (2 * Z.log2_up (n s))) 0);
    [|intros; simpl; lia | lia | lia].
  apply query_fuel_count; [apply Z.log2_up_nonneg | lia |].
  pose proof (size_le_pow2_log2_up (n s)). lia.
Qed.

End Accesses.

(** X5. Whatever the numbers, the construction over a sequence of [n >= 1]
    elements makes exactly [4 * n - 3] accesses to the node slots (one
    store for each of the [n] leaves, two loads and a store for each of the
    [n - 1] other nodes), and none when the sequence is empty. *)
Theorem construction_access_count {T : Type} {num : Number T} (a : list T) :
  Z.of_nat (length (accessed (__init__ a)))
  = if Z.of_nat (length a) =? 0 then 0 else 4 * Z.of_nat (length a) - 3.
Proof.
  unfold __init__, fresh_object. cbn [n].
  destruct (Z.ltb_spec 0 (Z.of_nat (length a))) as [Hpos|Hzero].
  - replace (Z.of_nat (length a) =? 0) with false by (symmetry; apply Z.eqb_neq; lia).
    unfold _build. rewrite build_fuel_count.
    + lia.
    + apply stack_depth_enough.
    + lia.
    + simpl. lia.
    + lia.
    + simpl. rewrite length_replicate. apply fits_root.
  - replace (Z.of_nat (length a) =? 0) with true by (symmetry; apply Z.eqb_eq; lia).
    reflexivity.
Qed.

(** X6. Whatever the numbers, the state and the arguments, a call of
    [update] on a tree over [n] elements accesses at most
    [3 * ceil(log2 n) + 1] node slots: the path from the root to one leaf,
    with two loads and a store at every node above the leaf.  In a reachable
    state a call that raises has accessed no node slot. *)
Theorem update_access_count {T : Type} {num : Number T}
    (s : SegmentTreeVariance T) (i : Z) (v : T) :
  Z.of_nat (length (accessed (update i v s))) <= 3 * Z.log2_up (n s) + 1 /\
  (reachable s -> forall e, res (update i v s) = Raise e -> accessed (update i v s) = []).
Proof.
  split.
  - pose proof (Z.log2_up_nonneg (n s)) as Hlog.
    unfold update. rewrite accessed_bind_get_n.
    destruct ((i <? 0) || (n s <=? i)) eqn:Hchk; [simpl; lia|].
    apply orb_false_iff in Hchk as [H1 H2]. apply Z.ltb_ge in H1. apply Z.leb_gt in H2.
    apply (accessed_bind_le _ _ _ 0 (3 * Z.log2_up (n s) + 1));
      [rewrite accessed_arr_set; simpl; lia | | lia | lia].
    intros _ s'. apply update_fuel_count; [lia | lia |].
    pose proof (size_le_pow2_log2_up (n s)). lia.
  - intros Hs e He. apply reachable_consistent in Hs.
    destruct (decide (0 <= i < n s)) as [Hi|Hi].
    + destruct (update_valid s i v Hs Hi) as (s' & [E _] & _). congruence.
    + now destruct (update_invalid s i v ltac:(lia)) as (_ & _ & Hacc).
Qed.

Lemma update_access_count_witness :
  let s := final (__init__ [0x1p+2; 0x1p+3; 0x1.8p+2]%float) in
  accessed (update 3 0x1p+0%float s) = [].
Proof.
  intros s.
  apply (proj2 (update_access_count s 3 0x1p+0%float)) with (e := IndexError).
  - apply reachable_init. vm_compute. reflexivity.
  - vm_compute. reflexivity.
Defined.

(** X7. Whatever the numbers and whatever the state and the arguments, each
    of [query_sum], [query_mean] and [query_variance] on a tree over [n]
    elements reads at most [max(1, 2 * ceil(log2 n))] stored nodes. *)
Theorem query_access_count {T : Type} {num : Number T}
    (s : SegmentTreeVariance T) (lo hi : Z) :
  let bound := Z.max 1 (2 * Z.log2_up (n s)) in
  Z.of_nat (length (accessed (query_sum lo hi s))) <= bound /\
  Z.of_nat (length (accessed (query_mean lo hi s))) <= bound /\
  Z.of_nat (length (accessed (query_variance lo hi s))) <= bound.
Proof.
  intros bound. split; [|split].
  - apply (query_count suma).
  - apply (query_count get_mean).
  - apply (query_count get_variance).
Qed.

(** ** Relations between query results, in exact arithmetic *)

Lemma slice_around {A : Type} (a : list A) (lo i hi : Z) (x : A) :
  0 <= lo <= i -> i <= hi -> a !! Z.to_nat i = Some x ->
  slice a lo hi = slice a lo (i - 1) ++ x :: slice a (i + 1) hi.
Proof.
  intros H1 H2 Hx.
  rewrite (slice_split a lo (i - 1) hi) by lia.
  replace (i - 1 + 1) with i by lia.
  rewrite (slice_split a i i hi) by lia.
  now rewrite (slice_single a i x) by (lia || exact Hx).
Qed.

Lemma sum_list_slice_insert (a : list Qc) (lo i hi : Z) (old v : Qc) :
  0 <= lo <= i -> i <= hi -> a !! Z.to_nat i = Some old ->
  sum_list (slice (<[Z.to_nat i := v]> a) lo hi)
  = (sum_list (slice a lo hi) - old + v)%Qc.
Proof.
  intros H1 H2 Hold. pose proof (lookup_lt_Some _ _ _ Hold) as Hlt.
  rewrite (slice_around a lo i hi old) by assumption.
  rewrite (slice_around (<[Z.to_nat i := v]> a) lo i hi v)
    by (lia || now apply list_lookup_insert_eq).
  rewrite !slice_insert_outside by lia.
  rewrite !sum_list_app. cbn [sum_list foldr].
  fold (sum_list (slice a (i + 1) hi)). ring.
Qed.

(** X8. In exact arithmetic and in a reachable state, the sum over a valid
    range is the sum over its two parts, wherever the range is cut:
    [query_sum lo hi] returns what [query_sum lo m] and
    [query_sum (m + 1) hi] return, added. *)
Theorem query_sum_additive (s : SegmentTreeVariance Qc) (lo m hi : Z) :
  reachable s -> 0 <= lo <= m -> m < hi -> hi < n s ->
  exists x y,
    runs (query_sum lo m) s x s /\ runs (query_sum (m + 1) hi) s y s /\
    runs (query_sum lo hi) s (x + y)%Qc s.
Proof.
  intros Hs H1 H2 H3. apply reachable_consistent in Hs.
  destruct (query_exact s lo m Hs ltac:(lia) ltac:(lia)) as (Hx & _).
  destruct (query_exact s (m + 1) hi Hs ltac:(lia) ltac:(lia)) as (Hy & _).
  destruct (query_exact s lo hi Hs ltac:(lia) ltac:(lia)) as (Hz & _).
  eexists _, _. split; [exact Hx|]. split; [exact Hy|].
  rewrite <- sum_list_app, <- slice_split by lia. exact Hz.
Qed.

Lemma query_sum_additive_witness :
  let s := final (__init__ (map Qc_of_Z [4; 8; 6; 2; 10])) in
  exists x y,
    runs (query_sum 1 2) s x s /\ runs (query_sum (2 + 1) 4) s y s /\
    runs (query_sum 1 4) s (x + y)%Qc s.
Proof.
  intros s. apply (query_sum_additive s 1 2 4).
  - apply reachable_init. vm_compute. reflexivity.
  - lia.
  - lia.
  - vm_compute. reflexivity.
Defined.

(** X9. In exact arithmetic and in a reachable state, the mean of a valid
    range times the number of its elements is its sum: what [query_mean]
    and [query_sum] return for the same range agree in this way. *)
Theorem query_mean_times_length (s : SegmentTreeVariance Qc) (lo hi : Z) :
  reachable s -> 0 <= lo <= hi -> hi < n s ->
  exists m t,
    runs (query_mean lo hi) s m s /\ runs (query_sum lo hi) s t s /\
    (m * Qc_of_Z (hi - lo + 1))%Qc = t.
Proof.
  intros Hs H1 H2. apply reachable_consistent in Hs. pose proof Hs as (Hn & _).
  destruct (query_exact s lo hi Hs H1 H2) as (Hsum & Hmean & _).
  eexists _, _. split; [exact Hmean|]. split; [exact Hsum|].
  assert (Hne : slice (arr s) lo hi <> []) by (apply slice_nonempty; lia).
  unfold direct_mean. rewrite <- (slice_length (arr s) lo hi) by lia.
  field. apply not_eq_sym, Qclt_not_eq, Qc_of_length_pos, Hne.
Qed.

Lemma query_mean_times_length_witness :
  let s := final (__init__ (map Qc_of_Z [4; 8; 6; 2; 10])) in
  exists m t,
    runs (query_mean 1 3) s m s /\ runs (query_sum 1 3) s t s /\
    (m * Qc_of_Z (3 - 1 + 1))%Qc = t.
Proof.
  intros s. apply (query_mean_times_length s 1 3).
  - apply reachable_init. vm_compute. reflexivity.
  - lia.
  - vm_compute. reflexivity.
Defined.

(** X10. In exact arithmetic and in a reachable state, the queries over the
    range of a single valid index read the backing sequence back:
    [query_sum i i] and [query_mean i i] both return the element at [i]. *)
Theorem query_single_index (s : SegmentTreeVariance Qc) (i : Z) (x : Qc) :
  reachable s -> 0 <= i -> arr s !! Z.to_nat i = Some x ->
  runs (query_sum i i) s x s /\ runs (query_mean i i) s x s.
Proof.
  intros Hs H0 Hx. apply reachable_consistent in Hs. pose proof Hs as (Hn & _).
  pose proof (lookup_lt_Some _ _ _ Hx) as Hlt.
  destruct (query_exact s i i Hs ltac:(lia) ltac:(lia)) as (Hsum & Hmean & _).
  rewrite (slice_single (arr s) i x H0 Hx) in Hsum, Hmean.
  assert (E1 : sum_list [x] = x) by (cbn [sum_list foldr]; ring).
  assert (E2 : direct_mean [x] = x).
  { unfold direct_mean. rewrite E1. cbn [length].
    change (Z.of_nat 1) with 1. rewrite Z2Qc_inj_1. now field. }
  rewrite E1 in Hsum. rewrite E2 in Hmean. now split.
Qed.

Lemma query_single_index_witness :
  let s := final (__init__ (map Qc_of_Z [4; 8; 6; 2; 10])) in
  runs (query_sum 2 2) s (Qc_of_Z 6) s /\ runs (query_mean 2 2) s (Qc_of_Z 6) s.
Proof.
  intros s. apply (query_single_index s 2).
  - apply reachable_init. vm_compute. reflexivity.
  - lia.
  - reflexivity.
Defined.

(** X11. In exact arithmetic and in a reachable state, [update i v] changes
    the sum of every valid range that contains [i] by the difference
    between the new and the old element: [query_sum lo hi] returns
    [before - old + v] afterwards. *)
Theorem query_sum_after_update (s : SegmentTreeVariance Qc) (lo i hi : Z) (old v : Qc) :
  reachable s -> 0 <= lo <= i -> i <= hi -> hi < n s ->
  arr s !! Z.to_nat i = Some old ->
  exists before s',
    runs (query_sum lo hi) s before s /\
    runs (update i v) s tt s' /\
    runs (query_sum lo hi) s' (before - old + v)%Qc s'.
Proof.
  intros Hs H1 H2 H3 Hold. apply reachable_consistent in Hs.
  destruct (update_valid s i v Hs ltac:(lia)) as (s' & Hrun & Hc' & Harr & Hn').
  destruct (query_exact s lo hi Hs ltac:(lia) ltac:(lia)) as (Hb & _).
  destruct (query_exact s' lo hi Hc' ltac:(lia) ltac:(lia)) as (Ha & _).
  eexists _, s'. split; [exact Hb|]. split; [exact Hrun|].
  rewrite Harr, (sum_list_slice_insert (arr s) lo i hi old v) in Ha by assumption.
  exact Ha.
Qed.

Lemma query_sum_after_update_witness :
  let s := final (__init__ (map Qc_of_Z [4; 8; 6; 2; 10])) in
  exists before s',
    runs (query_sum 0 3) s before s /\
    runs (update 1 (Qc_of_Z 9)) s tt s' /\
    runs (query_sum 0 3) s' (before - Qc_of_Z 8 + Qc_of_Z 9)%Qc s'.
Proof.
  intros s. apply (query_sum_after_update s 0 1 3).
  - apply reachable_init. vm_compute. reflexivity.
  - lia.
  - lia.
  - vm_compute. reflexivity.
  - reflexivity.
Defined.

(** ** The viewers *)

Lemma log2_up_halves (l r : Z) :
  l < r ->
  Z.log2_up ((l + r) / 2 - l + 1) + 1 <= Z.log2_up (r - l + 1) /\
  Z.log2_up (r - ((l + r) / 2 + 1) + 1) + 1 <= Z.log2_up (r - l + 1).
Proof.
  intros Hlt.
  assert (Hm : l <= (l + r) / 2 < r) by zlia.
  pose proof (Z.log2_up_nonneg (r - l + 1)) as Hk.
  assert (Hsz : r - l + 1 <= 2 ^ Z.log2_up (r - l + 1))
    by (apply Z.log2_log2_up_spec; lia).
  assert (1 <= Z.log2_up (r - l + 1)).
  { destruct (Z.eq_dec (Z.log2_up (r - l + 1)) 0) as [E|]; [|lia].
    rewrite E in Hsz. simpl in Hsz. lia. }
  replace (Z.log2_up (r - l + 1)) with (Z.succ (Z.log2_up (r - l + 1) - 1)) in Hsz by lia.
  rewrite Z.pow_succ_r in Hsz by lia.
  split.
  - enough (Z.log2_up ((l + r) / 2 - l + 1) <= Z.log2_up (r - l + 1) - 1) by lia.
    apply Z.log2_up_le_pow2; [lia | zlia].
  - enough (Z.log2_up (r - ((l + r) / 2 + 1) + 1) <= Z.log2_up (r - l + 1) - 1) by lia.
    apply Z.log2_up_le_pow2; [lia | zlia].
Qed.

Lemma Qdiv_pos (a b : Q) : (0 < a)%Q -> (0 < b)%Q -> (0 < a / b)%Q.
Proof. intros Ha Hb. apply Qlt_shift_div_l; [exact Hb | lra]. Qed.

Lemma Qpow2_pos (k : Z) : (0 < 2 ^ k)%Q.
Proof. apply Qpower_0_lt. lra. Qed.

(** The spacing of the children halves at every level. *)
Lemma spacing_halves (W : Q) (level : Z) :
  (W / 2 ^ (level + 2) + W / 2 ^ (level + 2) == W / 2 ^ (level + 1))%Q.
Proof.
  replace (level + 2) with (level + 1 + 1) by lia.
  rewrite (Qpower_plus 2 (level + 1) 1) by lra.
  pose proof (Qpow2_pos (level + 1)) as Hp.
  change (2 ^ 1)%Q with 2%Q. field. lra.
Qed.

Section Viewing.

Context {T : Type} {num : Number T}.

Implicit Types (t : list (Node T)) (a : list T) (ln : line T).

Lemma runs_on_tree {O A : Type} (m : M (SegmentTreeVariance T) A) (w : world T O) x s' :
  runs m (w_st w) x s' -> runs (on_tree m) w x (mkWorld s' (w_out w)).
Proof. intros [Hr Hf]. split; simpl; [exact Hr | now rewrite Hf]. Qed.

Lemma runs_emit {O : Type} (x : O) (w : world T O) :
  runs (emit x) w tt (mkWorld (w_st w) (w_out w ++ [x])).
Proof. now split. Qed.

Lemma world_eta {O : Type} (w : world T O) : mkWorld (w_st w) (w_out w) = w.
Proof. now destruct w. Qed.

Lemma added_runs {O A : Type} (m : M (world T O) A) (w : world T O) x st out :
  runs m w x (mkWorld st (w_out w ++ out)) -> added m w = out.
Proof. intros [_ Hf]. unfold added. rewrite Hf. simpl. apply drop_app_length. Qed.

(** *** [print_tree] *)

Lemma print_fuel_spec (fuel : nat) : forall idx level l r (w : world T (line T)),
  (0 < fuel)%nat -> r - l < Z.of_nat fuel -> 0 <= idx ->
  fits (length (tree (w_st w))) idx l r ->
  runs (print_tree_fuel fuel idx level (Some l) (Some r)) w tt
       (mkWorld (w_st w) (w_out w ++ lines_fuel fuel (tree (w_st w)) idx level l r)).
Proof.
  induction fuel as [|fuel IH]; intros idx level l r w Hpos Hfuel H0 Hfit; [lia|].
  simpl. eapply runs_bind; [apply runs_ret|].
  destruct (Z.ltb_spec r l) as [Hrl|Hlr].
  { rewrite app_nil_r, world_eta. apply runs_ret. }
  pose proof (Hfit idx l r (covers_here idx l r Hlr)) as Hidx.
  destruct (lookup_lt_is_Some_2 (tree (w_st w)) (Z.to_nat idx)) as [nd Hnd]; [lia|].
  rewrite Hnd.
  eapply runs_bind; [apply runs_on_tree, runs_tree_get; [lia | exact Hnd] |].
  eapply runs_bind; [apply runs_emit|]. cbn [w_st w_out].
  destruct (Z.ltb_spec l r) as [Hlt|Hge]; [|apply runs_ret].
  assert (Hm : l <= (l + r) / 2 < r) by zlia.
  eapply runs_bind.
  { apply IH; [lia | lia | lia | now apply fits_left]. }
  cbn [w_st w_out].
  pose proof (IH (2 * idx + 2) (level + 1) ((l + r) / 2 + 1) r
                (mkWorld (w_st w)
                   ((w_out w ++ [mkLine (Z.to_nat level) l r nd]) ++
                    lines_fuel fuel (tree (w_st w)) (2 * idx + 1) (level + 1)
                      l ((l + r) / 2)))) as H2.
  cbn [w_st w_out] in H2. rewrite <- !app_assoc in H2. cbn [app] in H2.
  rewrite <- !app_assoc. cbn [app].
  apply H2; [lia | lia | lia | now apply fits_right].
Qed.

Lemma print_tree_default (w : world T (line T)) :
  print_tree 0 0 None None w
  = print_tree_fuel (stack_depth 0 (n (w_st w) - 1)) 0 0 (Some 0)
      (Some (n (w_st w) - 1)) w.
Proof. destruct w as [st out]. reflexivity. Qed.

Lemma print_tree_spec (w : world T (line T)) :
  consistent (w_st w) ->
  runs (print_tree 0 0 None None) w tt
    (mkWorld (w_st w)
       (w_out w ++ lines_fuel (stack_depth 0 (n (w_st w) - 1)) (tree (w_st w))
                     0 0 0 (n (w_st w) - 1))).
Proof.
  intros (Hn & Hlen & _). unfold runs. rewrite print_tree_default.
  apply print_fuel_spec; [unfold stack_depth; lia | apply stack_depth_enough | lia |].
  intros j lo hi Hc. apply position_bound in Hc. lia.
Qed.

(** One line for every slot visited. *)
Lemma lines_fuel_length (fuel : nat) : forall t idx level l r,
  r - l < Z.of_nat fuel -> l <= r -> 0 <= idx -> fits (length t) idx l r ->
  Z.of_nat (length (lines_fuel fuel t idx level l r)) = 2 * (r - l + 1) - 1.
Proof.
  induction fuel as [|fuel IH]; intros t idx level l r Hfuel Hlr H0 Hfit; [lia|].
  simpl. replace (r <? l) with false by (symmetry; apply Z.ltb_ge; lia).
  pose proof (Hfit idx l r (covers_here idx l r Hlr)) as Hidx.
  destruct (lookup_lt_is_Some_2 t (Z.to_nat idx)) as [nd ->]; [lia|].
  destruct (Z.ltb_spec l r) as [Hlt|Hge]; [|simpl; lia].
  assert (Hm : l <= (l + r) / 2 < r) by zlia.
  cbn [length]. rewrite length_app, Nat2Z.inj_succ, Nat2Z.inj_add.
  rewrite !IH; [lia | lia | lia | lia | now apply fits_right
               | lia | lia | lia | now apply fits_left].
Qed.

(** Every line is that of a visited slot and shows the node stored there. *)
Lemma lines_fuel_sound (fuel : nat) : forall t idx level l r ln,
  0 <= idx -> ln ∈ lines_fuel fuel t idx level l r ->
  exists j, covers idx l r j (line_left ln) (line_right ln) /\
            t !! Z.to_nat j = Some (line_node ln).
Proof.
  induction fuel as [|fuel IH]; intros t idx level l r ln H0 Hin.
  { now apply elem_of_nil in Hin. }
  simpl in Hin. destruct (Z.ltb_spec r l) as [Hrl|Hlr].
  { now apply elem_of_nil in Hin. }
  destruct (t !! Z.to_nat idx) as [nd|] eqn:Hnd; [|now apply elem_of_nil in Hin].
  apply elem_of_cons in Hin as [->|Hin].
  { exists idx. split; [now apply covers_here | exact Hnd]. }
  destruct (Z.ltb_spec l r) as [Hlt|Hge]; [|now apply elem_of_nil in Hin].
  apply elem_of_app in Hin as [Hin|Hin]; apply IH in Hin as (j & Hc & Hj); try lia;
    exists j; (split; [|exact Hj]); [now apply covers_left | now apply covers_right].
Qed.

(** Every visited slot has its line. *)
Lemma lines_fuel_complete idx l r j lo hi :
  covers idx l r j lo hi ->
  forall (fuel : nat) t level,
    r - l < Z.of_nat fuel -> 0 <= idx -> fits (length t) idx l r ->
    exists ln, ln ∈ lines_fuel fuel t idx level l r /\
               line_left ln = lo /\ line_right ln = hi /\
               t !! Z.to_nat j = Some (line_node ln).
Proof.
  induction 1 as [idx l r Hle | idx l r j a b Hlt Hc IH | idx l r j a b Hlt Hc IH];
    intros fuel t level Hfuel H0 Hfit; (destruct fuel as [|fuel]; [lia|]); simpl.
  - replace (r <? l) with false by (symmetry; apply Z.ltb_ge; lia).
    pose proof (Hfit idx l r (covers_here idx l r Hle)) as Hidx.
    destruct (lookup_lt_is_Some_2 t (Z.to_nat idx)) as [nd Hnd]; [lia|].
    rewrite Hnd. eexists. split; [apply list_elem_of_here|]. now simpl.
  - assert (Hm : l <= (l + r) / 2 < r) by zlia.
    replace (r <? l) with false by (symmetry; apply Z.ltb_ge; lia).
    pose proof (Hfit idx l r (covers_here idx l r ltac:(lia))) as Hidx.
    destruct (lookup_lt_is_Some_2 t (Z.to_nat idx)) as [nd ->]; [lia|].
    replace (l <? r) with true by (symmetry; apply Z.ltb_lt; lia).
    destruct (IH fuel t (level + 1)) as (ln & Hin & Hrest);
      [lia | lia | now apply fits_left |].
    exists ln. split; [|exact Hrest].
    apply list_elem_of_further, elem_of_app. now left.
  - assert (Hm : l <= (l + r) / 2 < r) by zlia.
    replace (r <? l) with false by (symmetry; apply Z.ltb_ge; lia).
    pose proof (Hfit idx l r (covers_here idx l r ltac:(lia))) as Hidx.
    destruct (lookup_lt_is_Some_2 t (Z.to_nat idx)) as [nd ->]; [lia|].
    replace (l <? r) with true by (symmetry; apply Z.ltb_lt; lia).
    destruct (IH fuel t (level + 1)) as (ln & Hin & Hrest);
      [lia | lia | now apply fits_right |].
    exists ln. split; [|exact Hrest].
    apply list_elem_of_further, elem_of_app. now right.
Qed.

(** No range is printed twice. *)
Lemma lines_fuel_NoDup (fuel : nat) : forall t idx level l r,
  0 <= idx -> NoDup (line_range <$> lines_fuel fuel t idx level l r).
Proof.
  induction fuel as [|fuel IH]; intros t idx level l r H0; [constructor|].
  simpl. destruct (Z.ltb_spec r l) as [Hrl|Hlr]; [constructor|].
  destruct (t !! Z.to_nat idx) as [nd|]; [|constructor].
  destruct (Z.ltb_spec l r) as [Hlt|Hge]; [|apply NoDup_singleton].
  assert (Hm : l <= (l + r) / 2 < r) by zlia.
  rewrite fmap_cons, fmap_app. apply NoDup_cons. split.
  - intros Hin. apply elem_of_app in Hin as [Hin|Hin];
      apply list_elem_of_fmap in Hin as (ln & E & Hin);
      apply lines_fuel_sound in Hin as (j & Hc & _); try lia;
      apply covers_range in Hc; unfold line_range in E; simpl in E;
      injection E as E1 E2; lia.
  - apply NoDup_app. split; [apply IH; lia|]. split; [|apply IH; lia].
    intros rg Hin1 Hin2.
    apply list_elem_of_fmap in Hin1 as (ln1 & E1 & Hin1).
    apply list_elem_of_fmap in Hin2 as (ln2 & E2 & Hin2).
    apply lines_fuel_sound in Hin1 as (j1 & Hc1 & _); [|lia].
    apply lines_fuel_sound in Hin2 as (j2 & Hc2 & _); [|lia].
    apply covers_range in Hc1, Hc2. subst rg. unfold line_range in E2.
    injection E2 as E2 E3. lia.
Qed.

(** The lines of the single-index ranges show the sequence, in order. *)
Lemma lines_fuel_leaves (fuel : nat) : forall a t idx level l r,
  r - l < Z.of_nat fuel -> 0 <= l <= r -> r < Z.of_nat (length a) -> 0 <= idx ->
  subtree_ok a t idx l r ->
  (fun ln => suma (line_node ln)) <$>
    filter (fun ln => line_left ln = line_right ln) (lines_fuel fuel t idx level l r)
  = slice a l r.
Proof.
  induction fuel as [|fuel IH]; intros a t idx level l r Hfuel Hlr Hr H0 Hok; [lia|].
  simpl. replace (r <? l) with false by (symmetry; apply Z.ltb_ge; lia).
  rewrite (Hok idx l r (covers_here idx l r ltac:(lia))).
  destruct (Z.ltb_spec l r) as [Hlt|Hge].
  - assert (Hm : l <= (l + r) / 2 < r) by zlia.
    rewrite filter_cons_False by (simpl; lia).
    rewrite filter_app, fmap_app.
    rewrite (IH a), (IH a);
      [ | lia | lia | lia | lia | now apply subtree_ok_right
        | lia | lia | lia | lia | now apply subtree_ok_left].
    symmetry. apply slice_split; lia.
  - assert (l = r) as -> by lia.
    destruct (lookup_lt_is_Some_2 a (Z.to_nat r)) as [x Hx]; [lia|].
    rewrite filter_cons_True by reflexivity.
    rewrite (node_of_leaf a r x Hx), (slice_single a r x) by (lia || exact Hx).
    reflexivity.
Qed.

(** A line is indented by the depth of its node, which the height of the
    tree bounds. *)
Lemma lines_fuel_indent (fuel : nat) : forall t idx level l r ln,
  0 <= level -> ln ∈ lines_fuel fuel t idx level l r ->
  level <= Z.of_nat (line_indent ln) <= level + Z.log2_up (r - l + 1).
Proof.
  induction fuel as [|fuel IH]; intros t idx level l r ln Hlev Hin.
  { now apply elem_of_nil in Hin. }
  simpl in Hin. destruct (Z.ltb_spec r l) as [Hrl|Hlr].
  { now apply elem_of_nil in Hin. }
  destruct (t !! Z.to_nat idx) as [nd|]; [|now apply elem_of_nil in Hin].
  pose proof (Z.log2_up_nonneg (r - l + 1)) as Hlog.
  apply elem_of_cons in Hin as [->|Hin]; [simpl; lia|].
  destruct (Z.ltb_spec l r) as [Hlt|Hge]; [|now apply elem_of_nil in Hin].
  destruct (log2_up_halves l r Hlt) as [HL HR].
  apply elem_of_app in Hin as [Hin|Hin]; apply IH in Hin; lia.
Qed.

(** *** [draw_node] *)

Lemma draw_fuel_spec (fuel : nat) :
  forall W idx l r x y level max_level (w : world T (artist T)),
  (0 < fuel)%nat -> r - l < Z.of_nat fuel -> 0 <= idx ->
  fits (length (tree (w_st w))) idx l r ->
  runs (draw_node_fuel fuel W idx l r x y level max_level) w tt
       (mkWorld (w_st w)
          (w_out w ++ artists_fuel fuel (tree (w_st w)) W idx l r x y level)).
Proof.
  induction fuel as [|fuel IH]; intros W idx l r x y level max_level w Hpos Hfuel H0 Hfit;
    [lia|].
  simpl.
  eapply runs_bind; [apply (runs_on_tree tree_len w _ (w_st w)); now split|].
  rewrite world_eta.
  destruct (Z.ltb_spec r l) as [Hrl|Hlr].
  { cbn [orb]. rewrite app_nil_r, world_eta. apply runs_ret. }
  pose proof (Hfit idx l r (covers_here idx l r Hlr)) as Hidx.
  replace (Z.of_nat (length (tree (w_st w))) <=? idx) with false
    by (symmetry; apply Z.leb_gt; lia).
  cbn [orb].
  destruct (lookup_lt_is_Some_2 (tree (w_st w)) (Z.to_nat idx)) as [nd Hnd]; [lia|].
  rewrite Hnd.
  eapply runs_bind; [apply runs_on_tree, runs_tree_get; [lia | exact Hnd] |].
  eapply runs_bind; [apply runs_emit|].
  eapply runs_bind; [apply runs_emit|]. cbn [w_st w_out].
  destruct (Z.ltb_spec l r) as [Hlt|Hge].
  2:{ rewrite <- !app_assoc. cbn [app]. apply runs_ret. }
  assert (Hm : l <= (l + r) / 2 < r) by zlia.
  eapply runs_bind; [apply runs_emit|].
  eapply runs_bind; [apply runs_emit|]. cbn [w_st w_out].
  eapply runs_bind.
  { apply IH; [lia | lia | lia | now apply fits_left]. }
  cbn [w_st w_out].
  match goal with
  | |- runs _ ?w2 _ _ =>
      pose proof (IH W (2 * idx + 2) ((l + r) / 2 + 1) r
                    (x + W / 2 ^ (level + 2))%Q (y - (5 # 2))%Q (level + 1)
                    max_level w2) as H2
  end.
  cbn [w_st w_out] in H2. rewrite <- !app_assoc in H2. cbn [app] in H2.
  rewrite <- !app_assoc. cbn [app].
  apply H2; [lia | lia | lia | now apply fits_right].
Qed.

Lemma draw_node_spec (w : world T (artist T)) (W x y : Q) (max_level : Z) :
  consistent (w_st w) ->
  runs (draw_node W 0 0 (n (w_st w) - 1) x y 0 max_level) w tt
    (mkWorld (w_st w)
       (w_out w ++ artists_fuel (stack_depth 0 (n (w_st w) - 1)) (tree (w_st w))
                     W 0 0 (n (w_st w) - 1) x y 0)).
Proof.
  intros (Hn & Hlen & _).
  apply draw_fuel_spec; [unfold stack_depth; lia | apply stack_depth_enough | lia |].
  intros j lo hi Hc. apply position_bound in Hc. lia.
Qed.

(** The labels of the figure are the lines of the console. *)
Lemma artists_fuel_lines (fuel : nat) : forall t W idx l r x y level level',
  omap shown_by_artist (artists_fuel fuel t W idx l r x y level)
  = shown_by_line <$> lines_fuel fuel t idx level' l r.
Proof.
  induction fuel as [|fuel IH]; intros t W idx l r x y level level'; [reflexivity|].
  cbn [artists_fuel lines_fuel]. destruct (r <? l); [reflexivity|].
  destruct (t !! Z.to_nat idx) as [nd|]; [|reflexivity].
  rewrite fmap_cons.
  destruct (l <? r).
  - rewrite fmap_app, <- (IH t W _ _ _ (x - W / 2 ^ (level + 2))%Q (y - (5 # 2))%Q
                            (level + 1)),
      <- (IH t W _ _ _ (x + W / 2 ^ (level + 2))%Q (y - (5 # 2))%Q (level + 1)).
    rewrite <- omap_app. reflexivity.
  - reflexivity.
Qed.

(** A box and a label for every slot, two edges for every split. *)
Lemma artists_fuel_length (fuel : nat) : forall t W idx l r x y level,
  r - l < Z.of_nat fuel -> l <= r -> 0 <= idx -> fits (length t) idx l r ->
  Z.of_nat (length (artists_fuel fuel t W idx l r x y level)) = 6 * (r - l + 1) - 4.
Proof.
  induction fuel as [|fuel IH]; intros t W idx l r x y level Hfuel Hlr H0 Hfit; [lia|].
  simpl. replace (r <? l) with false by (symmetry; apply Z.ltb_ge; lia).
  pose proof (Hfit idx l r (covers_here idx l r Hlr)) as Hidx.
  destruct (lookup_lt_is_Some_2 t (Z.to_nat idx)) as [nd ->]; [lia|].
  destruct (Z.ltb_spec l r) as [Hlt|Hge]; [|simpl; lia].
  assert (Hm : l <= (l + r) / 2 < r) by zlia.
  cbn [length]. rewrite length_app, !Nat2Z.inj_succ, Nat2Z.inj_add.
  rewrite !IH; [lia | lia | lia | lia | now apply fits_right
               | lia | lia | lia | now apply fits_left].
Qed.

(** Where a label comes from: the node itself, or one of its halves. *)
Lemma artists_fuel_text (fuel : nat) t W idx l r x y level x' y' l' r' (s q v : T) :
  Text x' y' l' r' s q v ∈ artists_fuel (S fuel) t W idx l r x y level ->
  l <= r /\
  ((x' = x /\ y' = y /\ l' = l /\ r' = r) \/
   (l < r /\
    Text x' y' l' r' s q v ∈
      artists_fuel fuel t W (2 * idx + 1) l ((l + r) / 2)
        (x - W / 2 ^ (level + 2))%Q (y - (5 # 2))%Q (level + 1)) \/
   (l < r /\
    Text x' y' l' r' s q v ∈
      artists_fuel fuel t W (2 * idx + 2) ((l + r) / 2 + 1) r
        (x + W / 2 ^ (level + 2))%Q (y - (5 # 2))%Q (level + 1))).
Proof.
  simpl. intros Hin. destruct (Z.ltb_spec r l) as [Hrl|Hlr].
  { now apply elem_of_nil in Hin. }
  split; [exact Hlr|].
  destruct (t !! Z.to_nat idx) as [nd|]; [|now apply elem_of_nil in Hin].
  apply elem_of_cons in Hin as [E|Hin]; [discriminate|].
  apply elem_of_cons in Hin as [E|Hin]; [injection E; intros; subst; now left|].
  destruct (Z.ltb_spec l r) as [Hlt|Hge]; [|now apply elem_of_nil in Hin].
  apply elem_of_cons in Hin as [E|Hin]; [discriminate|].
  apply elem_of_cons in Hin as [E|Hin]; [discriminate|].
  apply elem_of_app in Hin as [Hin|Hin]; [right; left | right; right]; now split.
Qed.

(** A label lies within the span of its subtree, one row lower for every
    level. *)
Lemma artists_fuel_place (fuel : nat) :
  forall t W idx l r x y level x' y' l' r' (s q v : T),
  (0 < W)%Q ->
  Text x' y' l' r' s q v ∈ artists_fuel fuel t W idx l r x y level ->
  l <= l' /\ l' <= r' /\ r' <= r /\
  (x - W / 2 ^ (level + 1) < x')%Q /\ (x' < x + W / 2 ^ (level + 1))%Q /\
  exists d, 0 <= d <= Z.log2_up (r - l + 1) /\ (y' == y - (5 # 2) * inject_Z d)%Q.
Proof.
  induction fuel as [|fuel IH];
    intros t W idx l r x y level x' y' l' r' s q v HW Hin.
  { now apply elem_of_nil in Hin. }
  pose proof (Qdiv_pos W _ HW (Qpow2_pos (level + 1))) as Hh.
  pose proof (Qdiv_pos W _ HW (Qpow2_pos (level + 2))) as Hhs.
  pose proof (spacing_halves W level) as Hsp.
  pose proof (Z.log2_up_nonneg (r - l + 1)) as Hlog.
  apply artists_fuel_text in Hin
    as (Hlr & [(-> & -> & -> & ->) | [(Hlt & Hin) | (Hlt & Hin)]]).
  - split; [lia|]. split; [lia|]. split; [lia|].
    split; [lra|]. split; [lra|].
    exists 0. split; [lia|]. change (inject_Z 0) with 0%Q. lra.
  - assert (Hm : l <= (l + r) / 2 < r) by zlia.
    destruct (log2_up_halves l r Hlt) as [HL HR].
    apply IH in Hin as (H1 & H2 & H3 & Hx1 & Hx2 & d & Hd & Hy); [|exact HW].
    replace (level + 1 + 1) with (level + 2) in Hx1, Hx2 by lia.
    split; [lia|]. split; [lia|]. split; [lia|].
    split; [lra|]. split; [lra|].
    exists (d + 1). split; [lia|]. rewrite inject_Z_plus.
    change (inject_Z 1) with 1%Q. lra.
  - assert (Hm : l <= (l + r) / 2 < r) by zlia.
    destruct (log2_up_halves l r Hlt) as [HL HR].
    apply IH in Hin as (H1 & H2 & H3 & Hx1 & Hx2 & d & Hd & Hy); [|exact HW].
    replace (level + 1 + 1) with (level + 2) in Hx1, Hx2 by lia.
    split; [lia|]. split; [lia|]. split; [lia|].
    split; [lra|]. split; [lra|].
    exists (d + 1). split; [lia|]. rewrite inject_Z_plus.
    change (inject_Z 1) with 1%Q. lra.
Qed.

(** Labels of ranges that lie one before the other are drawn one to the
    left of the other. *)
Lemma artists_fuel_order (fuel : nat) :
  forall t W idx l r x y level x1 y1 l1 r1 (s1 q1 v1 : T) x2 y2 l2 r2 (s2 q2 v2 : T),
  (0 < W)%Q ->
  Text x1 y1 l1 r1 s1 q1 v1 ∈ artists_fuel fuel t W idx l r x y level ->
  Text x2 y2 l2 r2 s2 q2 v2 ∈ artists_fuel fuel t W idx l r x y level ->
  r1 < l2 -> (x1 < x2)%Q.
Proof.
  induction fuel as [|fuel IH];
    intros t W idx l r x y level x1 y1 l1 r1 s1 q1 v1 x2 y2 l2 r2 s2 q2 v2
           HW Hin1 Hin2 Hlt12.
  { now apply elem_of_nil in Hin1. }
  pose proof (spacing_halves W level) as Hsp.
  pose proof (artists_fuel_place _ _ _ _ _ _ _ _ _ _ _ _ _ _ _ _ HW Hin1)
    as (Ha1 & Ha2 & Ha3 & _).
  pose proof (artists_fuel_place _ _ _ _ _ _ _ _ _ _ _ _ _ _ _ _ HW Hin2)
    as (Hb1 & Hb2 & Hb3 & _).
  apply artists_fuel_text in Hin1
    as (Hlr & [(-> & -> & -> & ->) | [(Hlt & Hin1) | (Hlt & Hin1)]]); [lia | |];
  apply artists_fuel_text in Hin2
    as (_ & [(-> & -> & -> & ->) | [(_ & Hin2) | (_ & Hin2)]]); try lia.
  - eapply IH; eassumption.
  - apply artists_fuel_place in Hin1 as (_ & _ & _ & _ & Hx1 & _); [|exact HW].
    apply artists_fuel_place in Hin2 as (_ & _ & _ & Hx2 & _ & _); [|exact HW].
    replace (level + 1 + 1) with (level + 2) in Hx1, Hx2 by lia. lra.
  - apply artists_fuel_place in Hin1 as (H1 & _); [|exact HW].
    apply artists_fuel_place in Hin2 as (_ & _ & H2 & _); [|exact HW].
    assert (Hm : l <= (l + r) / 2 < r) by zlia. lia.
  - eapply IH; eassumption.
Qed.

End Viewing.

(** X12. Whatever the numbers, in a reachable state of a tree over [n]
    elements [print_tree()] returns, leaves the tree as it is and prints
    [2 * n - 1] lines, none for the empty tree; when [n >= 1] the first line
    is that of the root, not indented, with the range [[0, n - 1]]. *)
Theorem print_tree_line_count {T : Type} {num : Number T} (w : world T (line T)) :
  reachable (w_st w) ->
  let printed := added (print_tree 0 0 None None) w in
  runs (print_tree 0 0 None None) w tt (mkWorld (w_st w) (w_out w ++ printed)) /\
  Z.of_nat (length printed)
    = (if n (w_st w) =? 0 then 0 else 2 * n (w_st w) - 1) /\
  (0 < n (w_st w) ->
   exists root, tree (w_st w) !! 0%nat = Some root /\
                head printed = Some (mkLine 0%nat 0 (n (w_st w) - 1) root)).
Proof.
  intros Hs printed. apply reachable_consistent in Hs.
  pose proof (print_tree_spec w Hs) as Hrun.
  pose proof (added_runs _ _ _ _ _ Hrun) as E. fold printed in E.
  destruct Hs as (Hn & Hlen & Hok & _).
  rewrite E. split; [exact Hrun|]. split.
  - destruct (Z.eqb_spec (n (w_st w)) 0) as [Hz|Hnz].
    + rewrite Hz. reflexivity.
    + rewrite lines_fuel_length; [lia | apply stack_depth_enough | lia | lia |].
      intros j lo hi Hc. apply position_bound in Hc. lia.
  - intros Hpos.
    pose proof (Hok 0 0 (n (w_st w) - 1)
                  (covers_here 0 0 (n (w_st w) - 1) ltac:(lia))) as Hroot.
    change (Z.to_nat 0) with 0%nat in Hroot.
    eexists. split; [exact Hroot|].
    unfold stack_depth. cbn [lines_fuel].
    replace (n (w_st w) - 1 <? 0) with false by (symmetry; apply Z.ltb_ge; lia).
    change (Z.to_nat 0) with 0%nat. rewrite Hroot. reflexivity.
Qed.

Lemma print_tree_line_count_witness :
  let w : world float (line float) :=
    mkWorld (final (__init__ [0x1p+2; 0x1p+3; 0x1.8p+2]%float)) [] in
  Z.of_nat (length (added (print_tree 0 0 None None) w))
  = (if n (w_st w) =? 0 then 0 else 2 * n (w_st w) - 1).
Proof.
  intros w. apply (print_tree_line_count w).
  apply reachable_init. vm_compute. reflexivity.
Defined.

(** X13. Whatever the numbers, in a reachable state [print_tree()] prints
    the positions of the tree, each one once: every position has a line
    with its range and the node stored in its slot, every line is that of a
    position and shows the node stored there, and no range is printed
    twice. *)
Theorem print_tree_lines_are_positions {T : Type} {num : Number T}
    (w : world T (line T)) :
  reachable (w_st w) ->
  let printed := added (print_tree 0 0 None None) w in
  (forall j lo hi, position (n (w_st w)) j lo hi ->
     exists ln, ln ∈ printed /\ line_left ln = lo /\ line_right ln = hi /\
                tree (w_st w) !! Z.to_nat j = Some (line_node ln)) /\
  (forall ln, ln ∈ printed ->
     exists j, position (n (w_st w)) j (line_left ln) (line_right ln) /\
               tree (w_st w) !! Z.to_nat j = Some (line_node ln)) /\
  NoDup (line_range <$> printed).
Proof.
  intros Hs printed. apply reachable_consistent in Hs.
  pose proof (added_runs _ _ _ _ _ (print_tree_spec w Hs)) as E. fold printed in E.
  destruct Hs as (Hn & Hlen & Hok & _).
  rewrite E. split; [|split].
  - intros j lo hi Hc. apply (lines_fuel_complete _ _ _ _ _ _ Hc);
      [apply stack_depth_enough | lia |].
    intros j' lo' hi' Hc'. apply position_bound in Hc'. lia.
  - intros ln Hin. now apply lines_fuel_sound in Hin.
  - now apply lines_fuel_NoDup.
Qed.

Lemma print_tree_lines_are_positions_witness :
  let w : world float (line float) :=
    mkWorld (final (__init__ [0x1p+2; 0x1p+3; 0x1.8p+2]%float)) [] in
  NoDup (line_range <$> added (print_tree 0 0 None None) w).
Proof.
  intros w. apply (print_tree_lines_are_positions w).
  apply reachable_init. vm_compute. reflexivity.
Defined.

(** X14. Whatever the numbers, in a reachable state the lines that
    [print_tree()] prints for the single-index ranges show, from top to
    bottom, the elements of the backing sequence in order. *)
Theorem print_tree_leaves_in_order {T : Type} {num : Number T}
    (w : world T (line T)) :
  reachable (w_st w) ->
  (fun ln => suma (line_node ln)) <$>
    filter (fun ln => line_left ln = line_right ln)
      (added (print_tree 0 0 None None) w)
  = arr (w_st w).
Proof.
  intros Hs. apply reachable_consistent in Hs.
  rewrite (added_runs _ _ _ _ _ (print_tree_spec w Hs)).
  destruct Hs as (Hn & Hlen & Hok & _).
  destruct (Z.eqb_spec (n (w_st w)) 0) as [Hz|Hnz].
  - rewrite Hz. symmetry. apply length_zero_iff_nil. lia.
  - rewrite (lines_fuel_leaves _ (arr (w_st w)));
      [ | apply stack_depth_enough | lia | lia | lia | exact Hok].
    unfold slice. rewrite drop_0. apply take_ge. lia.
Qed.

Lemma print_tree_leaves_in_order_witness :
  let w : world float (line float) :=
    mkWorld (final (__init__ [0x1p+2; 0x1p+3; 0x1.8p+2]%float)) [] in
  (fun ln => suma (line_node ln)) <$>
    filter (fun ln => line_left ln = line_right ln)
      (added (print_tree 0 0 None None) w)
  = arr (w_st w).
Proof.
  intros w. apply (print_tree_leaves_in_order w).
  apply reachable_init. vm_compute. reflexivity.
Defined.

(** X15. Whatever the numbers, in a reachable state of a tree over [n]
    elements no line of [print_tree()] is indented by more than
    [ceil(log2 n)] levels. *)
Theorem print_tree_indent_bound {T : Type} {num : Number T}
    (w : world T (line T)) (ln : line T) :
  reachable (w_st w) ->
  ln ∈ added (print_tree 0 0 None None) w ->
  Z.of_nat (line_indent ln) <= Z.log2_up (n (w_st w)).
Proof.
  intros Hs Hin. apply reachable_consistent in Hs.
  rewrite (added_runs _ _ _ _ _ (print_tree_spec w Hs)) in Hin.
  apply lines_fuel_indent in Hin; [|lia].
  replace (n (w_st w) - 1 - 0 + 1) with (n (w_st w)) in Hin by lia. lia.
Qed.

Lemma print_tree_indent_bound_witness :
  let st := final (__init__ [0x1p+2; 0x1p+3; 0x1.8p+2]%float) in
  let w : world float (line float) := mkWorld st [] in
  Z.of_nat (line_indent (mkLine 1%nat 2 2 (mkNode 0x1.8p+2 0x1.2p+5 1)%float))
  <= Z.log2_up (n (w_st w)).
Proof.
  intros st w. apply (print_tree_indent_bound w).
  - apply reachable_init. vm_compute. reflexivity.
  - vm_compute. do 4 apply list_elem_of_further. apply list_elem_of_here.
Defined.

(** X16. Whatever the numbers, on the tree in a reachable state [draw_node],
    called as [draw_segment_tree] and [visualizar_arbol] call it, returns
    and leaves the tree as it is; its guard on the length of the tree never
    cuts the drawing short: the labels it draws show, in the same order,
    the ranges, sums, sums of squares and variances that [print_tree()]
    prints; and it adds [6 * n - 4] artists to the axes (a box and a label
    for each of the [2 * n - 1] positions, two edges below each of the
    [n - 1] positions that are split), none for the empty tree. *)
Theorem draw_node_shows_the_printed_tree {T : Type} {num : Number T}
    (w : world T (artist T)) (c : world T (line T)) (W x y : Q) (max_level : Z) :
  reachable (w_st w) -> w_st c = w_st w ->
  let drawn := added (draw_node W 0 0 (n (w_st w) - 1) x y 0 max_level) w in
  runs (draw_node W 0 0 (n (w_st w) - 1) x y 0 max_level) w tt
       (mkWorld (w_st w) (w_out w ++ drawn)) /\
  omap shown_by_artist drawn = shown_by_line <$> added (print_tree 0 0 None None) c /\
  Z.of_nat (length drawn) = (if n (w_st w) =? 0 then 0 else 6 * n (w_st w) - 4).
Proof.
  intros Hs Hc drawn. apply reachable_consistent in Hs.
  pose proof (draw_node_spec w W x y max_level Hs) as Hrun.
  pose proof (added_runs _ _ _ _ _ Hrun) as E. fold drawn in E.
  assert (Hs' : consistent (w_st c)) by now rewrite Hc.
  rewrite (added_runs _ _ _ _ _ (print_tree_spec c Hs')), Hc, E.
  destruct Hs as (Hn & Hlen & _).
  split; [exact Hrun|]. split; [apply artists_fuel_lines|].
  destruct (Z.eqb_spec (n (w_st w)) 0) as [Hz|Hnz].
  - rewrite Hz. reflexivity.
  - rewrite artists_fuel_length; [lia | apply stack_depth_enough | lia | lia |].
    intros j lo hi Hcv. apply position_bound in Hcv. lia.
Qed.

Lemma draw_node_shows_the_printed_tree_witness :
  let st := final (__init__ [0x1p+2; 0x1p+3; 0x1.8p+2]%float) in
  let w : world float (artist float) := mkWorld st [] in
  let c : world float (line float) := mkWorld st [] in
  omap shown_by_artist (added (draw_node 12 0 0 (n (w_st w) - 1) 6 3 0 3) w)
  = shown_by_line <$> added (print_tree 0 0 None None) c.
Proof.
  intros st w c. apply (draw_node_shows_the_printed_tree w c 12 6 3 3).
  - apply reachable_init. vm_compute. reflexivity.
  - reflexivity.
Defined.

(** X17. With coordinates in exact arithmetic and whatever the numbers of
    the tree: when [draw_node] is called on the tree in a reachable state
    with the root at [x = fig_width / 2] and [fig_width > 0], as
    [draw_segment_tree] and [visualizar_arbol] call it, the centre of every
    label lies strictly between the limits [0] and [fig_width] of the x
    axis, its range is a range of valid indices, and it is placed a whole
    number [d] of rows of height [2.5] below the root, with
    [0 <= d <= ceil(log2 n)]. *)
Theorem draw_node_labels_inside_figure {T : Type} {num : Number T}
    (w : world T (artist T)) (W y : Q) (max_level : Z)
    (x' y' : Q) (l' r' : Z) (s q v : T) :
  reachable (w_st w) -> (0 < W)%Q ->
  Text x' y' l' r' s q v
    ∈ added (draw_node W 0 0 (n (w_st w) - 1) (W / 2) y 0 max_level) w ->
  (0 < x')%Q /\ (x' < W)%Q /\ 0 <= l' <= r' /\ r' < n (w_st w) /\
  exists d, 0 <= d <= Z.log2_up (n (w_st w)) /\ (y' == y - (5 # 2) * inject_Z d)%Q.
Proof.
  intros Hs HW Hin. apply reachable_consistent in Hs.
  rewrite (added_runs _ _ _ _ _ (draw_node_spec w W _ y max_level Hs)) in Hin.
  apply artists_fuel_place in Hin as (H1 & H2 & H3 & Hx1 & Hx2 & d & Hd & Hy);
    [|exact HW].
  replace (n (w_st w) - 1 - 0 + 1) with (n (w_st w)) in Hd by lia.
  change (2 ^ (0 + 1))%Q with 2%Q in Hx1, Hx2.
  assert (E : (W / 2 == W * (1 # 2))%Q) by field.
  rewrite E in Hx1, Hx2.
  split; [lra|]. split; [lra|]. split; [lia|]. split; [lia|].
  now exists d.
Qed.

Lemma draw_node_labels_inside_figure_witness :
  let st := final (__init__ [0x1p+2; 0x1p+3; 0x1.8p+2]%float) in
  let w : world float (artist float) := mkWorld st [] in
  (0 < 12 / 2)%Q /\ (12 / 2 < 12)%Q /\ 0 <= 0 <= 2 /\ 2 < n (w_st w) /\
  exists d, 0 <= d <= Z.log2_up (n (w_st w)) /\ (3 == 3 - (5 # 2) * inject_Z d)%Q.
Proof.
  intros st w.
  eapply (draw_node_labels_inside_figure w 12 3 3 (12 / 2) 3 0 2).
  - apply reachable_init. vm_compute. reflexivity.
  - reflexivity.
  - cbv. apply list_elem_of_further, list_elem_of_here.
Defined.

(** X18. With coordinates in exact arithmetic and whatever the numbers of
    the tree: [draw_node], called on the tree in a reachable state with
    [fig_width > 0], draws the nodes from left to right in the order of
    their ranges: of two labels, the one whose range ends before the range
    of the other begins lies strictly to the left.  In particular the
    leaves appear in the order of the sequence. *)
Theorem draw_node_left_to_right {T : Type} {num : Number T}
    (w : world T (artist T)) (W x y : Q) (max_level : Z)
    (x1 y1 : Q) (l1 r1 : Z) (s1 q1 v1 : T) (x2 y2 : Q) (l2 r2 : Z) (s2 q2 v2 : T) :
  reachable (w_st w) -> (0 < W)%Q ->
  Text x1 y1 l1 r1 s1 q1 v1
    ∈ added (draw_node W 0 0 (n (w_st w) - 1) x y 0 max_level) w ->
  Text x2 y2 l2 r2 s2 q2 v2
    ∈ added (draw_node W 0 0 (n (w_st w) - 1) x y 0 max_level) w ->
  r1 < l2 -> (x1 < x2)%Q.
Proof.
  intros Hs HW Hin1 Hin2 Hlt. apply reachable_consistent in Hs.
  rewrite (added_runs _ _ _ _ _ (draw_node_spec w W x y max_level Hs)) in Hin1, Hin2.
  eapply artists_fuel_order; eassumption.
Qed.

Lemma draw_node_left_to_right_witness :
  let st := final (__init__ [0x1p+2; 0x1p+3; 0x1.8p+2]%float) in
  let w : world float (artist float) := mkWorld st [] in
  (6 - 12 / 2 ^ (0 + 2) < 6 + 12 / 2 ^ (0 + 2))%Q.
Proof.
  intros st w.
  eapply (draw_node_left_to_right w 12 6 3 3 _ _ 0 1 _ _ _ _ _ 2 2).
  - apply reachable_init. vm_compute. reflexivity.
  - reflexivity.
  - cbv. do 5 apply list_elem_of_further. apply list_elem_of_here.
  - cbv. do 13 apply list_elem_of_further. apply list_elem_of_here.
  - lia.
Defined.
